(** * Hail expression types: a shallow embedding of [hail/expr/types.py]

    The development follows the Python module class by class: the closed
    hierarchy of [HailType] subclasses becomes one inductive type, every
    method becomes a function by cases on it, the class-level registry of
    [Box] objects becomes an explicit store, and Python exceptions become
    the [Raise] results of an error type. *)

From Stdlib Require Import ZArith String Ascii List Bool Lia.
From Stdlib Require Import DecimalString Decimal DecimalZ.
From Stdlib Require Import SpecFloat.
From stdpp Require Import base option list strings gmap.

Local Open Scope string_scope.
Local Open Scope list_scope.
Set Warnings "-register-all".

(** ** Results of fallible code *)

(** The Python exceptions the module can raise. *)
Inductive exn : Type :=
| NameError | TypeError | AttributeError | KeyError | ValueError
| AssertionError | IndexError | OverflowError | ParseError | RecursionError.

Inductive result (A : Type) : Type :=
| Ok (a : A)
| Raise (e : exn).
Arguments Ok {A} a.
Arguments Raise {A} e.

Definition rbind {A B} (r : result A) (k : A -> result B) : result B :=
  match r with Ok a => k a | Raise e => Raise e end.

Fixpoint rmapM {A B} (f : A -> result B) (l : list A) : result (list B) :=
  match l with
  | [] => Ok []
  | a :: l' => rbind (f a) (fun b => rbind (rmapM f l') (fun bs => Ok (b :: bs)))
  end.

(** ** The type nodes *)

(** Keys of [tvariable._cond_map]. *)
Inductive cond_tag : Type :=
| c_numeric | c_int32 | c_int64 | c_float32 | c_float64
| c_locus | c_struct | c_union | c_tuple.

(** Modelled from the spec: [hail.expr.nat] is not part of the sources. The
    rank of an n-dimensional array is "a concrete natural number or
    unresolved"; [tndarray.__init__] wraps a Python [int] in [NatLiteral]
    and keeps any other [NatBase] as it is. *)
Inductive NatBase : Type :=
| NatLiteral (n : Z)
| NatVariable (name : string).

(** Addresses of [Box] objects. *)
Definition loc := nat.

(** One constructor per concrete subclass of [HailType].  A struct or a
    union carries its [dict] of fields as an association list in insertion
    order; Python keyword arguments make the names pairwise distinct
    ([wf_fields] below).  A type variable carries the reference to its
    [Box]. *)
Inductive HailType : Type :=
| tvoid
| tint32
| tint64
| tfloat32
| tfloat64
| tstr
| tbool
| tndarray (element_type : HailType) (ndim : NatBase)
| tarray (element_type : HailType)
| tset (element_type : HailType)
| tdict (key_type value_type : HailType)
| tstruct (field_types : list (string * HailType))
| tunion (case_types : list (string * HailType))
| ttuple (types : list HailType)
| tcall
| tlocus (reference_genome : string)
| tinterval (point_type : HailType)
| tvariable (name : string) (cond : option cond_tag) (box : loc).

Definition wf_fields (fs : list (string * HailType)) : Prop := NoDup (fs.*1).

Section HailType_ind.
Variable P : HailType -> Prop.
Hypothesis Hvoid : P tvoid.
Hypothesis Hint32 : P tint32.
Hypothesis Hint64 : P tint64.
Hypothesis Hfloat32 : P tfloat32.
Hypothesis Hfloat64 : P tfloat64.
Hypothesis Hstr : P tstr.
Hypothesis Hbool : P tbool.
Hypothesis Hndarray : forall e n, P e -> P (tndarray e n).
Hypothesis Harray : forall e, P e -> P (tarray e).
Hypothesis Hset : forall e, P e -> P (tset e).
Hypothesis Hdict : forall k v, P k -> P v -> P (tdict k v).
Hypothesis Hstruct : forall fs, Forall (fun ft => P ft.2) fs -> P (tstruct fs).
Hypothesis Hunion : forall fs, Forall (fun ft => P ft.2) fs -> P (tunion fs).
Hypothesis Htuple : forall ts, Forall P ts -> P (ttuple ts).
Hypothesis Hcall : P tcall.
Hypothesis Hlocus : forall rg, P (tlocus rg).
Hypothesis Hinterval : forall p, P p -> P (tinterval p).
Hypothesis Hvariable : forall x c b, P (tvariable x c b).

Fixpoint HailType_nested_ind (t : HailType) : P t :=
  let fields :=
    fix fields (fs : list (string * HailType)) : Forall (fun ft => P ft.2) fs :=
      match fs with
      | [] => ListDef.Forall_nil _
      | ft :: fs' =>
          ListDef.Forall_cons (fun ft => P ft.2) ft fs' (HailType_nested_ind ft.2) (fields fs')
      end in
  match t with
  | tvoid => Hvoid
  | tint32 => Hint32
  | tint64 => Hint64
  | tfloat32 => Hfloat32
  | tfloat64 => Hfloat64
  | tstr => Hstr
  | tbool => Hbool
  | tndarray e n => Hndarray e n (HailType_nested_ind e)
  | tarray e => Harray e (HailType_nested_ind e)
  | tset e => Hset e (HailType_nested_ind e)
  | tdict k v => Hdict k v (HailType_nested_ind k) (HailType_nested_ind v)
  | tstruct fs => Hstruct fs (fields fs)
  | tunion fs => Hunion fs (fields fs)
  | ttuple ts =>
      Htuple ts
        ((fix types (ts : list HailType) : Forall P ts :=
            match ts with
            | [] => ListDef.Forall_nil _
            | t' :: ts' => ListDef.Forall_cons P t' ts' (HailType_nested_ind t') (types ts')
            end) ts)
  | tcall => Hcall
  | tlocus rg => Hlocus rg
  | tinterval p => Hinterval p (HailType_nested_ind p)
  | tvariable x c b => Hvariable x c b
  end.
End HailType_ind.

(** ** Equality of type nodes: [__eq__] and the [_eq] methods *)

(** [self._field_types[item]] for a name. *)
Fixpoint field_lookup (f : string) (fs : list (string * HailType)) : option HailType :=
  match fs with
  | [] => None
  | (g, t) :: fs' => if String.eqb f g then Some t else field_lookup f fs'
  end.

(** [all(map(eq, l, m))]: [map] stops at the shorter of the two. *)
Definition all2 {A B} (f : A -> B -> bool) : list A -> list B -> bool :=
  fix go l m :=
    match l, m with
    | a :: l', b :: m' => f a b && go l' m'
    | _, _ => true
    end.

(** [t == other], as a truth value.  [HailType.__eq__] is
    [isinstance(other, HailType) and self._eq(other)]; every class but
    [tvariable] overrides [_eq]. [tvariable] inherits the body of the
    abstract method, a bare [return]: its [_eq] answers [None], which is
    false.  In [tstruct._eq] the generator [self[f] == other[f] for f in
    self._fields] visits the items of [self] in order and looks each name up
    in [other]. *)
Fixpoint hail_eqb (t other : HailType) {struct t} : bool :=
  match t, other with
  | tvoid, tvoid => true
  | tint32, tint32 => true
  | tint64, tint64 => true
  | tfloat32, tfloat32 => true
  | tfloat64, tfloat64 => true
  | tstr, tstr => true
  | tbool, tbool => true
  | tndarray e _, tndarray e' _ => hail_eqb e e'
  | tarray e, tarray e' => hail_eqb e e'
  | tset e, tset e' => hail_eqb e e'
  | tdict k v, tdict k' v' => hail_eqb k k' && hail_eqb v v'
  | tstruct fs, tstruct gs =>
      bool_decide (fs.*1 = gs.*1)
      && forallb (fun ft : string * HailType =>
                    match field_lookup ft.1 gs with
                    | Some u => hail_eqb ft.2 u
                    | None => false
                    end) fs
  | tunion fs, tunion gs =>
      bool_decide (fs.*1 = gs.*1)
      && forallb (fun ft : string * HailType =>
                    match field_lookup ft.1 gs with
                    | Some u => hail_eqb ft.2 u
                    | None => false
                    end) fs
  | ttuple ts, ttuple us =>
      (length ts =? length us)%nat && all2 hail_eqb ts us
  | tcall, tcall => true
  | tlocus rg, tlocus rg' => String.eqb rg rg'
  | tinterval p, tinterval p' => hail_eqb p p'
  | _, _ => false
  end.

(** ** Binding cells: the class [Box] and its registry *)

(** A [Box] object either has the attribute [value] or lacks it. *)
Definition Box := option HailType.

(** The mutable state of the module: the class attribute
    [Box.named_boxes], a [dict] from names to [Box] objects, and the
    objects themselves, by address. *)
Record store : Type := Store {
  named_boxes : gmap string loc;
  heap : list Box
}.

Definition empty_store : store := Store ∅ [].

(** Stateful, fallible code: the store is threaded through and survives a
    raised exception. *)
Definition M (A : Type) : Type := store -> result A * store.

Definition ret {A} (a : A) : M A := fun σ => (Ok a, σ).
Definition raise {A} (e : exn) : M A := fun σ => (Raise e, σ).
Definition bind {A B} (m : M A) (k : A -> M B) : M B :=
  fun σ => match m σ with
           | (Ok a, σ') => k a σ'
           | (Raise e, σ') => (Raise e, σ')
           end.

Notation "'let*' x ':=' m 'in' k" := (bind m (fun x => k))
  (at level 10, x name, m at level 100, k at level 200).

(** [a and b] on truth values, where [b] has effects. *)
Definition and_then (a : M bool) (b : M bool) : M bool :=
  let* x := a in if x then b else ret false.

(** [Box.from_name] *)
Definition Box_from_name (name : string) : M loc :=
  fun σ =>
    match named_boxes σ !! name with
    | Some b => (Ok b, σ)
    | None =>
        let b := length (heap σ) in
        (Ok b, Store (<[name := b]> (named_boxes σ)) (heap σ ++ [None]))
    end.

(** [Box.unify] *)
Definition Box_unify (b : loc) (v : HailType) : M bool :=
  fun σ =>
    match heap σ !! b with
    | Some (Some value) => (Ok (hail_eqb value v), σ)
    | _ => (Ok true, Store (named_boxes σ) (<[b := Some v]> (heap σ)))
    end.

(** [Box.clear] *)
Definition Box_clear (b : loc) (σ : store) : store :=
  match heap σ !! b with
  | Some (Some _) => Store (named_boxes σ) (<[b := None]> (heap σ))
  | _ => σ
  end.

(** [hasattr(box, 'value')] *)
Definition Box_bound (b : loc) (σ : store) : bool :=
  match heap σ !! b with
  | Some (Some _) => true
  | _ => false
  end.

(** ** Type variables *)

(** [is_numeric]: the class of [t] is one of [_numeric_types]. *)
Definition is_numeric (t : HailType) : bool :=
  match t with
  | tbool | tint32 | tint64 | tfloat32 | tfloat64 => true
  | _ => false
  end.

(** [tvariable._cond_map] *)
Definition cond_map (c : cond_tag) (x : HailType) : bool :=
  match c with
  | c_numeric => is_numeric x
  | c_int32 => hail_eqb x tint32
  | c_int64 => hail_eqb x tint64
  | c_float32 => hail_eqb x tfloat32
  | c_float64 => hail_eqb x tfloat64
  | c_locus => match x with tlocus _ => true | _ => false end
  | c_struct => match x with tstruct _ => true | _ => false end
  | c_union => match x with tunion _ => true | _ => false end
  | c_tuple => match x with ttuple _ => true | _ => false end
  end.

(** [self.condf and not self.condf(t)]: the constraint rejects [t]. *)
Definition cond_rejects (cond : option cond_tag) (t : HailType) : bool :=
  match cond with
  | Some c => negb (cond_map c t)
  | None => false
  end.

(** [tvariable.__init__] *)
Definition tvariable_init (name : string) (cond : option cond_tag) : M HailType :=
  let* b := Box_from_name name in ret (tvariable name cond b).

(** [tvariable.unify], on the fields of the variable *)
Definition tvariable_unify (cond : option cond_tag) (box : loc) (t : HailType) : M bool :=
  if cond_rejects cond t then ret false else Box_unify box t.

(** [tvariable.clear] *)
Definition tvariable_clear (box : loc) (σ : store) : store := Box_clear box σ.

(** ** Unification *)

(** The rank of an n-dimensional array is unified and cleared by the
    methods of [hail.expr.nat], which is not part of the sources: they are
    taken as an interface. *)
Class NatOps : Type := {
  nat_unify : NatBase -> NatBase -> M bool;
  nat_clear : NatBase -> store -> store
}.

(** The loop of [tstruct.unify] and of [ttuple.unify] over [zip(xs, ys)]:
    [False] at the first pair that does not unify, [True] at the end of the
    shorter list. *)
Definition unify_zip {A} (unify_pair : A -> A -> M bool) : list A -> list A -> M bool :=
  fix loop xs ys :=
    match xs, ys with
    | x :: xs', y :: ys' =>
        let* ok := unify_pair x y in
        if negb ok then ret false else loop xs' ys'
    | _, _ => ret true
    end.

Section Unify.
Context `{NatOps}.

(** The [unify] method of each class.  In [tunion.unify] the test reads
    [isinstance(t, union)], and the module binds no name [union] (the
    star import of [hail.typecheck] brings type-checker combinators):
    evaluating the test raises [NameError] whatever [t] is. *)
Fixpoint unify (self t : HailType) {struct self} : M bool :=
  match self with
  | tvoid => ret (hail_eqb t tvoid)
  | tint32 => ret (hail_eqb t tint32)
  | tint64 => ret (hail_eqb t tint64)
  | tfloat32 => ret (hail_eqb t tfloat32)
  | tfloat64 => ret (hail_eqb t tfloat64)
  | tstr => ret (hail_eqb t tstr)
  | tbool => ret (hail_eqb t tbool)
  | tndarray e n =>
      match t with
      | tndarray e' n' => and_then (unify e e') (nat_unify n n')
      | _ => ret false
      end
  | tarray e =>
      match t with tarray e' => unify e e' | _ => ret false end
  | tset e =>
      match t with tset e' => unify e e' | _ => ret false end
  | tdict k v =>
      match t with
      | tdict k' v' => and_then (unify k k') (unify v v')
      | _ => ret false
      end
  | tstruct fs =>
      match t with
      | tstruct gs =>
          if negb (length fs =? length gs)%nat then ret false
          else
            unify_zip (fun ft1 ft2 : string * HailType =>
                         if String.eqb ft1.1 ft2.1 then unify ft1.2 ft2.2 else ret false)
                      fs gs
      | _ => ret false
      end
  | tunion _ => raise NameError
  | ttuple ts =>
      match t with
      | ttuple us =>
          if negb (length ts =? length us)%nat then ret false
          else unify_zip unify ts us
      | _ => ret false
      end
  | tcall => ret (hail_eqb t tcall)
  | tlocus rg =>
      match t with tlocus rg' => ret (String.eqb rg rg') | _ => ret false end
  | tinterval p =>
      match t with tinterval p' => unify p p' | _ => ret false end
  | tvariable _ cond box => tvariable_unify cond box t
  end.

(** The [clear] method of each class. *)
Fixpoint clear (self : HailType) (σ : store) {struct self} : store :=
  match self with
  | tndarray e n => nat_clear n (clear e σ)
  | tarray e | tset e | tinterval e => clear e σ
  | tdict k v => clear v (clear k σ)
  | tstruct fs | tunion fs =>
      (fix loop (fs : list (string * HailType)) (σ : store) : store :=
         match fs with
         | [] => σ
         | (_, t) :: fs' => loop fs' (clear t σ)
         end) fs σ
  | ttuple ts =>
      (fix loop (ts : list HailType) (σ : store) : store :=
         match ts with
         | [] => σ
         | t :: ts' => loop ts' (clear t σ)
         end) ts σ
  | tvariable _ _ box => tvariable_clear box σ
  | _ => σ
  end.

(** The field types of two structs unify one after the other, name by
    name in the order of declaration, from a store to a store. *)
Inductive fields_unify :
  list (string * HailType) -> list (string * HailType) -> store -> store -> Prop :=
| fields_unify_nil σ : fields_unify [] [] σ σ
| fields_unify_cons f t1 t2 fs gs σ σ1 σ2 :
    unify t1 t2 σ = (Ok true, σ1) ->
    fields_unify fs gs σ1 σ2 ->
    fields_unify ((f, t1) :: fs) ((f, t2) :: gs) σ σ2.
End Unify.

(** ** Python values *)

(** The host values the module inspects, converts and builds.  A JSON
    document is a value made of [PyNone], [PyBool], [PyInt], [PyFloat],
    [PyStr], [PyList] and [PyDict].  A set and a dict list their members in
    iteration order.  [PyStruct] is [hail.utils.Struct], [PyLocus] is
    [hail.genetics.Locus], [PyInterval] is [hail.utils.Interval] and
    [PyCall] is [hail.genetics.Call].  NumPy arrays are not among the
    modelled values. *)
Inductive pyvalue : Type :=
| PyNone
| PyBool (b : bool)
| PyInt (n : Z)
| PyFloat (x : spec_float)
| PyStr (s : string)
| PyList (l : list pyvalue)
| PyTuple (l : list pyvalue)
| PySet (l : list pyvalue)
| PyDict (items : list (pyvalue * pyvalue))
| PyStruct (fields : list (string * pyvalue))
| PyLocus (contig : string) (position : Z) (reference_genome : string)
| PyInterval (start end_ : pyvalue) (includes_start includes_end : bool)
             (point_type : HailType)
| PyCall (alleles : list Z) (phased : bool).

(** Binary64 *)
Definition prec64 : Z := 53.
Definition emax64 : Z := 1024.

(** [math.isfinite] on a float *)
Definition float_isfinite (x : spec_float) : bool :=
  match x with
  | S754_zero _ | S754_finite _ _ _ => true
  | S754_infinity _ | S754_nan => false
  end.

(** The truth value of an object: [bool(x)]. *)
Definition truthy (x : pyvalue) : bool :=
  match x with
  | PyNone => false
  | PyBool b => b
  | PyInt n => negb (n =? 0)%Z
  | PyFloat (S754_zero _) => false
  | PyFloat _ => true
  | PyStr s => negb (String.eqb s "")
  | PyList l | PyTuple l | PySet l => negb (length l =? 0)%nat
  | PyDict items => negb (length items =? 0)%nat
  | PyStruct fields => negb (length fields =? 0)%nat
  | PyLocus _ _ _ | PyInterval _ _ _ _ _ | PyCall _ _ => true
  end.

(** [x is None] *)
Definition is_None (x : pyvalue) : bool :=
  match x with PyNone => true | _ => false end.

(** The one-character strings of a string. *)
Fixpoint chars (s : string) : list pyvalue :=
  match s with
  | EmptyString => []
  | String c s' => PyStr (String c EmptyString) :: chars s'
  end.

(** [iter(x)], run to the end: the members a [for] loop visits. *)
Definition py_iter (x : pyvalue) : result (list pyvalue) :=
  match x with
  | PyList l | PyTuple l | PySet l => Ok l
  | PyStr s => Ok (chars s)
  | PyDict items => Ok (items.*1)
  | PyStruct fields => Ok (PyStr <$> fields.*1)
  | _ => Raise TypeError
  end.

(** [x.items()], run to the end. *)
Definition py_items (x : pyvalue) : result (list (pyvalue * pyvalue)) :=
  match x with
  | PyDict items => Ok items
  | PyStruct fields => Ok ((fun fv : string * pyvalue => (PyStr fv.1, fv.2)) <$> fields)
  | _ => Raise AttributeError
  end.

(** [float(n)] for an integer: the nearest binary64 number, and
    [OverflowError] when that is no finite number. *)
Definition float_of_Z (n : Z) : result spec_float :=
  match binary_normalize prec64 emax64 n 0 false with
  | S754_infinity _ => Raise OverflowError
  | x => Ok x
  end.

(** Is the integer [n] the number the finite float [x] stands for? *)
Definition float_is_Z (x : spec_float) (n : Z) : bool :=
  match x with
  | S754_zero _ => (n =? 0)%Z
  | S754_finite s m e =>
      let sm := if s then Z.neg m else Z.pos m in
      if (0 <=? e)%Z then (n =? sm * 2 ^ e)%Z else (n * 2 ^ (- e) =? sm)%Z
  | _ => false
  end.

Definition Z_of_bool (b : bool) : Z := if b then 1%Z else 0%Z.

(** [x == y] on values, as a truth value: numbers compare by value across
    [bool], [int] and [float], sequences member by member, sets and dicts
    regardless of order. *)
Fixpoint py_eqb (x y : pyvalue) {struct x} : bool :=
  let list_eqb :=
    fix list_eqb (l m : list pyvalue) : bool :=
      match l, m with
      | [], [] => true
      | a :: l', b :: m' => py_eqb a b && list_eqb l' m'
      | _, _ => false
      end in
  let mem :=
    fix mem (l : list pyvalue) (b : pyvalue) : bool :=
      match l with
      | [] => false
      | a :: l' => py_eqb a b || mem l' b
      end in
  let has_item :=
    fix has_item (l : list (pyvalue * pyvalue)) (k v : pyvalue) : bool :=
      match l with
      | [] => false
      | (k', v') :: l' => (py_eqb k' k && py_eqb v' v) || has_item l' k v
      end in
  let fields_eqb :=
    fix fields_eqb (l m : list (string * pyvalue)) : bool :=
      match l, m with
      | [], [] => true
      | (f, a) :: l', (g, b) :: m' => String.eqb f g && py_eqb a b && fields_eqb l' m'
      | _, _ => false
      end in
  match x, y with
  | PyNone, PyNone => true
  | PyBool a, PyBool b => Bool.eqb a b
  | PyBool a, PyInt n => (Z_of_bool a =? n)%Z
  | PyBool a, PyFloat f => float_is_Z f (Z_of_bool a)
  | PyInt n, PyBool b => (n =? Z_of_bool b)%Z
  | PyInt n, PyInt m => (n =? m)%Z
  | PyInt n, PyFloat f => float_is_Z f n
  | PyFloat f, PyBool b => float_is_Z f (Z_of_bool b)
  | PyFloat f, PyInt n => float_is_Z f n
  | PyFloat f, PyFloat g => SFeqb f g
  | PyStr a, PyStr b => String.eqb a b
  | PyList l, PyList m => list_eqb l m
  | PyTuple l, PyTuple m => list_eqb l m
  | PySet l, PySet m =>
      forallb (mem l) m && (length l =? length m)%nat
  | PyDict l, PyDict m =>
      forallb (fun kv : pyvalue * pyvalue => has_item l kv.1 kv.2) m
      && (length l =? length m)%nat
  | PyStruct l, PyStruct m => fields_eqb l m
  | PyLocus c p rg, PyLocus c' p' rg' =>
      String.eqb c c' && (p =? p')%Z && String.eqb rg rg'
  | PyInterval a b ia ib _, PyInterval a' b' ia' ib' _ =>
      py_eqb a a' && py_eqb b b' && Bool.eqb ia ia' && Bool.eqb ib ib'
  | PyCall a ph, PyCall a' ph' => bool_decide (a = a') && Bool.eqb ph ph'
  | _, _ => false
  end.

(** [hash(x)] is defined: lists, sets and dicts are not hashable, and a
    tuple, a struct or an interval hashes its members. *)
Fixpoint hashable (x : pyvalue) : bool :=
  match x with
  | PyList _ | PySet _ | PyDict _ => false
  | PyTuple l => forallb hashable l
  | PyStruct fields => forallb (fun fv : string * pyvalue => hashable fv.2) fields
  | PyInterval a b _ _ _ => hashable a && hashable b
  | _ => true
  end.

(** [d[k] = v] on the items of a dict: a present key keeps its place. *)
Fixpoint dict_setitem (items : list (pyvalue * pyvalue)) (k v : pyvalue)
  : list (pyvalue * pyvalue) :=
  match items with
  | [] => [(k, v)]
  | (k', v') :: items' =>
      if py_eqb k' k then (k', v) :: items' else (k', v') :: dict_setitem items' k v
  end.

(** [s.add(v)] on the members of a set. *)
Definition set_add (l : list pyvalue) (v : pyvalue) : list pyvalue :=
  if existsb (fun a => py_eqb a v) l then l else l ++ [v].

(** [d[k]] on the items of a dict. *)
Fixpoint dict_getitem (items : list (pyvalue * pyvalue)) (k : pyvalue) : option pyvalue :=
  match items with
  | [] => None
  | (k', v) :: items' => if py_eqb k' k then Some v else dict_getitem items' k
  end.

Fixpoint struct_getitem (fields : list (string * pyvalue)) (f : string) : option pyvalue :=
  match fields with
  | [] => None
  | (g, v) :: fields' => if String.eqb f g then Some v else struct_getitem fields' f
  end.

(** [x[k]] for a string [k]. *)
Definition py_getitem_str (x : pyvalue) (k : string) : result pyvalue :=
  match x with
  | PyDict items =>
      match dict_getitem items (PyStr k) with Some v => Ok v | None => Raise KeyError end
  | PyStruct fields =>
      match struct_getitem fields k with Some v => Ok v | None => Raise KeyError end
  | _ => Raise TypeError
  end.

(** [l[i]] for a list, negative indices counting from the end. *)
Definition seq_getitem {A} (l : list A) (i : Z) : result A :=
  let j := if (i <? 0)%Z then (i + Z.of_nat (length l))%Z else i in
  if (j <? 0)%Z then Raise IndexError
  else match l !! Z.to_nat j with Some a => Ok a | None => Raise IndexError end.

(** [x[i]] for an integer [i]. *)
Definition py_getitem_int (x : pyvalue) (i : Z) : result pyvalue :=
  match x with
  | PyList l | PyTuple l => seq_getitem l i
  | PyStr s => seq_getitem (chars s) i
  | PyDict items =>
      match dict_getitem items (PyInt i) with Some v => Ok v | None => Raise KeyError end
  | PyStruct _ => Raise KeyError
  | _ => Raise TypeError
  end.

(** [x.get(k)] for a string [k]. *)
Definition py_get (x : pyvalue) (k : string) : result pyvalue :=
  match x with
  | PyDict items => Ok (default PyNone (dict_getitem items (PyStr k)))
  | PyStruct fields => Ok (default PyNone (struct_getitem fields k))
  | _ => Raise AttributeError
  end.

(** [x.name], for the attributes the module reads: the fields of a struct
    are attributes of it. *)
Definition py_getattr (x : pyvalue) (name : string) : result pyvalue :=
  match x with
  | PyLocus c p _ =>
      if String.eqb name "contig" then Ok (PyStr c)
      else if String.eqb name "position" then Ok (PyInt p)
      else Raise AttributeError
  | PyInterval a b ia ib _ =>
      if String.eqb name "start" then Ok a
      else if String.eqb name "end" then Ok b
      else if String.eqb name "includes_start" then Ok (PyBool ia)
      else if String.eqb name "includes_end" then Ok (PyBool ib)
      else Raise AttributeError
  | PyStruct fields =>
      match struct_getitem fields name with Some v => Ok v | None => Raise AttributeError end
  | _ => Raise AttributeError
  end.

(** ** Collaborators outside the module *)

(** What NumPy, [hail.genetics], [hail.utils] and the Python built-ins do
    where the module only calls them: taken as an interface. *)
Class Externals : Type := {
  (** [[elt.item() for elt in np.nditer(obj)]] *)
  np_nditer_items : pyvalue -> result (list pyvalue);
  (** the body of [tndarray._convert_to_json], all of it NumPy calls *)
  ndarray_to_json : pyvalue -> result pyvalue;
  (** the body of [tndarray._convert_from_json], for an element type *)
  ndarray_from_json : HailType -> pyvalue -> result pyvalue;
  (** [str(x)] *)
  py_str : pyvalue -> string;
  (** [hl.Call._from_java(hl.Call._call_jobject().parse(x))] *)
  Call_parse : pyvalue -> result pyvalue;
  (** [float(s)] for a string that is not one of the spellings of NaN and
      of the infinities that [float_of_str] reads *)
  float_of_literal : string -> result spec_float;
  (** [genetics.Locus(contig, position, reference_genome=rg)] *)
  Locus_init : pyvalue -> pyvalue -> string -> result pyvalue;
  (** [Interval(start, end, includes_start, includes_end)] *)
  Interval_init : pyvalue -> pyvalue -> pyvalue -> pyvalue -> result pyvalue
}.

(** ** The value conformance checker *)

(** [isinstance(x, int)], with the integer: a [bool] is an [int]. *)
Definition int_value (x : pyvalue) : option Z :=
  match x with
  | PyInt n => Some n
  | PyBool b => Some (Z_of_bool b)
  | _ => None
  end.

(** [f not in s] for [s = set(self)], the set of the field names. *)
Definition not_a_field (fs : list (string * HailType)) (f : pyvalue) : bool :=
  match f with
  | PyStr name => negb (existsb (String.eqb name) (fs.*1))
  | _ => true
  end.

(** The [_typecheck_one_level] method of each class.  [HailType] declares
    it abstract with body [pass]: [_tvoid], [tunion] and [tvariable] inherit
    that body.  No modelled value is a NumPy array. *)
Definition _typecheck_one_level (self : HailType) (annotation : pyvalue) : result unit :=
  match self with
  | tvoid | tunion _ | tvariable _ _ _ => Ok tt
  | tint32 =>
      if negb (is_None annotation) then
        match int_value annotation with
        | None => Raise TypeError
        | Some n =>
            if negb ((- (1 ≪ 31) <=? n)%Z && (n <=? (1 ≪ 31) - 1)%Z)
            then Raise TypeError else Ok tt
        end
      else Ok tt
  | tint64 =>
      if negb (is_None annotation) then
        match int_value annotation with
        | None => Raise TypeError
        | Some n =>
            if negb ((- (1 ≪ 63) <=? n)%Z && (n <=? (1 ≪ 63) - 1)%Z)
            then Raise TypeError else Ok tt
        end
      else Ok tt
  | tfloat32 | tfloat64 =>
      if negb (is_None annotation)
         && negb match annotation with PyFloat _ | PyInt _ | PyBool _ => true | _ => false end
      then Raise TypeError else Ok tt
  | tstr =>
      if truthy annotation
         && negb match annotation with PyStr _ => true | _ => false end
      then Raise TypeError else Ok tt
  | tbool =>
      if negb (is_None annotation)
         && negb match annotation with PyBool _ => true | _ => false end
      then Raise TypeError else Ok tt
  | tndarray _ _ =>
      if negb (is_None annotation) then Raise TypeError else Ok tt
  | tarray _ =>
      if negb (is_None annotation) then
        if negb match annotation with PyList _ | PyTuple _ | PyStr _ => true | _ => false end
        then Raise TypeError else Ok tt
      else Ok tt
  | tset _ =>
      if negb (is_None annotation) then
        if negb match annotation with PySet _ => true | _ => false end
        then Raise TypeError else Ok tt
      else Ok tt
  | tdict _ _ =>
      if negb (is_None annotation) then
        if negb match annotation with PyDict _ => true | _ => false end
        then Raise TypeError else Ok tt
      else Ok tt
  | tstruct fs =>
      if truthy annotation then
        match annotation with
        | PyDict _ | PyStruct _ =>
            rbind (py_iter annotation) (fun keys =>
              if existsb (not_a_field fs) keys then Raise TypeError else Ok tt)
        | _ => Raise TypeError
        end
      else Ok tt
  | ttuple ts =>
      if truthy annotation then
        match annotation with
        | PyTuple l =>
            if negb (length l =? length ts)%nat then Raise TypeError else Ok tt
        | _ => Raise TypeError
        end
      else Ok tt
  | tcall =>
      if negb (is_None annotation)
         && negb match annotation with PyCall _ _ => true | _ => false end
      then Raise TypeError else Ok tt
  | tlocus rg =>
      if negb (is_None annotation) then
        match annotation with
        | PyLocus _ _ rg' => if negb (String.eqb rg rg') then Raise TypeError else Ok tt
        | _ => Raise TypeError
        end
      else Ok tt
  | tinterval p =>
      if negb (is_None annotation) then
        match annotation with
        | PyInterval _ _ _ _ p' => if negb (hail_eqb p' p) then Raise TypeError else Ok tt
        | _ => Raise TypeError
        end
      else Ok tt
  end.

(** [for x in l: g(x)] *)
Fixpoint rfor {A} (g : A -> result unit) (l : list A) : result unit :=
  match l with
  | [] => Ok tt
  | a :: l' => rbind (g a) (fun _ => rfor g l')
  end.

Section Typecheck.
Context `{Externals}.

(** The [_traverse] method of each class, for a visitor [f]. *)
Fixpoint _traverse (f : HailType -> pyvalue -> result bool)
    (self : HailType) (obj : pyvalue) {struct self} : result unit :=
  match self with
  | tndarray e _ =>
      rbind (f self obj) (fun go =>
        if go then rbind (np_nditer_items obj) (rfor (_traverse f e)) else Ok tt)
  | tarray e | tset e =>
      rbind (f self obj) (fun go =>
        if go then rbind (py_iter obj) (rfor (_traverse f e)) else Ok tt)
  | tdict k v =>
      rbind (f self obj) (fun go =>
        if go then
          rbind (py_items obj)
            (rfor (fun kv : pyvalue * pyvalue =>
                     rbind (_traverse f k kv.1) (fun _ => _traverse f v kv.2)))
        else Ok tt)
  | tstruct fs =>
      rbind (f self obj) (fun go =>
        if go then
          rbind (py_items obj)
            (rfor (fun kv : pyvalue * pyvalue =>
                     match kv.1 with
                     | PyStr name =>
                         (fix getitem (fs : list (string * HailType)) : result unit :=
                            match fs with
                            | [] => Raise KeyError
                            | (g, t) :: fs' =>
                                if String.eqb name g then _traverse f t kv.2 else getitem fs'
                            end) fs
                     | PyInt _ | PyBool _ =>
                         let i := match kv.1 with
                                  | PyInt i => i | PyBool b => Z_of_bool b | _ => 0%Z end in
                         let j := if (i <? 0)%Z then (i + Z.of_nat (length fs))%Z else i in
                         if (j <? 0)%Z then Raise IndexError
                         else
                           (fix getitem (fs : list (string * HailType)) (n : nat)
                              : result unit :=
                              match fs, n with
                              | [], _ => Raise IndexError
                              | (_, t) :: _, O => _traverse f t kv.2
                              | _ :: fs', S n' => getitem fs' n'
                              end) fs (Z.to_nat j)
                     | _ => Raise TypeError
                     end))
        else Ok tt)
  | ttuple ts =>
      rbind (f self obj) (fun go =>
        if go then
          rbind (py_iter obj) (fun elts =>
            (fix zip (ts : list HailType) (elts : list pyvalue) : result unit :=
               match ts, elts with
               | t :: ts', elt :: elts' =>
                   rbind (_traverse f t elt) (fun _ => zip ts' elts')
               | _, _ => Ok tt
               end) ts elts)
        else Ok tt)
  | tinterval p =>
      rbind (f self obj) (fun go =>
        if go then
          rbind (py_getattr obj "start") (fun a =>
          rbind (_traverse f p a) (fun _ =>
          rbind (py_getattr obj "end") (fun b => _traverse f p b)))
        else Ok tt)
  | _ => rbind (f self obj) (fun _ => Ok tt)
  end.

(** The local function [check] of [typecheck]. *)
Definition check (t : HailType) (obj : pyvalue) : result bool :=
  rbind (_typecheck_one_level t obj) (fun _ => Ok true).

(** [HailType.typecheck] *)
Definition typecheck (self : HailType) (value : pyvalue) : result unit :=
  _traverse check self value.
End Typecheck.

(** ** The JSON codec *)

(** [HailType._convert_to_json_na] and [HailType._convert_from_json_na],
    for the conversion method of the class of [self]. *)
Definition HailType_convert_to_json_na
    (self_convert_to_json : pyvalue -> result pyvalue) (x : pyvalue) : result pyvalue :=
  if is_None x then Ok x else self_convert_to_json x.

Definition HailType_convert_from_json_na
    (self_convert_from_json : pyvalue -> result pyvalue) (x : pyvalue) : result pyvalue :=
  if is_None x then Ok x else self_convert_from_json x.

(** [math.isfinite(x)] *)
Definition math_isfinite (x : pyvalue) : result bool :=
  match x with
  | PyFloat f => Ok (float_isfinite f)
  | PyInt n => rbind (float_of_Z n) (fun f => Ok (float_isfinite f))
  | PyBool _ => Ok true
  | _ => Raise TypeError
  end.

(** [str(x)] for a float that is not finite. *)
Definition str_nonfinite (f : spec_float) : string :=
  match f with
  | S754_infinity false => "inf"
  | S754_infinity true => "-inf"
  | _ => "nan"
  end.

(** The JSON value of a float: itself, or the string [str] spells it with
    when it is not finite. *)
Definition float_json (v : spec_float) : pyvalue :=
  if float_isfinite v then PyFloat v else PyStr (str_nonfinite v).

Definition lower_ascii (c : ascii) : ascii :=
  let n := nat_of_ascii c in
  if ((65 <=? n) && (n <=? 90))%nat then ascii_of_nat (n + 32) else c.

Fixpoint lower (s : string) : string :=
  match s with
  | EmptyString => EmptyString
  | String c s' => String (lower_ascii c) (lower s')
  end.

Section Codec.
Context `{Externals}.

(** [float(s)] for a string: the spellings of NaN and of the infinities,
    in any case and with a sign, are read here. *)
Definition float_of_str (s : string) : result spec_float :=
  let l := lower s in
  if existsb (String.eqb l) ["nan"; "+nan"; "-nan"] then Ok S754_nan
  else if existsb (String.eqb l) ["inf"; "+inf"; "infinity"; "+infinity"]
  then Ok (S754_infinity false)
  else if existsb (String.eqb l) ["-inf"; "-infinity"] then Ok (S754_infinity true)
  else float_of_literal s.

(** [float(x)] *)
Definition py_float (x : pyvalue) : result pyvalue :=
  match x with
  | PyFloat f => Ok (PyFloat f)
  | PyInt n => rbind (float_of_Z n) (fun f => Ok (PyFloat f))
  | PyBool b => rbind (float_of_Z (Z_of_bool b)) (fun f => Ok (PyFloat f))
  | PyStr s => rbind (float_of_str s) (fun f => Ok (PyFloat f))
  | _ => Raise TypeError
  end.

(** [_tfloat32._convert_to_json] and [_tfloat64._convert_to_json] *)
Definition tfloat_convert_to_json (x : pyvalue) : result pyvalue :=
  rbind (math_isfinite x) (fun finite =>
    if finite then Ok x
    else match x with
         | PyFloat f => Ok (PyStr (str_nonfinite f))
         | _ => Ok (PyStr (py_str x))
         end).

(** [_tfloat32._convert_from_json] and [_tfloat64._convert_from_json] *)
Definition tfloat_convert_from_json (x : pyvalue) : result pyvalue := py_float x.

(** The [_convert_to_json] method of each class; the classes that do not
    override it return [x]. *)
Fixpoint _convert_to_json (self : HailType) (x : pyvalue) {struct self} : result pyvalue :=
  match self with
  | tfloat32 | tfloat64 => tfloat_convert_to_json x
  | tndarray _ _ => ndarray_to_json x
  | tarray e | tset e =>
      rbind (py_iter x) (fun elts =>
      rbind (rmapM (HailType_convert_to_json_na (_convert_to_json e)) elts) (fun js =>
      Ok (PyList js)))
  | tdict k v =>
      rbind (py_items x) (fun items =>
      rbind (rmapM (fun kv : pyvalue * pyvalue =>
                      rbind (_convert_to_json k kv.1) (fun jk =>
                      rbind (_convert_to_json v kv.2) (fun jv =>
                      Ok (PyDict [(PyStr "key", jk); (PyStr "value", jv)])))) items)
            (fun js => Ok (PyList js)))
  | tstruct fs =>
      rbind ((fix fields (fs : list (string * HailType)) : result (list (pyvalue * pyvalue)) :=
                match fs with
                | [] => Ok []
                | (f, t) :: fs' =>
                    rbind (py_getitem_str x f) (fun xf =>
                    rbind (HailType_convert_to_json_na (_convert_to_json t) xf) (fun j =>
                    rbind (fields fs') (fun js => Ok ((PyStr f, j) :: js))))
                end) fs)
            (fun items => Ok (PyDict items))
  | ttuple ts =>
      rbind ((fix elems (ts : list HailType) (i : Z) : result (list pyvalue) :=
                match ts with
                | [] => Ok []
                | t :: ts' =>
                    rbind (py_getitem_int x i) (fun xi =>
                    rbind (HailType_convert_to_json_na (_convert_to_json t) xi) (fun j =>
                    rbind (elems ts' (i + 1)%Z) (fun js => Ok (j :: js))))
                end) ts 0%Z)
            (fun js => Ok (PyList js))
  | tcall => Ok (PyStr (py_str x))
  | tlocus _ =>
      rbind (py_getattr x "contig") (fun c =>
      rbind (py_getattr x "position") (fun p =>
      Ok (PyDict [(PyStr "contig", c); (PyStr "position", p)])))
  | tinterval p =>
      rbind (py_getattr x "start") (fun a =>
      rbind (HailType_convert_to_json_na (_convert_to_json p) a) (fun ja =>
      rbind (py_getattr x "end") (fun b =>
      rbind (HailType_convert_to_json_na (_convert_to_json p) b) (fun jb =>
      rbind (py_getattr x "includes_start") (fun ia =>
      rbind (py_getattr x "includes_end") (fun ib =>
      Ok (PyDict [(PyStr "start", ja); (PyStr "end", jb);
                  (PyStr "includeStart", ia); (PyStr "includeEnd", ib)])))))))
  | _ => Ok x
  end.

(** The [_convert_from_json] method of each class; the classes that do
    not override it return [x]. *)
Fixpoint _convert_from_json (self : HailType) (x : pyvalue) {struct self} : result pyvalue :=
  match self with
  | tfloat32 | tfloat64 => tfloat_convert_from_json x
  | tndarray e _ => ndarray_from_json e x
  | tarray e =>
      rbind (py_iter x) (fun elts =>
      rbind (rmapM (HailType_convert_from_json_na (_convert_from_json e)) elts) (fun vs =>
      Ok (PyList vs)))
  | tset e =>
      rbind (py_iter x) (fun elts =>
      rbind ((fix build (elts : list pyvalue) (acc : list pyvalue) : result (list pyvalue) :=
                match elts with
                | [] => Ok acc
                | elt :: elts' =>
                    rbind (HailType_convert_from_json_na (_convert_from_json e) elt) (fun v =>
                    if hashable v then build elts' (set_add acc v) else Raise TypeError)
                end) elts [])
            (fun vs => Ok (PySet vs)))
  | tdict k v =>
      rbind (py_iter x) (fun elts =>
      rbind ((fix build (elts : list pyvalue) (acc : list (pyvalue * pyvalue))
                : result (list (pyvalue * pyvalue)) :=
                match elts with
                | [] => Ok acc
                | elt :: elts' =>
                    rbind (py_getitem_str elt "key") (fun jk =>
                    rbind (HailType_convert_from_json_na (_convert_from_json k) jk) (fun key =>
                    rbind (py_getitem_str elt "value") (fun jv =>
                    rbind (HailType_convert_from_json_na (_convert_from_json v) jv) (fun value =>
                    if hashable key then build elts' (dict_setitem acc key value)
                    else Raise TypeError))))
                end) elts [])
            (fun items => Ok (PyDict items)))
  | tstruct fs =>
      rbind ((fix fields (fs : list (string * HailType)) : result (list (string * pyvalue)) :=
                match fs with
                | [] => Ok []
                | (f, t) :: fs' =>
                    rbind (py_get x f) (fun xf =>
                    rbind (HailType_convert_from_json_na (_convert_from_json t) xf) (fun v =>
                    rbind (fields fs') (fun vs => Ok ((f, v) :: vs))))
                end) fs)
            (fun fields => Ok (PyStruct fields))
  | ttuple ts =>
      rbind ((fix elems (ts : list HailType) (i : Z) : result (list pyvalue) :=
                match ts with
                | [] => Ok []
                | t :: ts' =>
                    rbind (py_getitem_int x i) (fun xi =>
                    rbind (HailType_convert_from_json_na (_convert_from_json t) xi) (fun v =>
                    rbind (elems ts' (i + 1)%Z) (fun vs => Ok (v :: vs))))
                end) ts 0%Z)
            (fun vs => Ok (PyTuple vs))
  | tcall => Call_parse x
  | tlocus rg =>
      rbind (py_getitem_str x "contig") (fun c =>
      rbind (py_getitem_str x "position") (fun p => Locus_init c p rg))
  | tinterval p =>
      rbind (py_getitem_str x "start") (fun ja =>
      rbind (HailType_convert_from_json_na (_convert_from_json p) ja) (fun a =>
      rbind (py_getitem_str x "end") (fun jb =>
      rbind (HailType_convert_from_json_na (_convert_from_json p) jb) (fun b =>
      rbind (py_getitem_str x "includeStart") (fun ia =>
      rbind (py_getitem_str x "includeEnd") (fun ib => Interval_init a b ia ib))))))
  | _ => Ok x
  end.

(** [self._convert_to_json_na] and [self._convert_from_json_na] on a type
    node: what the codec calls encode and decode. *)
Definition _convert_to_json_na (self : HailType) (x : pyvalue) : result pyvalue :=
  HailType_convert_to_json_na (_convert_to_json self) x.

Definition _convert_from_json_na (self : HailType) (x : pyvalue) : result pyvalue :=
  HailType_convert_from_json_na (_convert_from_json self) x.
End Codec.

(** ** The display form: [__str__] *)

Definition is_space (c : ascii) : bool :=
  let n := nat_of_ascii c in
  (n =? 32)%nat || ((9 <=? n) && (n <=? 13))%nat.

Definition is_word (c : ascii) : bool :=
  let n := nat_of_ascii c in
  ((48 <=? n) && (n <=? 57))%nat || ((65 <=? n) && (n <=? 90))%nat
  || ((97 <=? n) && (n <=? 122))%nat || (n =? 95)%nat.

(** Modelled from the spec: the characters an identifier may only hold
    between backticks: "comma, colon, angle/curly/round brackets, backtick,
    backslash, whitespace". *)
Definition is_reserved (c : ascii) : bool :=
  existsb (Ascii.eqb c) [","; ":"; "<"; ">"; "{"; "}"; "("; ")"; "`"; "\"]%char
  || is_space c.

Fixpoint existsb_string (p : ascii -> bool) (s : string) : bool :=
  match s with
  | EmptyString => false
  | String c s' => p c || existsb_string p s'
  end.

Fixpoint forallb_string (p : ascii -> bool) (s : string) : bool :=
  match s with
  | EmptyString => true
  | String c s' => p c && forallb_string p s'
  end.

(** A backslash before every backtick and backslash. *)
Fixpoint escape_body (s : string) : string :=
  match s with
  | EmptyString => EmptyString
  | String c s' =>
      if (Ascii.eqb c "`" || Ascii.eqb c "\")%char
      then String "\" (String c (escape_body s'))
      else String c (escape_body s')
  end.

(** Modelled from the spec: [escape_parsable] of [hail.utils.java] is not
    part of the sources.  "Identifiers containing reserved characters MUST
    be escaped with backticks and backslash-escaping of embedded
    backticks/backslashes on output"; the others print as they are. *)
Definition escape_parsable (s : string) : string :=
  if existsb_string is_reserved s then "`" +:+ escape_body s +:+ "`" else s.

(** [str(n)] for an integer. *)
Definition str_of_Z (n : Z) : string := NilZero.string_of_int (Z.to_int n).

Definition cond_name (c : cond_tag) : string :=
  match c with
  | c_numeric => "numeric" | c_int32 => "int32" | c_int64 => "int64"
  | c_float32 => "float32" | c_float64 => "float64" | c_locus => "locus"
  | c_struct => "struct" | c_union => "union" | c_tuple => "tuple"
  end.

(** [', '.join(l)] *)
Definition join (sep : string) (l : list string) : string := String.concat sep l.

(** The [__str__] method of each class.  The property [tndarray.ndim]
    asserts that the rank is a [NatLiteral]. *)
Fixpoint __str__ (self : HailType) {struct self} : result string :=
  match self with
  | tvoid => Ok "void"
  | tint32 => Ok "int32"
  | tint64 => Ok "int64"
  | tfloat32 => Ok "float32"
  | tfloat64 => Ok "float64"
  | tstr => Ok "str"
  | tbool => Ok "bool"
  | tndarray e n =>
      match n with
      | NatLiteral k =>
          rbind (__str__ e) (fun se => Ok ("ndarray<" +:+ se +:+ ", " +:+ str_of_Z k +:+ ">"))
      | NatVariable _ => Raise AssertionError
      end
  | tarray e => rbind (__str__ e) (fun se => Ok ("array<" +:+ se +:+ ">"))
  | tset e => rbind (__str__ e) (fun se => Ok ("set<" +:+ se +:+ ">"))
  | tdict k v =>
      rbind (__str__ k) (fun sk =>
      rbind (__str__ v) (fun sv => Ok ("dict<" +:+ sk +:+ ", " +:+ sv +:+ ">")))
  | tstruct fs =>
      rbind (rmapM (fun ft : string * HailType =>
                      rbind (__str__ ft.2) (fun st =>
                      Ok (escape_parsable ft.1 +:+ ": " +:+ st))) fs)
            (fun l => Ok ("struct{" +:+ join ", " l +:+ "}"))
  | tunion fs =>
      rbind (rmapM (fun ft : string * HailType =>
                      rbind (__str__ ft.2) (fun st =>
                      Ok (escape_parsable ft.1 +:+ ": " +:+ st))) fs)
            (fun l => Ok ("union{" +:+ join ", " l +:+ "}"))
  | ttuple ts =>
      rbind (rmapM __str__ ts) (fun l => Ok ("tuple(" +:+ join ", " l +:+ ")"))
  | tcall => Ok "call"
  | tlocus rg => Ok ("locus<" +:+ escape_parsable rg +:+ ">")
  | tinterval p => rbind (__str__ p) (fun sp => Ok ("interval<" +:+ sp +:+ ">"))
  | tvariable name cond _ =>
      Ok ("?" +:+ name +:+ match cond with Some c => ":" +:+ cond_name c | None => "" end)
  end.

(** ** The grammar parser: [dtype] *)

(** Modelled from the spec: [type_grammar] and [type_node_visitor] of
    [hail.expr.type_parsing] are not part of the sources.  The parser below
    is the grammar of the spec, which the docstring of [dtype] repeats, read
    as the parsing expression grammar it is written as: a choice takes its
    first alternative that matches and never comes back to it, a repetition
    and a run of characters are greedy.  The prefixed spelling of a keyword
    is tried in the order of the docstring. *)
Inductive presult (A : Type) : Type :=
| Parsed (a : A) (rest : string)
| NoMatch
| OutOfFuel.
Arguments Parsed {A} a rest.
Arguments NoMatch {A}.
Arguments OutOfFuel {A}.

Definition pbind {A B} (m : presult A) (k : A -> string -> presult B) : presult B :=
  match m with
  | Parsed a r => k a r
  | NoMatch => NoMatch
  | OutOfFuel => OutOfFuel
  end.

(** Ordered choice. *)
Definition orelse {A} (a b : presult A) : presult A :=
  match a with
  | NoMatch => b
  | _ => a
  end.

(** A literal. *)
Fixpoint lit (k s : string) : presult unit :=
  match k, s with
  | EmptyString, _ => Parsed tt s
  | String a k', String b s' => if Ascii.eqb a b then lit k' s' else NoMatch
  | String _ _, EmptyString => NoMatch
  end.

(** The first literal of a list that matches. *)
Fixpoint kw (ks : list string) (s : string) : presult unit :=
  match ks with
  | [] => NoMatch
  | k :: ks' => orelse (lit k s) (kw ks' s)
  end.

(** [_]: optional whitespace. *)
Fixpoint ws (s : string) : string :=
  match s with
  | String c s' => if is_space c then ws s' else s
  | EmptyString => s
  end.

(** The longest run of characters that satisfy [p]. *)
Fixpoint span (p : ascii -> bool) (s : string) : string * string :=
  match s with
  | String c s' =>
      if p c then let '(a, r) := span p s' in (String c a, r) else (EmptyString, s)
  | EmptyString => (EmptyString, s)
  end.

(** [simple_identifier]: word characters, one or more. *)
Definition simple_identifier (s : string) : presult string :=
  match span is_word s with
  | (EmptyString, _) => NoMatch
  | (a, r) => Parsed a r
  end.

(** The inside of an escaped identifier up to the closing backtick, with
    the escapes undone. *)
Fixpoint escaped_body (s : string) : presult string :=
  match s with
  | EmptyString => NoMatch
  | String c s' =>
      if Ascii.eqb c "`" then Parsed EmptyString s'
      else if Ascii.eqb c "\" then
        match s' with
        | String d s'' => pbind (escaped_body s'') (fun a r => Parsed (String d a) r)
        | EmptyString => NoMatch
        end
      else pbind (escaped_body s') (fun a r => Parsed (String c a) r)
  end.

(** [escaped_identifier] *)
Definition escaped_identifier (s : string) : presult string :=
  pbind (lit "`" s) (fun _ r => escaped_body r).

(** [identifier := _ ( simple_identifier | escaped_identifier ) _] *)
Definition identifier (s : string) : presult string :=
  pbind (orelse (simple_identifier (ws s)) (escaped_identifier (ws s)))
        (fun a r => Parsed a (ws r)).

(** [p*], with one unit of fuel for each round. *)
Fixpoint many {A} (n : nat) (p : string -> presult A) (s : string) : presult (list A) :=
  match n with
  | O => OutOfFuel
  | S n' =>
      match p s with
      | Parsed a r => pbind (many n' p r) (fun l r' => Parsed (a :: l) r')
      | NoMatch => Parsed [] s
      | OutOfFuel => OutOfFuel
      end
  end.

(** [dict(fields)]: a name given twice keeps its first place and its last
    type. *)
Fixpoint fields_setitem (fs : list (string * HailType)) (f : string) (t : HailType)
  : list (string * HailType) :=
  match fs with
  | [] => [(f, t)]
  | (g, u) :: fs' =>
      if String.eqb g f then (g, t) :: fs' else (g, u) :: fields_setitem fs' f t
  end.

Definition dict_of_fields (fs : list (string * HailType)) : list (string * HailType) :=
  fold_left (fun d ft => fields_setitem d ft.1 ft.2) fs [].

(** Modelled from the spec: the rank of [ndarray<type, identifier>] is "a
    concrete natural number or unresolved"; a decimal numeral is read as
    the number, any other identifier as an unresolved rank of that name. *)
Definition rank_of_identifier (s : string) : NatBase :=
  match NilZero.uint_of_string s with
  | Some d => NatLiteral (Z.of_uint d)
  | None => NatVariable s
  end.

Module type_grammar.
Section Productions.
(** the parser of [type] one level down, and the fuel of repetitions *)
Variable type : string -> presult HailType.
Variable n : nat.

(** [kw _ open type close] *)
Definition one_type (ks : list string) (open close : string) (mk : HailType -> HailType)
    (s : string) : presult HailType :=
  pbind (kw ks s) (fun _ r =>
  pbind (lit open (ws r)) (fun _ r =>
  pbind (type r) (fun t r =>
  pbind (lit close r) (fun _ r => Parsed (mk t) r)))).

Definition array := one_type ["tarray"; "array"] "<" ">" tarray.
Definition set_ := one_type ["tset"; "set"] "<" ">" tset.
Definition interval := one_type ["tinterval"; "interval"] "<" ">" tinterval.

Definition dict (s : string) : presult HailType :=
  pbind (kw ["tdict"; "dict"] s) (fun _ r =>
  pbind (lit "<" (ws r)) (fun _ r =>
  pbind (type r) (fun k r =>
  pbind (lit "," r) (fun _ r =>
  pbind (type r) (fun v r =>
  pbind (lit ">" r) (fun _ r => Parsed (tdict k v) r)))))).

Definition ndarray (s : string) : presult HailType :=
  pbind (kw ["tndarray"; "ndarray"] s) (fun _ r =>
  pbind (lit "<" (ws r)) (fun _ r =>
  pbind (type r) (fun e r =>
  pbind (lit "," r) (fun _ r =>
  pbind (identifier r) (fun i r =>
  pbind (lit ">" r) (fun _ r => Parsed (tndarray e (rank_of_identifier i)) r)))))).

(** [field := identifier ":" type] *)
Definition field (s : string) : presult (string * HailType) :=
  pbind (identifier s) (fun f r =>
  pbind (lit ":" r) (fun _ r =>
  pbind (type r) (fun t r => Parsed (f, t) r))).

(** [fields := field ("," field)*] *)
Definition fields (s : string) : presult (list (string * HailType)) :=
  pbind (field s) (fun ft r =>
  pbind (many n (fun s => pbind (lit "," s) (fun _ r => field r)) r) (fun l r =>
  Parsed (ft :: l) r)).

(** [kw _ "{" (fields | _) "}"] *)
Definition record (ks : list string) (mk : list (string * HailType) -> HailType)
    (s : string) : presult HailType :=
  pbind (kw ks s) (fun _ r =>
  pbind (lit "{" (ws r)) (fun _ r =>
  pbind (orelse (fields r) (Parsed [] (ws r))) (fun fs r =>
  pbind (lit "}" r) (fun _ r => Parsed (mk (dict_of_fields fs)) r)))).

Definition struct := record ["tstruct"; "struct"] tstruct.
Definition union := record ["tunion"; "union"] tunion.

(** [tuple := kw _ "(" ( type ("," type)* | _ ) ")"] *)
Definition tuple (s : string) : presult HailType :=
  pbind (kw ["ttuple"; "tuple"] s) (fun _ r =>
  pbind (lit "(" (ws r)) (fun _ r =>
  pbind (orelse
           (pbind (type r) (fun t r =>
            pbind (many n (fun s => pbind (lit "," s) (fun _ r => type r)) r) (fun l r =>
            Parsed (t :: l) r)))
           (Parsed [] (ws r))) (fun ts r =>
  pbind (lit ")" r) (fun _ r => Parsed (ttuple ts) r)))).

(** [locus := kw _ "[" identifier "]"] *)
Definition locus (s : string) : presult HailType :=
  pbind (kw ["tlocus"; "locus"] s) (fun _ r =>
  pbind (lit "[" (ws r)) (fun _ r =>
  pbind (identifier r) (fun rg r =>
  pbind (lit "]" r) (fun _ r => Parsed (tlocus rg) r)))).

Definition atom (ks : list string) (t : HailType) (s : string) : presult HailType :=
  pbind (kw ks s) (fun _ r => Parsed t r).

(** The alternatives of [type], in the order of the grammar. *)
Definition type_alternatives (s : string) : presult HailType :=
  orelse (array s) (orelse (set_ s) (orelse (dict s) (orelse (ndarray s)
  (orelse (struct s) (orelse (union s) (orelse (tuple s) (orelse (interval s)
  (orelse (locus s)
  (orelse (atom ["int64"; "tint64"] tint64 s)
  (orelse (atom ["int32"; "tint32"; "int"; "tint"] tint32 s)
  (orelse (atom ["float32"; "tfloat32"] tfloat32 s)
  (orelse (atom ["float64"; "tfloat64"; "tfloat"; "float"] tfloat64 s)
  (orelse (atom ["tbool"; "bool"] tbool s)
  (orelse (atom ["tstr"; "str"] tstr s)
          (atom ["tcall"; "call"] tcall s))))))))))))))).
End Productions.
End type_grammar.

(** [type := _ ( ... ) _], with one unit of fuel for each level of
    nesting. *)
Fixpoint parse_type (n : nat) (s : string) : presult HailType :=
  match n with
  | O => OutOfFuel
  | S n' =>
      pbind (type_grammar.type_alternatives (parse_type n') n' (ws s)) (fun t r => Parsed t (ws r))
  end.

(** [dtype]: the whole of [type_str] must match.  Every level of nesting
    and every round of a repetition consumes a character, so that the
    length of the text is fuel enough (lemma [dtype_total] below): the
    last case is never met. *)
Definition dtype (type_str : string) : result HailType :=
  match parse_type (S (String.length type_str)) type_str with
  | Parsed t EmptyString => Ok t
  | Parsed _ _ | NoMatch => Raise ParseError
  | OutOfFuel => Raise RecursionError
  end.

(** ** The type nodes the display form of which the grammar reads back *)

(** A name [escape_parsable] prints as it is and the grammar reads as a
    [simple_identifier]. *)
Definition simple_name (f : string) : bool :=
  negb (String.eqb f "") && forallb_string is_word f.

(** A name the printed form of which is fixed: a simple identifier, or a
    name with a reserved character, which is printed between backticks. *)
Definition printable_name (f : string) : bool :=
  simple_name f || existsb_string is_reserved f.

(** The type nodes made of the sixteen productions of [type] but [locus],
    with a natural number for the rank of an n-dimensional array, and with
    pairwise distinct printable names in a struct and in a union. *)
Fixpoint parsable (t : HailType) : bool :=
  match t with
  | tint32 | tint64 | tfloat32 | tfloat64 | tstr | tbool | tcall => true
  | tarray e | tset e | tinterval e => parsable e
  | tdict k v => parsable k && parsable v
  | tndarray e (NatLiteral k) => parsable e && (0 <=? k)%Z
  | tndarray _ (NatVariable _) => false
  | tstruct fs | tunion fs =>
      bool_decide (NoDup (fs.*1))
      && forallb (fun ft : string * HailType => printable_name ft.1 && parsable ft.2) fs
  | ttuple ts => forallb parsable ts
  | tvoid | tlocus _ | tvariable _ _ _ => false
  end.

(** The number of type nodes and of fields of a type node: fuel enough to
    parse its display form. *)
Fixpoint size (t : HailType) : nat :=
  match t with
  | tndarray e _ | tarray e | tset e | tinterval e => S (size e)
  | tdict k v => S (size k + size v)
  | tstruct fs | tunion fs =>
      S (length fs + list_sum (map (fun ft : string * HailType => size ft.2) fs))
  | ttuple ts => S (S (length ts + list_sum (map size ts)))
  | _ => 1
  end.

(** What follows a type in a display form: nothing, or a closing bracket
    or a comma. *)
Definition closing (s : string) : bool :=
  match s with
  | EmptyString => true
  | String c _ => existsb (Ascii.eqb c) [">"; ","; "}"; ")"]%char
  end.

(** The display form of [t] exists, is longer than [size t], and is read
    back as [t] by [type] with fuel [size t], whatever closes it. *)
Definition reads_back (t : HailType) : Prop :=
  exists s, __str__ t = Ok s
            /\ size t < String.length s
            /\ forall n rest, size t <= n -> closing rest = true ->
                              parse_type n (s +:+ rest) = Parsed t rest.

(** A parser gives back no more than it was given. *)
Definition shrinks {A} (p : string -> presult A) : Prop :=
  forall s a r, p s = Parsed a r -> String.length r <= String.length s.

(** A stand-in for the collaborators, for closed computations in which
    none of them is called: every call raises. *)
Definition no_externals : Externals := {|
  np_nditer_items := fun _ => Raise ValueError;
  ndarray_to_json := fun _ => Raise ValueError;
  ndarray_from_json := fun _ _ => Raise ValueError;
  py_str := fun _ => "";
  Call_parse := fun _ => Raise ValueError;
  float_of_literal := fun _ => Raise ValueError;
  Locus_init := fun _ _ _ => Raise ValueError;
  Interval_init := fun _ _ _ _ => Raise ValueError
|}.

(** * Further operations of the module *)

(** ** Where a type node occurs *)

(** [p] holds at every type node of [t]. *)
Fixpoint every (p : HailType -> bool) (t : HailType) {struct t} : bool :=
  p t
  && match t with
     | tndarray e _ | tarray e | tset e | tinterval e => every p e
     | tdict k v => every p k && every p v
     | tstruct fs | tunion fs => forallb (fun ft : string * HailType => every p ft.2) fs
     | ttuple ts => forallb (every p) ts
     | _ => true
     end.

Definition is_tvariable (t : HailType) : bool :=
  match t with tvariable _ _ _ => true | _ => false end.

Definition is_tndarray (t : HailType) : bool :=
  match t with tndarray _ _ => true | _ => false end.

Definition is_tunion (t : HailType) : bool :=
  match t with tunion _ => true | _ => false end.

(** The names of a struct or of a union are pairwise distinct, as the keys
    of a [dict] are. *)
Definition distinct_names (t : HailType) : bool :=
  match t with
  | tstruct fs | tunion fs => bool_decide (NoDup (fs.*1))
  | _ => true
  end.

(** Every struct and union of [t] has pairwise distinct names. *)
Definition well_formed (t : HailType) : bool := every distinct_names t.

(** No type variable occurs in [t]. *)
Definition variable_free (t : HailType) : bool := every (fun u => negb (is_tvariable u)) t.

(** No n-dimensional array occurs in [t]. *)
Definition rank_free (t : HailType) : bool := every (fun u => negb (is_tndarray u)) t.

(** No union occurs in [t]. *)
Definition union_free (t : HailType) : bool := every (fun u => negb (is_tunion u)) t.

(** [u] occurs in [t]: it is [t], or occurs in a type parameter, a field
    type or an element type of [t]. *)
Inductive occurs (u : HailType) : HailType -> Prop :=
| occurs_here : occurs u u
| occurs_ndarray e n : occurs u e -> occurs u (tndarray e n)
| occurs_array e : occurs u e -> occurs u (tarray e)
| occurs_set e : occurs u e -> occurs u (tset e)
| occurs_interval e : occurs u e -> occurs u (tinterval e)
| occurs_dict_key k v : occurs u k -> occurs u (tdict k v)
| occurs_dict_value k v : occurs u v -> occurs u (tdict k v)
| occurs_struct fs f t : (f, t) ∈ fs -> occurs u t -> occurs u (tstruct fs)
| occurs_union fs f t : (f, t) ∈ fs -> occurs u t -> occurs u (tunion fs)
| occurs_tuple ts t : t ∈ ts -> occurs u t -> occurs u (ttuple ts).

(** ** Substitution *)

(** [Box.get] *)
Definition Box_get (b : loc) (σ : store) : result HailType :=
  match heap σ !! b with
  | Some (Some value) => Ok value
  | _ => Raise AssertionError
  end.

(** The rank of an n-dimensional array is substituted by a method of
    [hail.expr.nat], which is not part of the sources. *)
Class NatSubst : Type := {
  nat_subst : NatBase -> store -> result NatBase
}.

Section Subst.
Context `{NatSubst}.

(** The [subst] method of each class.  It reads the store and writes
    nothing. *)
Fixpoint subst (self : HailType) (σ : store) {struct self} : result HailType :=
  match self with
  | tndarray e n =>
      rbind (subst e σ) (fun e' =>
      rbind (nat_subst n σ) (fun n' => Ok (tndarray e' n')))
  | tarray e => rbind (subst e σ) (fun e' => Ok (tarray e'))
  | tset e => rbind (subst e σ) (fun e' => Ok (tset e'))
  | tdict k v =>
      rbind (subst k σ) (fun k' =>
      rbind (subst v σ) (fun v' => Ok (tdict k' v')))
  | tstruct fs =>
      rbind (rmapM (fun ft : string * HailType =>
                      rbind (subst ft.2 σ) (fun u => Ok (ft.1, u))) fs)
            (fun us => Ok (tstruct us))
  | tunion fs =>
      rbind (rmapM (fun ft : string * HailType =>
                      rbind (subst ft.2 σ) (fun u => Ok (ft.1, u))) fs)
            (fun us => Ok (tunion us))
  | ttuple ts => rbind (rmapM (fun t => subst t σ) ts) (fun us => Ok (ttuple us))
  | tinterval p => rbind (subst p σ) (fun p' => Ok (tinterval p'))
  | tvariable _ _ box => Box_get box σ
  | _ => Ok self
  end.
End Subst.

(** ** The context of a type: the reference genomes it names *)

(** [HailTypeContext.union] of some types, for their method
    [get_context]: the contexts that are not empty are collected in order; none
    gives the empty context, one gives that context, and several give the
    union of their references. *)
Definition HailTypeContext_union {A} (get_context : A -> result (gset string))
    (types : list A) : result (gset string) :=
  rbind (rmapM get_context types) (fun all =>
    let ctxs := List.filter (fun c : gset string => negb (bool_decide (c = ∅))) all in
    match ctxs with
    | [] => Ok ∅
    | [c] => Ok c
    | c :: cs => Ok (c ∪ ⋃ cs)
    end).

(** [get_context], with the [_get_context] method of each class; the
    value is computed once and kept.  [tvariable.__init__] does not call
    [HailType.__init__], so that a type variable has no attribute
    [_context]: reading it raises [AttributeError]. *)
Fixpoint get_context (self : HailType) {struct self} : result (gset string) :=
  match self with
  | tndarray e _ | tarray e | tset e | tinterval e => get_context e
  | tdict k v => HailTypeContext_union get_context [k; v]
  | tstruct fs | tunion fs =>
      HailTypeContext_union (fun ft : string * HailType => get_context ft.2) fs
  | ttuple ts => HailTypeContext_union get_context ts
  | tlocus rg => Ok {[ rg ]}
  | tvariable _ _ _ => Raise AttributeError
  | _ => Ok ∅
  end.

(** ** The registry of boxes *)

(** Every registered name has a box of the heap, and two names never
    share a box. *)
Definition store_wf (σ : store) : Prop :=
  (forall name b, named_boxes σ !! name = Some b -> b < length (heap σ))
  /\ (forall n1 n2 b,
        named_boxes σ !! n1 = Some b -> named_boxes σ !! n2 = Some b -> n1 = n2).

(** [σ'] has the registry and the boxes of [σ], and every value [σ] has
    bound. *)
Definition extends (σ σ' : store) : Prop :=
  named_boxes σ' = named_boxes σ
  /\ length (heap σ') = length (heap σ)
  /\ forall (l : loc) v, heap σ !! l = Some (Some v) -> heap σ' !! l = Some (Some v).

(** The boxes of the type variables of [t], in the order in which [unify],
    [subst] and [clear] come to them. *)
Fixpoint boxes (t : HailType) {struct t} : list loc :=
  match t with
  | tndarray e _ | tarray e | tset e | tinterval e => boxes e
  | tdict k v => boxes k ++ boxes v
  | tstruct fs | tunion fs => flat_map (fun ft : string * HailType => boxes ft.2) fs
  | ttuple ts => flat_map boxes ts
  | tvariable _ _ b => [b]
  | _ => []
  end.

(** Every box of [t] is an object of the store. *)
Definition allocated (t : HailType) (σ : store) : bool :=
  forallb (fun b => b <? length (heap σ))%nat (boxes t).

(** From [σ] to [σ'] the boxes of [L] have lost their value, and nothing
    else has changed. *)
Definition cleared (L : list loc) (σ σ' : store) : Prop :=
  named_boxes σ' = named_boxes σ
  /\ forall l : loc, heap σ' !! l =
               if bool_decide (l ∈ L) then (fun _ => None) <$> heap σ !! l
               else heap σ !! l.

(** Stand-ins for the methods of [hail.expr.nat], for closed computations
    on types without n-dimensional arrays, in which none of them is
    called. *)
Definition no_nat_ops : NatOps := {|
  nat_unify := fun _ _ => raise ValueError;
  nat_clear := fun _ σ => σ
|}.

Definition no_nat_subst : NatSubst := {|
  nat_subst := fun _ _ => Raise ValueError
|}.

(** ** Operations on the fields of a struct *)

(** [d.update(new)] on the items of a dict. *)
Definition fields_update (d new : list (string * HailType)) : list (string * HailType) :=
  fold_left (fun d ft => fields_setitem d ft.1 ft.2) new d.

(** [tstruct._insert_fields], on the fields of the struct; the keyword
    arguments are a dict. *)
Definition _insert_fields (self new_fields : list (string * HailType)) : HailType :=
  tstruct (fields_update (fields_update [] self) new_fields).

(** [tstruct._insert_field] *)
Definition _insert_field (self : list (string * HailType)) (field : string)
    (typ : HailType) : HailType :=
  _insert_fields self [(field, typ)].

(** [tstruct._concat], on the fields of the two structs. *)
Definition _concat (self other : list (string * HailType)) : HailType :=
  tstruct (fields_update (fields_update [] self) other).

(** [tstruct._insert].  [self.get(key)] is the field type or [None]; a
    struct without fields is false, and is replaced by [tstruct()] as
    whatever is no struct is. *)
Fixpoint _insert (self : list (string * HailType)) (path : list string) (t : HailType)
    {struct path} : HailType :=
  match path with
  | [] => t
  | key :: path' =>
      let keyt := match field_lookup key self with
                  | Some (tstruct gs) => gs
                  | _ => []
                  end in
      _insert_fields self [(key, _insert keyt path' t)]
  end.

(** [t[p]] for a type node and a name: [tstruct.__getitem__] and
    [tunion.__getitem__] look the name up; a tuple wants an integer, and
    the other classes have no [__getitem__]. *)
Definition HailType_getitem (t : HailType) (p : string) : result HailType :=
  match t with
  | tstruct fs | tunion fs =>
      match field_lookup p fs with Some u => Ok u | None => Raise KeyError end
  | _ => Raise TypeError
  end.

(** [tstruct._index_path], for a path of names. *)
Fixpoint _index_path (self : HailType) (path : list string) {struct path}
  : result HailType :=
  match path with
  | [] => Ok self
  | p :: path' => rbind (HailType_getitem self p) (fun t => _index_path t path')
  end.

(** [tstruct._drop_fields], for a collection of names. *)
Definition _drop_fields (self : list (string * HailType)) (fields : list string)
  : HailType :=
  tstruct (dict_of_fields
             (List.filter (fun ft : string * HailType =>
                             negb (existsb (String.eqb ft.1) fields)) self)).

(** [tstruct._select_fields], for a sequence of names. *)
Definition _select_fields (self : list (string * HailType)) (fields : list string)
  : result HailType :=
  rbind (rmapM (fun f => match field_lookup f self with
                         | Some t => Ok (f, t)
                         | None => Raise KeyError
                         end) fields)
        (fun items => Ok (tstruct (dict_of_fields items))).

(** The loop of [tstruct._rename], from the dicts [seen] and
    [new_field_types]. *)
Fixpoint _rename_loop (map : gmap string string) (items : list (string * HailType))
    (seen : gmap string string) (new_field_types : list (string * HailType))
    {struct items} : result (list (string * HailType)) :=
  match items with
  | [] => Ok new_field_types
  | (f0, t) :: items' =>
      let f := default f0 (map !! f0) in
      match seen !! f with
      | Some _ => Raise ValueError
      | None =>
          _rename_loop map items' (<[f := f0]> seen) (fields_setitem new_field_types f t)
      end
  end.

(** [tstruct._rename], for a dict from names to names. *)
Definition _rename (self : list (string * HailType)) (map : gmap string string)
  : result HailType :=
  rbind (_rename_loop map self ∅ []) (fun d => Ok (tstruct d)).

(** What [_rename] calls a field. *)
Definition renamed (map : gmap string string) (ft : string * HailType)
  : string * HailType :=
  (default ft.1 (map !! ft.1), ft.2).

(** [tstruct._is_prefix_of] *)
Definition _is_prefix_of (self : list (string * HailType)) (other : HailType) : bool :=
  match other with
  | tstruct gs =>
      (length self <=? length gs)%nat && all2 hail_eqb (self.*2) (gs.*2)
  | _ => false
  end.

(** ** Values of the shape of a type *)

(** [v] is a value of the shape of [t]: an integer of the width, a float,
    a string, a truth value or null at the scalar types; a list, a set and a
    dict of values of the shape of the element types; a tuple of as many
    values as the tuple type has elements, each of the shape of its
    element type; and a [Struct] of the fields of the struct type, in their
    order, each of the shape of its field type. *)
Fixpoint shaped (t : HailType) (v : pyvalue) {struct t} : bool :=
  match t, v with
  | (tint32 | tint64 | tfloat32 | tfloat64 | tstr | tbool), PyNone => true
  | tint32, PyInt n => (- (1 ≪ 31) <=? n)%Z && (n <=? (1 ≪ 31) - 1)%Z
  | tint64, PyInt n => (- (1 ≪ 63) <=? n)%Z && (n <=? (1 ≪ 63) - 1)%Z
  | (tfloat32 | tfloat64), PyFloat _ => true
  | tstr, PyStr _ => true
  | tbool, PyBool _ => true
  | tarray e, PyList l => forallb (shaped e) l
  | tset e, PySet l => forallb (shaped e) l
  | tdict k e, PyDict items =>
      forallb (fun kv : pyvalue * pyvalue => shaped k kv.1 && shaped e kv.2) items
  | ttuple ts, PyTuple l => (length l =? length ts)%nat && all2 shaped ts l
  | tstruct fs, PyStruct vs =>
      bool_decide (NoDup (fs.*1)) && bool_decide (vs.*1 = fs.*1)
      && all2 (fun (ft : string * HailType) (fv : string * pyvalue) =>
                 shaped ft.2 fv.2) fs vs
  | _, _ => false
  end.

(** No set and no dict occurs in [t]. *)
Definition sequence_type (t : HailType) : bool :=
  every (fun u => match u with tset _ | tdict _ _ => false | _ => true end) t.

(** ** Pretty printing and summaries *)

(** The newline character, as a string. *)
Definition nl : string := String (ascii_of_nat 10) "".

(** [' ' * n]: no character when [n] is negative. *)
Definition spaces (n : Z) : string :=
  string_of_list_ascii (repeat " "%char (Z.to_nat n)).

(** The [_pretty] method of each class: what it appends to the list [l].
    The classes that do not override it append [str(self)]. *)
Fixpoint _pretty (self : HailType) (indent increment : Z) {struct self} : result string :=
  match self with
  | tndarray e n =>
      rbind (_pretty e indent increment) (fun se =>
        match n with
        | NatLiteral k => Ok ("ndarray<" +:+ se +:+ ", " +:+ str_of_Z k +:+ ">")
        | NatVariable _ => Raise AssertionError
        end)
  | tarray e => rbind (_pretty e indent increment) (fun se => Ok ("array<" +:+ se +:+ ">"))
  | tset e => rbind (_pretty e indent increment) (fun se => Ok ("set<" +:+ se +:+ ">"))
  | tdict k v =>
      rbind (_pretty k indent increment) (fun sk =>
      rbind (_pretty v indent increment) (fun sv =>
      Ok ("dict<" +:+ sk +:+ ", " +:+ sv +:+ ">")))
  | tstruct fs =>
      match fs with
      | [] => Ok "struct {}"
      | _ =>
          rbind (rmapM (fun ft : string * HailType =>
                          rbind (_pretty ft.2 (indent + increment) increment) (fun st =>
                          Ok (nl +:+ spaces (indent + increment)
                              +:+ escape_parsable ft.1 +:+ ": " +:+ st))) fs)
                (fun l => Ok ("struct {" +:+ join ", " l +:+ nl +:+ spaces indent +:+ "}"))
      end
  | tunion fs =>
      match fs with
      | [] => Ok "union {}"
      | _ =>
          rbind (rmapM (fun ft : string * HailType =>
                          rbind (_pretty ft.2 (indent + increment) increment) (fun st =>
                          Ok (nl +:+ spaces (indent + increment)
                              +:+ escape_parsable ft.1 +:+ ": " +:+ st))) fs)
                (fun l => Ok ("union {" +:+ join ", " l +:+ nl +:+ spaces indent +:+ "}"))
      end
  | ttuple ts =>
      rbind (rmapM (fun t =>
                      rbind (_pretty t (indent + increment) increment) (fun st =>
                      Ok (nl +:+ spaces (indent + increment) +:+ st))) ts)
            (fun l => Ok ("tuple (" +:+ join ", " l +:+ nl +:+ spaces indent +:+ ")"))
  | tlocus rg => Ok ("locus<" +:+ escape_parsable rg +:+ ">")
  | tinterval p =>
      rbind (_pretty p indent increment) (fun sp => Ok ("interval<" +:+ sp +:+ ">"))
  | _ => __str__ self
  end.

(** [HailType.pretty] *)
Definition pretty (self : HailType) (indent increment : Z) : result string :=
  rbind (_pretty self indent increment) (fun s => Ok (spaces indent +:+ s)).

(** [summary_type] *)
Fixpoint summary_type (t : HailType) {struct t} : result string :=
  match t with
  | tdict k v =>
      rbind (summary_type k) (fun sk =>
      rbind (summary_type v) (fun sv => Ok ("dict<" +:+ sk +:+ ", " +:+ sv +:+ ">")))
  | tset e => rbind (summary_type e) (fun se => Ok ("set<" +:+ se +:+ ">"))
  | tarray e => rbind (summary_type e) (fun se => Ok ("array<" +:+ se +:+ ">"))
  | tstruct fs =>
      Ok ("struct with " +:+ str_of_Z (Z.of_nat (length fs)) +:+ " fields")
  | ttuple ts =>
      Ok ("tuple with " +:+ str_of_Z (Z.of_nat (length ts)) +:+ " fields")
  | tinterval p => rbind (summary_type p) (fun sp => Ok ("interval<" +:+ sp +:+ ">"))
  | _ => __str__ t
  end.

(** No struct, union or tuple occurs in [t]. *)
Definition flat (t : HailType) : bool :=
  every (fun u => match u with tstruct _ | tunion _ | ttuple _ => false | _ => true end) t.

(** * Properties *)

(** [NoDup] of a list of string literals. *)
Ltac solve_NoDup :=
  repeat (apply NoDup_cons; split;
          [rewrite list_elem_of_In; simpl; intuition discriminate|]);
  apply NoDup_nil_2.

(** ** Equality *)

Lemma field_lookup_NoDup (gs : list (string * HailType)) i g u :
  NoDup (gs.*1) -> gs !! i = Some (g, u) -> field_lookup g gs = Some u.
Proof.
  revert i. induction gs as [|[g' u'] gs IH]; intros i Hnd Hi; [done|].
  apply NoDup_cons in Hnd as [Hnotin Hnd]. destruct i as [|i]; simpl in *.
  - injection Hi as -> ->. by rewrite String.eqb_refl.
  - destruct (String.eqb_spec g g') as [->|_]; [|by eapply IH].
    exfalso. apply Hnotin. apply list_elem_of_fmap.
    exists (g', u). split; [done|]. by eapply list_elem_of_lookup_2.
Qed.

(** What the [_eq] of a struct or of a union computes. *)
Lemma fields_eq_spec (fs gs : list (string * HailType)) :
  NoDup (fs.*1) ->
  bool_decide (fs.*1 = gs.*1)
  && forallb (fun ft : string * HailType =>
                match field_lookup ft.1 gs with
                | Some u => hail_eqb ft.2 u
                | None => false
                end) fs = true
  <-> fs.*1 = gs.*1 /\ Forall2 (fun t u => hail_eqb t u = true) (fs.*2) (gs.*2).
Proof.
  intros Hnd. rewrite andb_true_iff, bool_decide_eq_true, forallb_forall.
  split; intros [Hnames Hall]; (split; [done|]).
  - apply Forall2_same_length_lookup. split.
    { rewrite !length_fmap. by rewrite <- (length_fmap fst fs), Hnames, length_fmap. }
    intros i t u Ht Hu.
    rewrite list_lookup_fmap in Ht, Hu.
    destruct (fs !! i) as [[f t']|] eqn:Hf; [|done].
    destruct (gs !! i) as [[g u']|] eqn:Hg; [|done].
    simpl in *. injection Ht as ->. injection Hu as ->.
    assert (f = g) as ->.
    { assert (fs.*1 !! i = gs.*1 !! i) as Hi by (by rewrite Hnames).
      rewrite !list_lookup_fmap, Hf, Hg in Hi. by injection Hi. }
    specialize (Hall (g, t)). simpl in Hall.
    rewrite (field_lookup_NoDup gs i g u) in Hall; [|by rewrite <- Hnames|done].
    apply Hall. apply list_elem_of_In. by eapply list_elem_of_lookup_2.
  - intros [f t] Hin. simpl.
    apply list_elem_of_In, list_elem_of_lookup in Hin as [i Hf].
    assert (fs.*2 !! i = Some t) as Ht by (by rewrite list_lookup_fmap, Hf).
    destruct (Forall2_lookup_l _ _ _ _ _ Hall Ht) as (u & Hu & Heq).
    rewrite list_lookup_fmap in Hu.
    destruct (gs !! i) as [[g u']|] eqn:Hg; [|done]. simpl in Hu. injection Hu as ->.
    assert (f = g) as ->.
    { assert (fs.*1 !! i = gs.*1 !! i) as Hi by (by rewrite Hnames).
      rewrite !list_lookup_fmap, Hf, Hg in Hi. by injection Hi. }
    rewrite (field_lookup_NoDup gs i g u); [done|by rewrite <- Hnames|done].
Qed.

(** C5: two structs, and two unions, are equal exactly when their field
    names are the same sequence and their field types are equal position by
    position; [struct{a: int32, b: str}] and [struct{b: str, a: int32}]
    are not equal although every name has the same type in both. *)
Theorem struct_union_eq_order_sensitive (fs gs : list (string * HailType)) :
  wf_fields fs ->
  (hail_eqb (tstruct fs) (tstruct gs) = true
   <-> fs.*1 = gs.*1 /\ Forall2 (fun t u => hail_eqb t u = true) (fs.*2) (gs.*2))
  /\ (hail_eqb (tunion fs) (tunion gs) = true
      <-> fs.*1 = gs.*1 /\ Forall2 (fun t u => hail_eqb t u = true) (fs.*2) (gs.*2))
  /\ hail_eqb (tstruct [("a", tint32); ("b", tstr)])
              (tstruct [("b", tstr); ("a", tint32)]) = false
  /\ hail_eqb (tunion [("a", tint32); ("b", tstr)])
              (tunion [("b", tstr); ("a", tint32)]) = false
  /\ (forall f, field_lookup f [("a", tint32); ("b", tstr)]
                = field_lookup f [("b", tstr); ("a", tint32)]).
Proof.
  intros Hwf. split; [|split; [|split; [|split]]].
  - simpl. by apply fields_eq_spec.
  - simpl. by apply fields_eq_spec.
  - reflexivity.
  - reflexivity.
  - intros f. simpl.
    destruct (String.eqb_spec f "a") as [->|_]; [reflexivity|].
    by destruct (String.eqb f "b").
Qed.

Lemma struct_union_eq_order_sensitive_witness :
  wf_fields [("a", tint32); ("b", tarray tstr)]
  /\ hail_eqb (tstruct [("a", tint32); ("b", tarray tstr)])
              (tstruct [("a", tint32); ("b", tarray tstr)]) = true.
Proof.
  assert (wf_fields [("a", tint32); ("b", tarray tstr)]) as Hwf.
  { unfold wf_fields. simpl. solve_NoDup. }
  split; [exact Hwf|].
  apply (proj1 (struct_union_eq_order_sensitive _ [("a", tint32); ("b", tarray tstr)] Hwf)).
  split; [reflexivity|]. simpl. repeat constructor.
Defined.

(** C9: the equality of two n-dimensional array types is the equality of
    their element types, whatever the two ranks: [ndarray<int32, 1>] and
    [ndarray<int32, 2>] are equal and are not the same type node. *)
Theorem tndarray_eq_ignores_rank :
  (forall e e' n n', hail_eqb (tndarray e n) (tndarray e' n') = hail_eqb e e')
  /\ hail_eqb (tndarray tint32 (NatLiteral 1)) (tndarray tint32 (NatLiteral 2)) = true
  /\ tndarray tint32 (NatLiteral 1) <> tndarray tint32 (NatLiteral 2).
Proof. split; [reflexivity|]. split; [reflexivity|]. discriminate. Qed.

(** ** Binding cells and type variables *)

(** [Box.from_name] finds the box a name is registered with and changes
    nothing. *)
Lemma Box_from_name_registered name b σ :
  named_boxes σ !! name = Some b -> Box_from_name name σ = (Ok b, σ).
Proof. intros Hb. unfold Box_from_name. by rewrite Hb. Qed.

(** [Box.from_name] always returns a box, and the name is registered with
    it afterwards. *)
Lemma Box_from_name_total name σ :
  exists b σ', Box_from_name name σ = (Ok b, σ') /\ named_boxes σ' !! name = Some b.
Proof.
  unfold Box_from_name. destruct (named_boxes σ !! name) as [b|] eqn:Hb.
  - by exists b, σ.
  - eexists _, _. split; [reflexivity|]. simpl. apply lookup_insert_eq.
Qed.

(** The constructor of a type variable always returns. *)
Lemma tvariable_init_total name cond σ :
  exists b σ', tvariable_init name cond σ = (Ok (tvariable name cond b), σ')
               /\ named_boxes σ' !! name = Some b.
Proof.
  destruct (Box_from_name_total name σ) as (b & σ' & Hb & Hreg).
  exists b, σ'. split; [|done]. unfold tvariable_init, bind. by rewrite Hb.
Qed.

(** C2, as the code has it: the constraint is checked first, in both
    states.  On an unbound cell a rejected candidate returns [False] and
    binds nothing, an accepted one is bound and returns [True]; on a bound
    cell the call returns [True] exactly when the constraint accepts the
    candidate and the bound value equals it, and the binding stays.  The
    variable [?x:numeric] is bound by [int32], then refuses [str]; after
    [clear()] it refuses [str] again and is bound by [int64]. *)
Theorem tvariable_unify_two_states cond box c σ cell :
  heap σ !! box = Some cell ->
  tvariable_unify cond box c σ =
    match cell with
    | None =>
        if cond_rejects cond c then (Ok false, σ)
        else (Ok true, Store (named_boxes σ) (<[box := Some c]> (heap σ)))
    | Some b => (Ok (negb (cond_rejects cond c) && hail_eqb b c), σ)
    end
  /\ (cell = None -> cond_rejects cond c = false ->
      heap (tvariable_unify cond box c σ).2 !! box = Some (Some c))
  /\ (let '(x, σ1) := tvariable_init "x" (Some c_numeric) empty_store in
      let '(r1, σ2) := tvariable_unify (Some c_numeric) 0 tint32 σ1 in
      let '(r2, σ3) := tvariable_unify (Some c_numeric) 0 tstr σ2 in
      let σ4 := tvariable_clear 0 σ3 in
      let '(r3, σ5) := tvariable_unify (Some c_numeric) 0 tstr σ4 in
      let '(r4, σ6) := tvariable_unify (Some c_numeric) 0 tint64 σ5 in
      x = Ok (tvariable "x" (Some c_numeric) 0)
      /\ heap σ1 !! 0 = Some None
      /\ r1 = Ok true /\ heap σ2 !! 0 = Some (Some tint32)
      /\ r2 = Ok false /\ σ3 = σ2
      /\ heap σ4 !! 0 = Some None
      /\ r3 = Ok false /\ σ5 = σ4
      /\ r4 = Ok true /\ heap σ6 !! 0 = Some (Some tint64)).
Proof.
  intros Hcell. split; [|split].
  - unfold tvariable_unify, Box_unify, ret.
    destruct (cond_rejects cond c); simpl; [by destruct cell|].
    rewrite Hcell. by destruct cell.
  - intros -> Hacc. unfold tvariable_unify, Box_unify. rewrite Hacc. simpl.
    rewrite Hcell. simpl.
    apply list_lookup_insert_eq. by eapply lookup_lt_Some.
  - vm_compute. repeat split.
Qed.

Lemma tvariable_unify_two_states_witness :
  heap (Store {["x" := 0]} [Some tint32]) !! 0 = Some (Some tint32)
  /\ tvariable_unify (Some c_numeric) 0 tint64 (Store {["x" := 0]} [Some tint32])
     = (Ok false, Store {["x" := 0]} [Some tint32]).
Proof.
  split; [reflexivity|].
  exact (proj1 (tvariable_unify_two_states (Some c_numeric) 0 tint64
                  (Store {["x" := 0]} [Some tint32]) (Some tint32) eq_refl)).
Defined.

(** C2, as the claim has it, fails: a variable [?v:struct] whose cell holds
    [locus<GRCh37>], bound through the unconstrained variable of the same
    name, returns [False] against the very type its cell holds. *)
Lemma tvariable_unify_bound_equal_rejected :
  let '(_, σ1) := tvariable_init "v" None empty_store in
  let '(r, σ2) := tvariable_unify None 0 (tlocus "GRCh37") σ1 in
  let '(v, σ3) := tvariable_init "v" (Some c_struct) σ2 in
  r = Ok true
  /\ v = Ok (tvariable "v" (Some c_struct) 0)
  /\ heap σ3 !! 0 = Some (Some (tlocus "GRCh37"))
  /\ hail_eqb (tlocus "GRCh37") (tlocus "GRCh37") = true
  /\ tvariable_unify (Some c_struct) 0 (tlocus "GRCh37") σ3 = (Ok false, σ3).
Proof. vm_compute. repeat split. Qed.

(** C8, as the code has it: the second variable of a name is given the box
    of the first.  Once the first has bound the cell to [t], the second
    returns [True] against a candidate exactly when its own constraint
    accepts the candidate and [t] equals it, so [False] against every type
    not equal to [t]; and clearing the one box unbinds both variables. *)
Theorem shared_binding_cell name c1 c2 σ0 σ1 b σ t :
  tvariable_init name c1 σ0 = (Ok (tvariable name c1 b), σ1) ->
  named_boxes σ !! name = named_boxes σ1 !! name ->
  heap σ !! b = Some None ->
  cond_rejects c1 t = false ->
  tvariable_init name c2 σ = (Ok (tvariable name c2 b), σ)
  /\ (tvariable_unify c1 b t σ).1 = Ok true
  /\ let σ' := (tvariable_unify c1 b t σ).2 in
     heap σ' !! b = Some (Some t)
     /\ (forall c, tvariable_unify c2 b c σ'
                   = (Ok (negb (cond_rejects c2 c) && hail_eqb t c), σ'))
     /\ (forall c, hail_eqb t c = false -> tvariable_unify c2 b c σ' = (Ok false, σ'))
     /\ (cond_rejects c2 t = false -> hail_eqb t t = true ->
         tvariable_unify c2 b t σ' = (Ok true, σ'))
     /\ Box_bound b σ' = true
     /\ Box_bound b (tvariable_clear b σ') = false.
Proof.
  intros Hinit Hreg Hcell Hacc.
  assert (named_boxes σ1 !! name = Some b) as Hb.
  { destruct (tvariable_init_total name c1 σ0) as (b' & σ' & Hi & Hr).
    rewrite Hinit in Hi. by injection Hi as -> ->. }
  rewrite Hb in Hreg.
  destruct (tvariable_unify_two_states c1 b t σ None Hcell) as (Hu & Hbound & _).
  rewrite Hacc in Hu. specialize (Hbound eq_refl Hacc).
  split; [|split].
  - unfold tvariable_init, bind. by rewrite (Box_from_name_registered _ _ _ Hreg).
  - by rewrite Hu.
  - cbv zeta. set (σ' := (tvariable_unify c1 b t σ).2) in *.
    assert (forall c, tvariable_unify c2 b c σ'
                      = (Ok (negb (cond_rejects c2 c) && hail_eqb t c), σ')) as Hsecond.
    { intros c. apply (tvariable_unify_two_states c2 b c σ' (Some t) Hbound). }
    split; [done|]. split; [done|]. split; [|split; [|split]].
    + intros c Hne. rewrite Hsecond, Hne. by rewrite andb_false_r.
    + intros Hacc2 Hrefl. by rewrite Hsecond, Hacc2, Hrefl.
    + unfold Box_bound. by rewrite Hbound.
    + unfold tvariable_clear, Box_clear, Box_bound. rewrite Hbound. simpl.
      rewrite list_lookup_insert_eq; [done|]. by eapply lookup_lt_Some.
Qed.

Lemma shared_binding_cell_witness :
  tvariable_init "x" None (Store {["x" := 0]} [None])
  = (Ok (tvariable "x" None 0), Store {["x" := 0]} [None])
  /\ tvariable_unify (Some c_numeric) 0 tstr
       (tvariable_unify None 0 tint32 (Store {["x" := 0]} [None])).2
     = (Ok false, (tvariable_unify None 0 tint32 (Store {["x" := 0]} [None])).2).
Proof.
  pose proof (shared_binding_cell "x" None (Some c_numeric)
                (Store {["x" := 0]} [None]) (Store {["x" := 0]} [None]) 0
                (Store {["x" := 0]} [None]) tint32
                eq_refl eq_refl eq_refl eq_refl) as (H1 & _ & _ & _ & H2 & _).
  split; [reflexivity|]. exact (H2 tstr eq_refl).
Defined.

(** C8, as the claim has it, fails: the first variable [?x] binds the cell
    to [str]; the second, [?x:numeric], shares the cell and returns [False]
    against [str]. *)
Lemma second_variable_rejects_bound_type :
  let '(v1, σ1) := tvariable_init "x" None empty_store in
  let '(r1, σ2) := tvariable_unify None 0 tstr σ1 in
  let '(v2, σ3) := tvariable_init "x" (Some c_numeric) σ2 in
  v1 = Ok (tvariable "x" None 0)
  /\ v2 = Ok (tvariable "x" (Some c_numeric) 0)
  /\ r1 = Ok true
  /\ heap σ3 !! 0 = Some (Some tstr)
  /\ tvariable_unify (Some c_numeric) 0 tstr σ3 = (Ok false, σ3).
Proof. vm_compute. repeat split. Qed.

(** ** Unification of structs and unions *)

Section UnifyProperties.
Context `{NatOps}.

(** [tstruct.unify] on two structs of one field each. *)
Lemma tstruct_unify_one f1 t1 f2 t2 σ :
  unify (tstruct [(f1, t1)]) (tstruct [(f2, t2)]) σ =
    if String.eqb f1 f2 then
      match unify t1 t2 σ with
      | (Ok ok, σ') => (Ok ok, σ')
      | (Raise e, σ') => (Raise e, σ')
      end
    else (Ok false, σ).
Proof.
  simpl. unfold bind, ret. destruct (String.eqb f1 f2); [|done].
  destruct (unify t1 t2 σ) as [[[]|e] σ']; done.
Qed.

Lemma fields_unify_length fs gs σ σ' :
  fields_unify fs gs σ σ' -> length fs = length gs.
Proof. induction 1; simpl; congruence. Qed.

Lemma unify_zip_fields fs gs σ σ' :
  length fs = length gs ->
  unify_zip (fun ft1 ft2 : string * HailType =>
               if String.eqb ft1.1 ft2.1 then unify ft1.2 ft2.2 else ret false)
            fs gs σ = (Ok true, σ')
  <-> fields_unify fs gs σ σ'.
Proof.
  revert gs σ. induction fs as [|[f1 t1] fs IH]; intros [|[f2 t2] gs] σ Hlen;
    simpl in Hlen; try lia.
  { split; [intros [= <-]; constructor|by inversion 1]. }
  cbn [unify_zip]. unfold bind. cbn [fst snd].
  destruct (String.eqb_spec f1 f2) as [->|Hne].
  - destruct (unify t1 t2 σ) as [[[|]|e] σ1] eqn:Hu; cbn [negb].
    + rewrite IH by lia. split; [intros Hfs; by econstructor|].
      inversion 1 as [|? ? ? ? ? ? σ1' ? Hu' Hfs]; subst.
      rewrite Hu in Hu'. by injection Hu' as <-.
    + split; [discriminate|].
      inversion 1 as [|? ? ? ? ? ? σ1' ? Hu' Hfs]; subst. congruence.
    + split; [discriminate|].
      inversion 1 as [|? ? ? ? ? ? σ1' ? Hu' Hfs]; subst. congruence.
  - split; [discriminate|]. inversion 1; congruence.
Qed.

(** [tstruct.unify] returns [True] exactly against a struct of as many
    fields, the same names position by position, whose field types unify
    in order; against a type node of another class and against a struct of
    another number of fields it returns [False]. *)
Lemma tstruct_unify_positional fs t σ σ' :
  unify (tstruct fs) t σ = (Ok true, σ')
  <-> exists gs, t = tstruct gs /\ fields_unify fs gs σ σ'.
Proof.
  split.
  - destruct t; try discriminate. simpl.
    destruct (Nat.eqb_spec (length fs) (length field_types)) as [Hlen|]; [|discriminate].
    simpl. intros Hu. eexists. split; [done|]. by apply unify_zip_fields.
  - intros (gs & -> & Hfs). simpl.
    pose proof (fields_unify_length _ _ _ _ Hfs) as Hlen.
    rewrite Hlen, Nat.eqb_refl. simpl. by apply unify_zip_fields.
Qed.

Lemma tstruct_unify_mismatch fs t σ :
  (forall gs, t = tstruct gs -> length fs <> length gs) ->
  unify (tstruct fs) t σ = (Ok false, σ).
Proof.
  intros Ht. destruct t; try done. simpl.
  destruct (Nat.eqb_spec (length fs) (length field_types)) as [Hlen|]; [|done].
  by destruct (Ht _ eq_refl).
Qed.

(** C7: [tunion.unify] raises [NameError] on every candidate, where the
    claim has it return a truth value: [True] against a union of the same
    cases, which [tstruct.unify] returns on the same fields, and [False]
    against one whose case names differ. *)
Theorem tunion_unify_raises_NameError :
  (forall cs t σ, unify (tunion cs) t σ = (Raise NameError, σ))
  /\ (forall σ, unify (tunion [("a", tint32); ("b", tstr)])
                      (tunion [("a", tint32); ("b", tstr)]) σ = (Raise NameError, σ))
  /\ (forall σ, unify (tstruct [("a", tint32); ("b", tstr)])
                      (tstruct [("a", tint32); ("b", tstr)]) σ = (Ok true, σ))
  /\ (forall σ, unify (tunion [("a", tint32); ("b", tstr)])
                      (tunion [("b", tstr); ("a", tint32)]) σ = (Raise NameError, σ))
  /\ (forall σ, unify (tstruct [("a", tint32); ("b", tstr)])
                      (tstruct [("b", tstr); ("a", tint32)]) σ = (Ok false, σ)).
Proof. repeat split. Qed.
End UnifyProperties.

(** ** The JSON codec *)

Section CodecProperties.
Context `{Externals}.

(** C3: at every type node the null value encodes to null and decodes to
    null, whatever the conversion methods of the class are, and the round
    trip of null is null. *)
Theorem null_passes_through (t : HailType) :
  _convert_to_json_na t PyNone = Ok PyNone
  /\ _convert_from_json_na t PyNone = Ok PyNone
  /\ (forall conv, HailType_convert_to_json_na conv PyNone = Ok PyNone)
  /\ (forall conv, HailType_convert_from_json_na conv PyNone = Ok PyNone)
  /\ rbind (_convert_to_json_na t PyNone) (_convert_from_json_na t) = Ok PyNone.
Proof. repeat split. Qed.

Lemma float_roundtrip (v : spec_float) :
  tfloat_convert_to_json (PyFloat v) = Ok (float_json v)
  /\ tfloat_convert_from_json (float_json v) = Ok (PyFloat v).
Proof. destruct v as [s|[]| |s m e]; split; reflexivity. Qed.

(** C4: at [float32] and at [float64] a finite float encodes to itself, a
    JSON number, and a float that is not finite to the string Python
    spells it with, ["nan"], ["inf"] or ["-inf"]; decoding what was
    encoded gives the float back, NaN included. *)
Theorem float_json_roundtrip (v : spec_float) :
  let roundtrip t :=
    _convert_to_json_na t (PyFloat v) = Ok (float_json v)
    /\ _convert_from_json_na t (float_json v) = Ok (PyFloat v)
    /\ rbind (_convert_to_json_na t (PyFloat v)) (_convert_from_json_na t)
       = Ok (PyFloat v) in
  roundtrip tfloat32 /\ roundtrip tfloat64
  /\ (float_isfinite v = true -> float_json v = PyFloat v)
  /\ (float_isfinite v = false ->
      exists s, float_json v = PyStr s /\ In s ["nan"; "inf"; "-inf"])
  /\ float_json S754_nan = PyStr "nan"
  /\ float_json (S754_infinity false) = PyStr "inf"
  /\ float_json (S754_infinity true) = PyStr "-inf".
Proof.
  destruct (float_roundtrip v) as [Henc Hdec].
  assert (forall t, t = tfloat32 \/ t = tfloat64 ->
            _convert_to_json_na t (PyFloat v) = Ok (float_json v)
            /\ _convert_from_json_na t (float_json v) = Ok (PyFloat v)
            /\ rbind (_convert_to_json_na t (PyFloat v)) (_convert_from_json_na t)
               = Ok (PyFloat v)) as Hrt.
  { intros t Ht.
    assert (_convert_to_json_na t (PyFloat v) = Ok (float_json v)) as He
      by (destruct Ht as [-> | ->]; exact Henc).
    assert (_convert_from_json_na t (float_json v) = Ok (PyFloat v)) as Hd.
    { unfold _convert_from_json_na, HailType_convert_from_json_na.
      replace (is_None (float_json v)) with false
        by (unfold float_json; by destruct (float_isfinite v)).
      destruct Ht as [-> | ->]; exact Hdec. }
    split; [done|]. split; [done|]. by rewrite He. }
  cbv zeta. split; [apply Hrt; by left|]. split; [apply Hrt; by right|].
  split; [intros Hfin; unfold float_json; by rewrite Hfin|].
  split; [|repeat split].
  intros Hfin. unfold float_json. rewrite Hfin. eexists. split; [reflexivity|].
  destruct v as [s|[]| |s m e]; simpl in *; try discriminate; tauto.
Qed.

(** C6: [tdict._convert_to_json] converts the keys and the values with
    [_convert_to_json], not with [_convert_to_json_na] as the other
    containers do.  The dict [{1: None}] conforms to [dict<int32, float64>]
    and its encoding raises [TypeError], where the claim has
    [[{"key": 1, "value": null}]], which decodes to the dict; the same null
    in an array encodes to null.  The dict [{1: "a", 2: "b"}] of the claim
    encodes and decodes as the claim says. *)
Theorem tdict_to_json_null_value :
  _convert_to_json_na (tdict tint32 tfloat64) (PyDict [(PyInt 1, PyNone)]) = Raise TypeError
  /\ _convert_from_json_na (tdict tint32 tfloat64)
       (PyList [PyDict [(PyStr "key", PyInt 1); (PyStr "value", PyNone)]])
     = Ok (PyDict [(PyInt 1, PyNone)])
  /\ _convert_to_json_na (tarray tfloat64) (PyList [PyNone]) = Ok (PyList [PyNone])
  /\ typecheck (tdict tint32 tfloat64) (PyDict [(PyInt 1, PyNone)]) = Ok tt
  /\ _convert_to_json_na (tdict tint32 tstr)
       (PyDict [(PyInt 1, PyStr "a"); (PyInt 2, PyStr "b")])
     = Ok (PyList [PyDict [(PyStr "key", PyInt 1); (PyStr "value", PyStr "a")];
                   PyDict [(PyStr "key", PyInt 2); (PyStr "value", PyStr "b")]])
  /\ rbind (_convert_to_json_na (tdict tint32 tstr)
              (PyDict [(PyInt 1, PyStr "a"); (PyInt 2, PyStr "b")]))
           (_convert_from_json_na (tdict tint32 tstr))
     = Ok (PyDict [(PyInt 1, PyStr "a"); (PyInt 2, PyStr "b")]).
Proof. repeat split. Qed.
End CodecProperties.

Lemma float_json_roundtrip_witness :
  float_isfinite S754_nan = false
  /\ exists s, float_json S754_nan = PyStr s /\ In s ["nan"; "inf"; "-inf"].
Proof.
  split; [reflexivity|].
  exact (proj1 (proj2 (proj2 (proj2 (float_json_roundtrip (H := no_externals) S754_nan)))) eq_refl).
Defined.


(** ** The value conformance checker *)

(** A false value that can be iterated has no members. *)
Lemma falsy_iter v l : truthy v = false -> py_iter v = Ok l -> l = [].
Proof.
  destruct v as [| | | |s|l'|l'|l'|items|fs| | |]; simpl; try discriminate.
  - destruct s; [|discriminate]. by intros _ [= <-].
  - destruct l'; [|discriminate]. by intros _ [= <-].
  - destruct l'; [|discriminate]. by intros _ [= <-].
  - destruct l'; [|discriminate]. by intros _ [= <-].
  - destruct items; [|discriminate]. by intros _ [= <-].
  - destruct fs; [|discriminate]. by intros _ [= <-].
Qed.

Lemma falsy_items v l : truthy v = false -> py_items v = Ok l -> l = [].
Proof.
  destruct v as [| | | |s|l'|l'|l'|items|fs| | |]; simpl; try discriminate.
  - destruct items; [|discriminate]. by intros _ [= <-].
  - destruct fs; [|discriminate]. by intros _ [= <-].
Qed.

Section TypecheckProperties.
Context `{Externals}.

(** C10, as the code has it: the one-level check of [str], of a struct and
    of a tuple raises nothing on a value that is false, null or not.  At
    [str] the whole check then succeeds.  At a tuple it succeeds when the
    value can be iterated, as [""] can, and at a struct when the value has
    [items()]; the traversal raises otherwise: [typecheck(struct, [])]
    passes the one-level check and raises [AttributeError]. *)
Theorem falsy_values_skip_one_level_check (v : pyvalue) :
  truthy v = false ->
  _typecheck_one_level tstr v = Ok tt
  /\ (forall fs, _typecheck_one_level (tstruct fs) v = Ok tt)
  /\ (forall ts, _typecheck_one_level (ttuple ts) v = Ok tt)
  /\ typecheck tstr v = Ok tt
  /\ (forall ts, typecheck (ttuple ts) v = rbind (py_iter v) (fun _ => Ok tt))
  /\ (forall fs, typecheck (tstruct fs) v = rbind (py_items v) (fun _ => Ok tt))
  /\ typecheck tstr (PyInt 0) = Ok tt
  /\ (forall ts, typecheck (ttuple ts) (PyStr "") = Ok tt)
  /\ (forall fs, _typecheck_one_level (tstruct fs) (PyList []) = Ok tt
                 /\ typecheck (tstruct fs) (PyList []) = Raise AttributeError).
Proof.
  intros Hv.
  assert (_typecheck_one_level tstr v = Ok tt) as Hstr by (simpl; by rewrite Hv).
  assert (forall fs, _typecheck_one_level (tstruct fs) v = Ok tt) as Hstruct
    by (intros fs; simpl; by rewrite Hv).
  assert (forall ts, _typecheck_one_level (ttuple ts) v = Ok tt) as Htuple
    by (intros ts; simpl; by rewrite Hv).
  repeat split; try done.
  - unfold typecheck. simpl. unfold check. by rewrite Hstr.
  - intros ts. unfold typecheck. cbn [_traverse]. unfold check at 1.
    rewrite Htuple. simpl. destruct (py_iter v) as [l|e] eqn:Hl; [|done].
    rewrite (falsy_iter v l Hv Hl). by destruct ts.
  - intros fs. unfold typecheck. cbn [_traverse]. unfold check at 1.
    rewrite Hstruct. simpl. destruct (py_items v) as [l|e] eqn:Hl; [|done].
    by rewrite (falsy_items v l Hv Hl).
  - intros ts. by destruct ts.
Qed.
End TypecheckProperties.

Lemma falsy_values_skip_one_level_check_witness :
  truthy (PyInt 0) = false
  /\ typecheck (H := no_externals) (ttuple [tint32]) (PyInt 0) = Raise TypeError.
Proof.
  split; [reflexivity|].
  exact (proj1 (proj2 (proj2 (proj2 (proj2
           (falsy_values_skip_one_level_check (H := no_externals) (PyInt 0) eq_refl)))))
           [tint32]).
Defined.

(** C10, as the claim has it, fails: the empty list is false and is not
    null, and [typecheck] of a struct type on it raises [AttributeError],
    the list having no [items()]. *)
Lemma typecheck_struct_empty_list_raises :
  truthy (PyList []) = false
  /\ is_None (PyList []) = false
  /\ typecheck (H := no_externals) (tstruct [("a", tint32)]) (PyList [])
     = Raise AttributeError.
Proof. repeat split. Qed.

(** ** The display form and the grammar *)

#[local] Arguments String.append !_ _ / : simpl nomatch.

Lemma append_assoc (a b c : string) : (a +:+ b) +:+ c = a +:+ (b +:+ c).
Proof. induction a as [|x a IH]; simpl; [done|]. by f_equal. Qed.

Lemma append_nil_r (a : string) : a +:+ "" = a.
Proof. induction a as [|x a IH]; simpl; [done|]. by f_equal. Qed.

Lemma length_append (a b : string) :
  String.length (a +:+ b) = String.length a + String.length b.
Proof. induction a as [|x a IH]; simpl; [done|]. by f_equal. Qed.

Lemma closing_ws r : closing r = true -> ws r = r.
Proof.
  destruct r as [|c r]; [done|]. simpl. intros Hc.
  destruct (is_space c) eqn:Hs; [|done].
  repeat (apply orb_prop in Hc as [Hc|Hc]; [apply Ascii.eqb_eq in Hc as ->; discriminate|]).
  discriminate.
Qed.

Lemma closing_not_word c r : closing (String c r) = true -> is_word c = false.
Proof.
  simpl. intros Hc.
  repeat (apply orb_prop in Hc as [Hc|Hc]; [by apply Ascii.eqb_eq in Hc as ->|]).
  discriminate.
Qed.

(** A type is not followed by the rest of a longer keyword. *)
Lemma closing_lit_letter c k r :
  closing r = true -> is_word c = true -> lit (String c k) r = NoMatch.
Proof.
  intros Hr Hc. destruct r as [|d r]; [done|]. simpl.
  destruct (Ascii.eqb_spec c d) as [->|]; [|done].
  by rewrite (closing_not_word _ _ Hr) in Hc.
Qed.

Lemma lit_append k r : lit k (k +:+ r) = Parsed tt r.
Proof.
  induction k as [|c k IH]; simpl; [by destruct r|]. by rewrite Ascii.eqb_refl.
Qed.

Lemma span_word f c r :
  forallb_string is_word f = true -> is_word c = false ->
  span is_word (f +:+ String c r) = (f, String c r).
Proof.
  intros Hf Hc. induction f as [|x f IH]; simpl in *; [by rewrite Hc|].
  apply andb_prop in Hf as [-> Hf]. by rewrite (IH Hf).
Qed.

Lemma word_not_space c : is_word c = true -> is_space c = false.
Proof. by destruct c as [[] [] [] [] [] [] [] []]. Qed.

(** A simple name followed by a character that is neither a word
    character nor a space is read as it is. *)
Lemma identifier_simple f c r :
  simple_name f = true -> is_word c = false -> is_space c = false ->
  identifier (f +:+ String c r) = Parsed f (String c r).
Proof.
  unfold simple_name. intros [Hne Hf]%andb_prop Hc Hs.
  destruct f as [|x f]; [discriminate|].
  unfold identifier. replace (ws (String x f +:+ String c r))
    with (String x f +:+ String c r).
  2:{ simpl in *. apply andb_prop in Hf as [Hx _]. by rewrite (word_not_space _ Hx). }
  unfold simple_identifier. rewrite (span_word _ _ _ Hf Hc).
  simpl. by rewrite Hs.
Qed.

Lemma escaped_body_escape f r :
  escaped_body (escape_body f +:+ String "`" r) = Parsed f r.
Proof.
  induction f as [|x f IH]; simpl; [done|].
  destruct (Ascii.eqb_spec x "`") as [->|Hbt]; simpl.
  { by rewrite IH. }
  destruct (Ascii.eqb_spec x "\") as [->|Hbs]; simpl.
  { by rewrite IH. }
  destruct (Ascii.eqb_spec x "`") as [|_]; [done|].
  destruct (Ascii.eqb_spec x "\") as [|_]; [done|].
  by rewrite IH.
Qed.

(** A name between backticks is read back with its escapes undone. *)
Lemma identifier_escaped f c r :
  is_space c = false ->
  identifier ("`" +:+ escape_body f +:+ "`" +:+ String c r) = Parsed f (String c r).
Proof.
  intros Hs. unfold identifier. simpl.
  unfold escaped_identifier. simpl.
  change (escape_body f +:+ String "`" (String c r))
    with (escape_body f +:+ String "`" (String c r)).
  rewrite escaped_body_escape. simpl. by rewrite Hs.
Qed.

(** What [escape_parsable] prints of a printable name is read back as the
    name. *)
Lemma identifier_escape_parsable f c r :
  printable_name f = true -> is_word c = false -> is_space c = false ->
  identifier (escape_parsable f +:+ String c r) = Parsed f (String c r).
Proof.
  intros Hf Hc Hs. unfold escape_parsable.
  destruct (existsb_string is_reserved f) eqn:Hres.
  - rewrite !append_assoc. by apply identifier_escaped.
  - unfold printable_name in Hf. rewrite Hres, orb_false_r in Hf.
    by apply identifier_simple.
Qed.

Lemma identifier_space s : identifier (String " " s) = identifier s.
Proof. reflexivity. Qed.

Lemma parse_type_space n s : parse_type n (String " " s) = parse_type n s.
Proof. by destruct n. Qed.

(** *** The productions, for any parser of the level below *)

Section Alternatives.
Variable ty : string -> presult HailType.
Variable n : nat.

Lemma alt_int32 r : type_grammar.type_alternatives ty n ("int32" +:+ r) = Parsed tint32 r.
Proof. reflexivity. Qed.

Lemma alt_int64 r : type_grammar.type_alternatives ty n ("int64" +:+ r) = Parsed tint64 r.
Proof. reflexivity. Qed.

Lemma alt_float32 r :
  type_grammar.type_alternatives ty n ("float32" +:+ r) = Parsed tfloat32 r.
Proof. reflexivity. Qed.

Lemma alt_float64 r :
  type_grammar.type_alternatives ty n ("float64" +:+ r) = Parsed tfloat64 r.
Proof. reflexivity. Qed.

Lemma alt_bool r : type_grammar.type_alternatives ty n ("bool" +:+ r) = Parsed tbool r.
Proof. reflexivity. Qed.

Lemma alt_call r : type_grammar.type_alternatives ty n ("call" +:+ r) = Parsed tcall r.
Proof. reflexivity. Qed.

(** [str] is a prefix of [struct]: what follows decides. *)
Lemma alt_str r :
  closing r = true -> type_grammar.type_alternatives ty n ("str" +:+ r) = Parsed tstr r.
Proof.
  intros Hr. destruct r as [|c r]; [reflexivity|]. simpl in Hr.
  repeat (apply orb_prop in Hr as [Hr|Hr];
          [apply Ascii.eqb_eq in Hr as ->; reflexivity|]).
  discriminate.
Qed.

Lemma alt_array s e r :
  ty s = Parsed e (">" +:+ r) ->
  type_grammar.type_alternatives ty n ("array<" +:+ s) = Parsed (tarray e) r.
Proof.
  intros He. unfold type_grammar.type_alternatives, type_grammar.array,
    type_grammar.one_type. simpl. by rewrite He.
Qed.

Lemma alt_set s e r :
  ty s = Parsed e (">" +:+ r) ->
  type_grammar.type_alternatives ty n ("set<" +:+ s) = Parsed (tset e) r.
Proof.
  intros He. unfold type_grammar.type_alternatives, type_grammar.array,
    type_grammar.set_, type_grammar.one_type. simpl. by rewrite He.
Qed.

Lemma alt_interval s e r :
  ty s = Parsed e (">" +:+ r) ->
  type_grammar.type_alternatives ty n ("interval<" +:+ s) = Parsed (tinterval e) r.
Proof.
  intros He. unfold type_grammar.type_alternatives, type_grammar.array,
    type_grammar.set_, type_grammar.interval, type_grammar.one_type.
  simpl. by rewrite He.
Qed.

Lemma alt_dict s k s' v r :
  ty s = Parsed k ("," +:+ s') ->
  ty s' = Parsed v (">" +:+ r) ->
  type_grammar.type_alternatives ty n ("dict<" +:+ s) = Parsed (tdict k v) r.
Proof.
  intros Hk Hv. unfold type_grammar.type_alternatives, type_grammar.array,
    type_grammar.set_, type_grammar.dict, type_grammar.one_type.
  simpl. rewrite Hk. simpl. by rewrite Hv.
Qed.

Lemma alt_ndarray s e s' i r :
  ty s = Parsed e ("," +:+ s') ->
  identifier s' = Parsed i (">" +:+ r) ->
  type_grammar.type_alternatives ty n ("ndarray<" +:+ s)
  = Parsed (tndarray e (rank_of_identifier i)) r.
Proof.
  intros He Hi. unfold type_grammar.type_alternatives, type_grammar.array,
    type_grammar.set_, type_grammar.dict, type_grammar.ndarray, type_grammar.one_type.
  simpl. rewrite He. simpl. by rewrite Hi.
Qed.

Lemma alt_struct s fs r :
  type_grammar.fields ty n s = Parsed fs ("}" +:+ r) ->
  type_grammar.type_alternatives ty n ("struct{" +:+ s)
  = Parsed (tstruct (dict_of_fields fs)) r.
Proof.
  intros Hfs. unfold type_grammar.type_alternatives, type_grammar.array,
    type_grammar.set_, type_grammar.dict, type_grammar.ndarray, type_grammar.struct,
    type_grammar.record, type_grammar.one_type.
  simpl. by rewrite Hfs.
Qed.

Lemma alt_struct_empty r :
  type_grammar.type_alternatives ty n ("struct{}" +:+ r) = Parsed (tstruct []) r.
Proof. reflexivity. Qed.

Lemma alt_union s fs r :
  type_grammar.fields ty n s = Parsed fs ("}" +:+ r) ->
  type_grammar.type_alternatives ty n ("union{" +:+ s)
  = Parsed (tunion (dict_of_fields fs)) r.
Proof.
  intros Hfs. unfold type_grammar.type_alternatives, type_grammar.array,
    type_grammar.set_, type_grammar.dict, type_grammar.ndarray, type_grammar.struct,
    type_grammar.union, type_grammar.record, type_grammar.one_type.
  simpl. by rewrite Hfs.
Qed.

Lemma alt_union_empty r :
  type_grammar.type_alternatives ty n ("union{}" +:+ r) = Parsed (tunion []) r.
Proof. reflexivity. Qed.

Lemma alt_tuple s t s' ts r :
  ty s = Parsed t s' ->
  many n (fun s => pbind (lit "," s) (fun _ r => ty r)) s' = Parsed ts (")" +:+ r) ->
  type_grammar.type_alternatives ty n ("tuple(" +:+ s) = Parsed (ttuple (t :: ts)) r.
Proof.
  intros Ht Hts. unfold type_grammar.type_alternatives, type_grammar.array,
    type_grammar.set_, type_grammar.dict, type_grammar.ndarray, type_grammar.struct,
    type_grammar.union, type_grammar.tuple, type_grammar.record, type_grammar.one_type.
  simpl. rewrite Ht. simpl. simpl in Hts. by rewrite Hts.
Qed.

Lemma alt_tuple_empty r :
  ty (")" +:+ r) = NoMatch ->
  type_grammar.type_alternatives ty n ("tuple()" +:+ r) = Parsed (ttuple []) r.
Proof.
  intros Ht. unfold type_grammar.type_alternatives, type_grammar.array,
    type_grammar.set_, type_grammar.dict, type_grammar.ndarray, type_grammar.struct,
    type_grammar.union, type_grammar.tuple, type_grammar.record, type_grammar.one_type.
  simpl. simpl in Ht. by rewrite Ht.
Qed.

(** A field, where its name is read back and its type is. *)
Lemma field_reads s f s' t r :
  identifier s = Parsed f (":" +:+ s') ->
  ty s' = Parsed t r ->
  type_grammar.field ty s = Parsed (f, t) r.
Proof. intros Hf Ht. unfold type_grammar.field. rewrite Hf. simpl. by rewrite Ht. Qed.
End Alternatives.

(** No type starts with a closing bracket. *)
Lemma parse_type_closing_paren n r : parse_type (S n) (")" +:+ r) = NoMatch.
Proof. reflexivity. Qed.

(** *** Lists of fields and of types *)

Lemma fields_setitem_fresh d f t :
  f ∉ d.*1 -> fields_setitem d f t = d ++ [(f, t)].
Proof.
  induction d as [|[g u] d IH]; simpl; intros Hf; [done|].
  apply not_elem_of_cons in Hf as [Hne Hf].
  destruct (String.eqb_spec g f) as [->|_]; [done|]. by rewrite IH.
Qed.

Lemma fold_fields_setitem acc fs :
  NoDup ((acc ++ fs).*1) ->
  fold_left (fun d ft => fields_setitem d ft.1 ft.2) fs acc = acc ++ fs.
Proof.
  revert acc. induction fs as [|[f t] fs IH]; intros acc Hnd; simpl.
  { by rewrite app_nil_r. }
  rewrite fields_setitem_fresh.
  - rewrite IH; rewrite <- app_assoc; done.
  - rewrite fmap_app in Hnd. apply NoDup_app in Hnd as (_ & Hdisj & _).
    intros Hin. apply (Hdisj f Hin). simpl. by left.
Qed.

(** [dict(fields)] of pairwise distinct names keeps the fields. *)
Lemma dict_of_fields_NoDup fs : NoDup (fs.*1) -> dict_of_fields fs = fs.
Proof. intros Hnd. unfold dict_of_fields. by rewrite fold_fields_setitem. Qed.

Lemma join_cons sep s l :
  join sep (s :: l) = s +:+ fold_right String.append "" (map (String.append sep) l).
Proof.
  revert s. induction l as [|x l IH]; intros s.
  { simpl. by rewrite append_nil_r. }
  change (join sep (s :: x :: l)) with (s +:+ sep +:+ join sep (x :: l)).
  rewrite IH. simpl. by rewrite append_assoc.
Qed.

Lemma length_join sep l :
  list_sum (map String.length l) <= String.length (join sep l).
Proof.
  destruct l as [|s l]; [done|]. rewrite join_cons, length_append. simpl.
  apply Nat.add_le_mono_l.
  induction l as [|x l IH]; simpl; [done|].
  rewrite !length_append. lia.
Qed.

Lemma list_sum_Forall2 {A B} (g : A -> nat) (h : B -> nat) xs ys :
  Forall2 (fun x y => g x <= h y) xs ys ->
  list_sum (map g xs) <= list_sum (map h ys).
Proof. induction 1; simpl; lia. Qed.

Lemma list_sum_S {A} (g : A -> nat) xs :
  list_sum (map (fun x => S (g x)) xs) = length xs + list_sum (map g xs).
Proof. induction xs; simpl; lia. Qed.

Lemma list_sum_elem {A} (g : A -> nat) xs x :
  x ∈ xs -> g x <= list_sum (map g xs).
Proof. induction 1; simpl; lia. Qed.

Lemma Forall2_impl_elem {A B} (P Q : A -> B -> Prop) xs ys :
  Forall2 P xs ys -> (forall x y, x ∈ xs -> P x y -> Q x y) -> Forall2 Q xs ys.
Proof.
  induction 1 as [|x y xs ys HP _ IH]; intros HPQ; constructor.
  - apply HPQ; [by left|done].
  - apply IH. intros x' y' Hin. apply HPQ. by right.
Qed.

Lemma rmapM_Forall2 {A B} (f : A -> result B) (P : A -> B -> Prop) l :
  Forall (fun a => exists b, f a = Ok b /\ P a b) l ->
  exists bs, rmapM f l = Ok bs /\ Forall2 P l bs.
Proof.
  induction 1 as [|a l (b & Hb & HP) _ (bs & Hbs & HPs)]; simpl.
  { by exists []. }
  exists (b :: bs). rewrite Hb, Hbs. split; [done|]. by constructor.
Qed.

(** A repetition reads the items one after the other and stops where the
    next round does not match. *)
Lemma many_all {A} (q : string -> presult A) xs ss m rest :
  Forall2 (fun x s => forall r, closing r = true -> q (s +:+ r) = Parsed x r) xs ss ->
  Forall (fun s => forall r, closing (s +:+ r) = true) ss ->
  length xs < m -> closing rest = true -> q rest = NoMatch ->
  many m q (fold_right String.append "" ss +:+ rest) = Parsed xs rest.
Proof.
  intros Hall. revert m. induction Hall as [|x s xs ss Hx _ IH]; intros m Hcl Hm Hrest Hq.
  { destruct m; [simpl in Hm; lia|]. simpl. by rewrite Hq. }
  destruct m as [|m]; [simpl in Hm; lia|].
  apply Forall_cons in Hcl as [_ Hcl].
  cbn [fold_right many]. rewrite append_assoc, Hx.
  - simpl. rewrite IH; [done|done|simpl in Hm; lia|done|done].
  - destruct Hcl as [|s' ss' Hs' _]; [done|]. cbn [fold_right].
    rewrite append_assoc. apply Hs'.
Qed.

Lemma field_space ty s : type_grammar.field ty (String " " s) = type_grammar.field ty s.
Proof. reflexivity. Qed.

(** A printed field is read back, where its printed type is. *)
Lemma field_printed n f t st R :
  printable_name f = true ->
  parse_type n (st +:+ R) = Parsed t R ->
  type_grammar.field (parse_type n) ((escape_parsable f +:+ ": " +:+ st) +:+ R)
  = Parsed (f, t) R.
Proof.
  intros Hf Ht. rewrite !append_assoc.
  apply (field_reads _ _ f (" " +:+ st +:+ R)).
  - by apply (identifier_escape_parsable f ":" (" " +:+ st +:+ R)).
  - change (parse_type n (String " " (st +:+ R)) = Parsed t R).
    by rewrite parse_type_space.
Qed.

Lemma closing_tail (l : list string) (c : ascii) r :
  closing (String c r) = true ->
  closing (fold_right String.append "" (map (String.append ", ") l) +:+ String c r) = true.
Proof. intros Hc. by destruct l. Qed.

Lemma Forall_closing_tail (l : list string) :
  Forall (fun s => forall r, closing (s +:+ r) = true) (map (String.append ", ") l).
Proof. apply Forall_fmap, Forall_forall. by intros s _ r. Qed.

(** The printed fields of a struct or of a union are read back. *)
Lemma fields_printed n fs l r :
  Forall2 (fun ft s => forall R, closing R = true ->
             type_grammar.field (parse_type n) (s +:+ R) = Parsed ft R) fs l ->
  fs <> [] -> length fs <= n ->
  type_grammar.fields (parse_type n) n (join ", " l +:+ "}" +:+ r)
  = Parsed fs ("}" +:+ r).
Proof.
  intros Hall Hne Hn. destruct Hall as [|ft s fs l Hft Hall]; [done|].
  rewrite join_cons, append_assoc. unfold type_grammar.fields.
  rewrite Hft by (by apply closing_tail). cbn [pbind].
  rewrite (many_all _ fs (map (String.append ", ") l)); [done| | | | |].
  - apply Forall2_fmap_r. eapply Forall2_impl; [exact Hall|].
    intros ft' s' Hs R HR.
    change (type_grammar.field (parse_type n) (String " " (s' +:+ R)) = Parsed ft' R).
    rewrite field_space. by apply Hs.
  - apply Forall_closing_tail.
  - simpl in Hn. lia.
  - reflexivity.
  - reflexivity.
Qed.

(** The printed types of a tuple are read back. *)
Lemma types_printed n t ts l r :
  Forall2 (fun t s => forall R, closing R = true ->
             parse_type n (s +:+ R) = Parsed t R) (t :: ts) l ->
  length (t :: ts) <= n ->
  exists s', parse_type n (join ", " l +:+ ")" +:+ r) = Parsed t s'
             /\ many n (fun s => pbind (lit "," s) (fun _ r => parse_type n r)) s'
                = Parsed ts (")" +:+ r).
Proof.
  intros Hall Hn. inversion Hall as [|? s ? l' Ht Hall' ]; subst.
  rewrite join_cons, append_assoc. eexists. split.
  { apply Ht. by apply closing_tail. }
  apply (many_all _ ts (map (String.append ", ") l')).
  - apply Forall2_fmap_r. eapply Forall2_impl; [exact Hall'|].
    intros t' s' Hs R HR.
    change (parse_type n (String " " (s' +:+ R)) = Parsed t' R).
    rewrite parse_type_space. by apply Hs.
  - apply Forall_closing_tail.
  - simpl in Hn. lia.
  - reflexivity.
  - reflexivity.
Qed.

(** *** Ranks *)

Lemma uint_digits d : forallb_string is_word (NilEmpty.string_of_uint d) = true.
Proof. induction d; simpl; done. Qed.

(** The decimal numeral of a natural number is a simple identifier, and is
    read as that number. *)
Lemma str_of_Z_rank k :
  (0 <= k)%Z ->
  simple_name (str_of_Z k) = true /\ rank_of_identifier (str_of_Z k) = NatLiteral k.
Proof.
  intros Hk. destruct k as [|p|p]; [by split| |lia].
  unfold str_of_Z. cbn [Z.to_int NilZero.string_of_int].
  pose proof (DecimalPos.Unsigned.to_uint_nonnil p) as Hnil.
  pose proof (DecimalPos.Unsigned.of_to p) as Hof.
  set (d := Pos.to_uint p) in *. split.
  - unfold simple_name. apply andb_true_intro. split.
    + destruct d; try done.
    + replace (NilZero.string_of_uint d) with (NilEmpty.string_of_uint d)
        by (by destruct d). apply uint_digits.
  - unfold rank_of_identifier. rewrite (NilZero.usu d Hnil).
    unfold Z.of_uint. by rewrite Hof.
Qed.

(** *** The round trip *)

Lemma parse_type_alt n s t r :
  ws s = s ->
  type_grammar.type_alternatives (parse_type n) n s = Parsed t r ->
  closing r = true ->
  parse_type (S n) s = Parsed t r.
Proof.
  intros Hws Halt Hr. cbn [parse_type]. rewrite Hws, Halt. cbn [pbind].
  by rewrite closing_ws.
Qed.

Lemma record_reads_back (fs : list (string * HailType)) :
  Forall (fun ft => parsable ft.2 = true -> reads_back ft.2) fs ->
  forallb (fun ft : string * HailType => printable_name ft.1 && parsable ft.2) fs = true ->
  exists l,
    rmapM (fun ft : string * HailType =>
             rbind (__str__ ft.2) (fun st => Ok (escape_parsable ft.1 +:+ ": " +:+ st))) fs
    = Ok l
    /\ length fs + list_sum (map (fun ft : string * HailType => size ft.2) fs)
       <= String.length (join ", " l)
    /\ (fs = [] -> l = [])
    /\ forall n r,
         length fs + list_sum (map (fun ft : string * HailType => size ft.2) fs) <= n ->
         fs <> [] ->
         type_grammar.fields (parse_type n) n (join ", " l +:+ "}" +:+ r)
         = Parsed fs ("}" +:+ r).
Proof.
  intros IH Hall. rewrite forallb_forall in Hall.
  destruct (rmapM_Forall2
              (fun ft : string * HailType =>
                 rbind (__str__ ft.2) (fun st => Ok (escape_parsable ft.1 +:+ ": " +:+ st)))
              (fun ft s =>
                 S (size ft.2) <= String.length s
                 /\ forall n R, size ft.2 <= n -> closing R = true ->
                      type_grammar.field (parse_type n) (s +:+ R) = Parsed ft R) fs)
    as (l & Hl & HP).
  { apply Forall_forall. intros [f t] Hin.
    rewrite Forall_forall in IH. specialize (IH _ Hin).
    apply list_elem_of_In in Hin. apply Hall in Hin. simpl in *.
    apply andb_prop in Hin as [Hf Ht].
    destruct (IH Ht) as (st & Hst & Hlen & Hparse).
    eexists. rewrite Hst. split; [reflexivity|]. split.
    - rewrite !length_append. simpl. lia.
    - intros n R Hn HR. apply field_printed; [done|]. by apply Hparse. }
  exists l. split; [done|]. split; [|split].
  - rewrite <- list_sum_S. etrans; [|apply length_join].
    apply list_sum_Forall2. eapply Forall2_impl; [exact HP|]. by intros ? ? [? _].
  - intros ->. by inversion HP.
  - intros n r Hn Hne. apply fields_printed; [|done|lia].
    eapply Forall2_impl_elem; [exact HP|]. clear HP.
    intros [f t] s Hin [_ Hparse] R HR. apply Hparse; [|done].
    pose proof (list_sum_elem (fun ft : string * HailType => size ft.2) fs (f, t) Hin).
    simpl in *. lia.
Qed.

Lemma types_read_back (ts : list HailType) :
  Forall (fun t => parsable t = true -> reads_back t) ts ->
  forallb parsable ts = true ->
  exists l,
    rmapM __str__ ts = Ok l
    /\ length ts + list_sum (map size ts) <= String.length (join ", " l)
    /\ (ts = [] -> l = [])
    /\ forall n,
         length ts + list_sum (map size ts) <= n ->
         Forall2 (fun t s => forall R, closing R = true ->
                    parse_type n (s +:+ R) = Parsed t R) ts l.
Proof.
  intros IH Hall. rewrite forallb_forall in Hall.
  destruct (rmapM_Forall2 __str__
              (fun t s =>
                 S (size t) <= String.length s
                 /\ forall n R, size t <= n -> closing R = true ->
                      parse_type n (s +:+ R) = Parsed t R) ts)
    as (l & Hl & HP).
  { apply Forall_forall. intros t Hin.
    rewrite Forall_forall in IH. specialize (IH _ Hin).
    apply list_elem_of_In in Hin. apply Hall in Hin.
    destruct (IH Hin) as (st & Hst & Hlen & Hparse).
    exists st. split; [done|]. split; [lia|done]. }
  exists l. split; [done|]. split; [|split].
  - rewrite <- list_sum_S. etrans; [|apply length_join].
    apply list_sum_Forall2. eapply Forall2_impl; [exact HP|]. by intros ? ? [? _].
  - intros ->. by inversion HP.
  - intros n Hn. eapply Forall2_impl_elem; [exact HP|]. clear HP.
    intros t s Hin [_ Hparse] R HR. apply Hparse; [|done].
    pose proof (list_sum_elem size ts t Hin). lia.
Qed.

(** A type node without parameters, printed as its keyword. *)
Ltac read_back_leaf alt :=
  eexists; split; [reflexivity|]; split; [simpl; lia|];
  intros [|n] rest Hn Hr; [simpl in Hn; lia|];
  apply parse_type_alt; [reflexivity|apply alt|done].

(** A type node with one type parameter between angle brackets. *)
Ltac read_back_one kwd alt IH He :=
  destruct (IH He) as (se & Hse & Hlen & Hparse);
  exists (kwd +:+ se +:+ ">"); split; [simpl; rewrite Hse; reflexivity|];
  split; [simpl; rewrite !length_append; simpl; lia|];
  intros [|n] rest Hn Hr; [simpl in Hn; lia|];
  apply parse_type_alt; [reflexivity| |done];
  rewrite !append_assoc; apply alt;
  apply Hparse; [simpl in Hn; lia|reflexivity].

(** The display form of every type node of the fragment is read back. *)
Lemma parsable_reads_back (t : HailType) : parsable t = true -> reads_back t.
Proof.
  induction t as [| | | | | | |e k IH|e IH|e IH|k v IHk IHv|fs IH|fs IH|ts IH| | |e IH|]
    using HailType_nested_ind; intros Hp; simpl in Hp; try discriminate.
  - read_back_leaf alt_int32.
  - read_back_leaf alt_int64.
  - read_back_leaf alt_float32.
  - read_back_leaf alt_float64.
  - eexists; split; [reflexivity|]; split; [simpl; lia|].
    intros [|n] rest Hn Hr; [simpl in Hn; lia|].
    apply parse_type_alt; [reflexivity|by apply alt_str|done].
  - read_back_leaf alt_bool.
  - (* ndarray *)
    destruct k as [k|]; [|discriminate].
    apply andb_prop in Hp as [He Hk]. apply Z.leb_le in Hk.
    destruct (IH He) as (se & Hse & Hlen & Hparse).
    destruct (str_of_Z_rank k Hk) as [Hsimple Hrank].
    exists ("ndarray<" +:+ se +:+ ", " +:+ str_of_Z k +:+ ">").
    split; [simpl; rewrite Hse; reflexivity|].
    split; [simpl; rewrite !length_append; simpl; lia|].
    intros [|n] rest Hn Hr; [simpl in Hn; lia|].
    apply parse_type_alt; [reflexivity| |done].
    rewrite !append_assoc. rewrite <- Hrank.
    apply (alt_ndarray _ _ _ e (" " +:+ str_of_Z k +:+ ">" +:+ rest) (str_of_Z k) rest).
    + apply Hparse; [simpl in Hn; lia|reflexivity].
    + change (identifier (String " " (str_of_Z k +:+ String ">" rest))
              = Parsed (str_of_Z k) (String ">" rest)).
      rewrite identifier_space. by apply identifier_simple.
  - read_back_one "array<" alt_array IH Hp.
  - read_back_one "set<" alt_set IH Hp.
  - (* dict *)
    apply andb_prop in Hp as [Hk Hv].
    destruct (IHk Hk) as (sk & Hsk & Hlenk & Hparsek).
    destruct (IHv Hv) as (sv & Hsv & Hlenv & Hparsev).
    exists ("dict<" +:+ sk +:+ ", " +:+ sv +:+ ">").
    split; [simpl; rewrite Hsk, Hsv; reflexivity|].
    split; [simpl; rewrite !length_append; simpl; rewrite !length_append; simpl; lia|].
    intros [|n] rest Hn Hr; [simpl in Hn; lia|].
    apply parse_type_alt; [reflexivity| |done].
    rewrite !append_assoc.
    apply (alt_dict _ _ _ k (" " +:+ sv +:+ ">" +:+ rest) v rest).
    + apply Hparsek; [simpl in Hn; lia|reflexivity].
    + change (parse_type n (String " " (sv +:+ String ">" rest))
              = Parsed v (String ">" rest)).
      rewrite parse_type_space. apply Hparsev; [simpl in Hn; lia|reflexivity].
  - (* struct *)
    apply andb_prop in Hp as [Hnd Hall]. apply bool_decide_eq_true in Hnd.
    destruct (record_reads_back fs IH Hall) as (l & Hl & Hlen & Hnil & Hparse).
    exists ("struct{" +:+ join ", " l +:+ "}").
    split; [cbn [__str__]; rewrite Hl; reflexivity|].
    split; [simpl; rewrite !length_append; simpl; lia|].
    intros [|n] rest Hn Hr; [simpl in Hn; lia|].
    apply parse_type_alt; [reflexivity| |done].
    destruct fs as [|ft fs].
    + rewrite (Hnil eq_refl). apply alt_struct_empty.
    + rewrite !append_assoc. rewrite <- (dict_of_fields_NoDup (ft :: fs) Hnd).
      apply alt_struct. apply Hparse; [simpl in *; lia|done].
  - (* union *)
    apply andb_prop in Hp as [Hnd Hall]. apply bool_decide_eq_true in Hnd.
    destruct (record_reads_back fs IH Hall) as (l & Hl & Hlen & Hnil & Hparse).
    exists ("union{" +:+ join ", " l +:+ "}").
    split; [cbn [__str__]; rewrite Hl; reflexivity|].
    split; [simpl; rewrite !length_append; simpl; lia|].
    intros [|n] rest Hn Hr; [simpl in Hn; lia|].
    apply parse_type_alt; [reflexivity| |done].
    destruct fs as [|ft fs].
    + rewrite (Hnil eq_refl). apply alt_union_empty.
    + rewrite !append_assoc. rewrite <- (dict_of_fields_NoDup (ft :: fs) Hnd).
      apply alt_union. apply Hparse; [simpl in *; lia|done].
  - (* tuple *)
    destruct (types_read_back ts IH Hp) as (l & Hl & Hlen & Hnil & Hparse).
    exists ("tuple(" +:+ join ", " l +:+ ")").
    split; [cbn [__str__]; rewrite Hl; reflexivity|].
    split; [simpl; rewrite !length_append; simpl; lia|].
    intros [|n] rest Hn Hr; [simpl in Hn; lia|].
    apply parse_type_alt; [reflexivity| |done].
    destruct ts as [|t ts].
    + rewrite (Hnil eq_refl). apply alt_tuple_empty.
      destruct n as [|n]; [simpl in Hn; lia|]. apply parse_type_closing_paren.
    + rewrite !append_assoc.
      destruct (types_printed n t ts l rest) as (s' & Ht & Hts).
      { apply Hparse. simpl in *. lia. }
      { simpl in *. lia. }
      by apply (alt_tuple _ _ _ t s' ts rest).
  - read_back_leaf alt_call.
  - read_back_one "interval<" alt_interval IH Hp.
Qed.

(** A type node of the fragment is equal to itself. *)
Lemma hail_eqb_refl_parsable (t : HailType) : parsable t = true -> hail_eqb t t = true.
Proof.
  induction t as [| | | | | | |e k IH|e IH|e IH|k v IHk IHv|fs IH|fs IH|ts IH| | |e IH|]
    using HailType_nested_ind; intros Hp; simpl in Hp; try discriminate; try done.
  - destruct k as [k|]; [|discriminate]. apply andb_prop in Hp as [He _]. by apply IH.
  - by apply IH.
  - by apply IH.
  - apply andb_prop in Hp as [Hk Hv]. simpl. by rewrite IHk, IHv.
  - apply andb_prop in Hp as [Hnd Hall]. apply bool_decide_eq_true in Hnd.
    simpl. apply fields_eq_spec; [done|]. split; [done|].
    apply Forall_Forall2_diag, Forall_fmap, Forall_forall. intros ft Hin.
    rewrite Forall_forall in IH. apply (IH ft Hin).
    rewrite forallb_forall in Hall. apply list_elem_of_In, Hall in Hin.
    by apply andb_prop in Hin as [_ ?].
  - apply andb_prop in Hp as [Hnd Hall]. apply bool_decide_eq_true in Hnd.
    simpl. apply fields_eq_spec; [done|]. split; [done|].
    apply Forall_Forall2_diag, Forall_fmap, Forall_forall. intros ft Hin.
    rewrite Forall_forall in IH. apply (IH ft Hin).
    rewrite forallb_forall in Hall. apply list_elem_of_In, Hall in Hin.
    by apply andb_prop in Hin as [_ ?].
  - simpl. rewrite Nat.eqb_refl. simpl.
    induction IH as [|t ts Ht _ IHts]; [done|]. simpl in *.
    apply andb_prop in Hp as [Hpt Hpts]. by rewrite (Ht Hpt), (IHts Hpts).
  - by apply IH.
Qed.

(** C1, as the code and the grammar have it: for every type node made of
    [int32], [int64], [float32], [float64], [bool], [str], [call], arrays,
    sets, dicts, intervals, tuples, n-dimensional arrays of a rank that is
    a natural number, and structs and unions with pairwise distinct
    printable field names, the display form exists and [dtype] reads it
    back as a type node equal to the one printed: it is that type node. *)
Theorem parsable_display_form_parses_back (t : HailType) :
  parsable t = true ->
  exists s t', __str__ t = Ok s /\ dtype s = Ok t' /\ hail_eqb t' t = true /\ t' = t.
Proof.
  intros Hp. destruct (parsable_reads_back t Hp) as (s & Hs & Hlen & Hparse).
  exists s, t. split; [done|]. split; [|split; [by apply hail_eqb_refl_parsable|done]].
  unfold dtype. specialize (Hparse (S (String.length s)) "").
  rewrite append_nil_r in Hparse. rewrite Hparse; [done|lia|done].
Qed.

Lemma parsable_display_form_parses_back_witness :
  parsable (tstruct [("a", tint32); ("b c", tarray (ttuple [tstr; tdict tstr tfloat64]))])
  = true
  /\ exists s t',
       __str__ (tstruct [("a", tint32); ("b c", tarray (ttuple [tstr; tdict tstr tfloat64]))])
       = Ok s
       /\ dtype s = Ok t'
       /\ hail_eqb t'
            (tstruct [("a", tint32); ("b c", tarray (ttuple [tstr; tdict tstr tfloat64]))])
          = true
       /\ t' = tstruct [("a", tint32); ("b c", tarray (ttuple [tstr; tdict tstr tfloat64]))].
Proof.
  assert (parsable
            (tstruct [("a", tint32); ("b c", tarray (ttuple [tstr; tdict tstr tfloat64]))])
          = true) as Hp by (vm_compute; reflexivity).
  split; [exact Hp|]. exact (parsable_display_form_parses_back _ Hp).
Defined.

(** C1, as the claim has it, fails: [tvoid] is a type node, its display
    form is ["void"], and the grammar has no production for it. *)
Lemma display_form_of_tvoid_is_not_parsed :
  __str__ tvoid = Ok "void" /\ dtype "void" = Raise ParseError.
Proof. split; reflexivity. Qed.

(** The display form of a type variable is not in the grammar either, and
    a type variable is not equal to itself. *)
Lemma display_form_of_tvariable_is_not_parsed :
  __str__ (tvariable "x" (Some c_numeric) 0) = Ok "?x:numeric"
  /\ dtype "?x:numeric" = Raise ParseError
  /\ hail_eqb (tvariable "x" (Some c_numeric) 0) (tvariable "x" (Some c_numeric) 0) = false.
Proof. repeat split. Qed.

(** [tlocus.__str__] prints angle brackets where the grammar, in the spec
    and in the docstring of [dtype], has square brackets. *)
Lemma display_form_of_tlocus_is_not_parsed :
  __str__ (tlocus "GRCh37") = Ok "locus<GRCh37>"
  /\ dtype "locus<GRCh37>" = Raise ParseError
  /\ dtype "locus[GRCh37]" = Ok (tlocus "GRCh37").
Proof. repeat split. Qed.

(** The display form of an n-dimensional array does not exist while its
    rank is unresolved. *)
Lemma display_form_of_unresolved_rank :
  __str__ (tndarray tint32 (NatVariable "n")) = Raise AssertionError
  /\ __str__ (tndarray tint32 (NatLiteral 2)) = Ok "ndarray<int32, 2>"
  /\ dtype "ndarray<int32, 2>" = Ok (tndarray tint32 (NatLiteral 2)).
Proof. repeat split. Qed.

(** *** [dtype] never runs out of fuel *)

Lemma ws_length s : String.length (ws s) <= String.length s.
Proof.
  induction s as [|c s IH]; simpl; [done|]. destruct (is_space c); simpl; lia.
Qed.

Lemma lit_length k s u r :
  lit k s = Parsed u r -> String.length r + String.length k = String.length s.
Proof.
  revert s. induction k as [|a k IH]; intros [|b s]; simpl; try discriminate.
  - intros Hk. by inversion Hk.
  - intros Hk. inversion Hk. simpl. lia.
  - destruct (Ascii.eqb a b); [|discriminate]. intros Hk. apply IH in Hk. lia.
Qed.

Lemma lit_fuel k s : lit k s <> OutOfFuel.
Proof.
  revert s. induction k as [|a k IH]; intros [|b s]; simpl; try discriminate.
  destruct (Ascii.eqb a b); [apply IH|discriminate].
Qed.

Lemma orelse_Parsed {A} (a b : presult A) x r :
  orelse a b = Parsed x r -> a = Parsed x r \/ a = NoMatch /\ b = Parsed x r.
Proof. destruct a; simpl; auto; discriminate. Qed.

Lemma orelse_OutOfFuel {A} (a b : presult A) :
  orelse a b = OutOfFuel -> a = OutOfFuel \/ a = NoMatch /\ b = OutOfFuel.
Proof. destruct a; simpl; auto; discriminate. Qed.

Lemma pbind_Parsed {A B} (m : presult A) (k : A -> string -> presult B) y r :
  pbind m k = Parsed y r -> exists a r', m = Parsed a r' /\ k a r' = Parsed y r.
Proof. destruct m as [a r'| |]; simpl; [by exists a, r'|discriminate|discriminate]. Qed.

Lemma pbind_OutOfFuel {A B} (m : presult A) (k : A -> string -> presult B) :
  pbind m k = OutOfFuel ->
  m = OutOfFuel \/ exists a r', m = Parsed a r' /\ k a r' = OutOfFuel.
Proof. destruct m as [a r'| |]; simpl; [right; by exists a, r'|discriminate|by left]. Qed.

Lemma kw_length ks s u r : kw ks s = Parsed u r -> String.length r <= String.length s.
Proof.
  induction ks as [|k ks IH]; simpl; [discriminate|].
  intros [Hk|[_ Hk]]%orelse_Parsed; [apply lit_length in Hk; lia|by apply IH].
Qed.

Lemma kw_fuel ks s : kw ks s <> OutOfFuel.
Proof.
  induction ks as [|k ks IH]; simpl; [discriminate|].
  intros [Hk|[_ Hk]]%orelse_OutOfFuel; [by apply lit_fuel in Hk|done].
Qed.

Lemma span_length p s a r :
  span p s = (a, r) -> String.length a + String.length r = String.length s.
Proof.
  revert a r. induction s as [|c s IH]; intros a r; simpl.
  { by intros [= <- <-]. }
  destruct (p c); [|by intros [= <- <-]].
  destruct (span p s) as [a' r'] eqn:Hs. intros [= <- <-].
  specialize (IH _ _ eq_refl). simpl. lia.
Qed.

Lemma escaped_body_length s a r :
  escaped_body s = Parsed a r -> String.length r < String.length s.
Proof.
  remember (String.length s) as m eqn:Hm. revert s a r Hm.
  induction m as [m IH] using lt_wf_ind. intros [|c s] a r ->; simpl; [discriminate|].
  destruct (Ascii.eqb c "`"); [intros [= _ <-]; lia|].
  destruct (Ascii.eqb c "\").
  - destruct s as [|d s]; [discriminate|].
    intros (a' & r' & Hb & [= _ <-])%pbind_Parsed.
    eapply (IH (String.length s)) in Hb; [|simpl; lia|done]. simpl. lia.
  - intros (a' & r' & Hb & [= _ <-])%pbind_Parsed.
    eapply (IH (String.length s)) in Hb; [|simpl; lia|done]. lia.
Qed.

Lemma escaped_body_fuel s : escaped_body s <> OutOfFuel.
Proof.
  remember (String.length s) as m eqn:Hm. revert s Hm.
  induction m as [m IH] using lt_wf_ind. intros [|c s] ->; simpl; [discriminate|].
  destruct (Ascii.eqb c "`"); [discriminate|].
  destruct (Ascii.eqb c "\").
  - destruct s as [|d s]; [discriminate|].
    intros [Hb|(a & r & _ & [=])]%pbind_OutOfFuel.
    by eapply (IH (String.length s)) in Hb; [|simpl; lia|].
  - intros [Hb|(a & r & _ & [=])]%pbind_OutOfFuel.
    by eapply (IH (String.length s)) in Hb; [|simpl; lia|].
Qed.

Lemma identifier_length s a r :
  identifier s = Parsed a r -> String.length r < String.length s.
Proof.
  unfold identifier. intros (a' & r' & Hi & [= _ <-])%pbind_Parsed.
  pose proof (ws_length s). pose proof (ws_length r').
  enough (String.length r' < String.length (ws s)) by lia.
  apply orelse_Parsed in Hi as [Hi|[_ Hi]].
  - unfold simple_identifier in Hi.
    destruct (span is_word (ws s)) as [w r''] eqn:Hs. apply span_length in Hs.
    destruct w; [discriminate|]. injection Hi as _ <-. simpl in Hs. lia.
  - unfold escaped_identifier in Hi.
    apply pbind_Parsed in Hi as (u & r'' & Hl & Hb).
    apply lit_length in Hl. apply escaped_body_length in Hb. lia.
Qed.

Lemma identifier_fuel s : identifier s <> OutOfFuel.
Proof.
  unfold identifier. intros [Hi|(a & r & _ & [=])]%pbind_OutOfFuel.
  apply orelse_OutOfFuel in Hi as [Hi|[_ Hi]].
  - unfold simple_identifier in Hi. by destruct (span is_word (ws s)) as [[|] ?].
  - unfold escaped_identifier in Hi.
    apply pbind_OutOfFuel in Hi as [Hi|(u & r & _ & Hb)];
      [by apply lit_fuel in Hi|by apply escaped_body_fuel in Hb].
Qed.

Lemma many_length {A} (q : string -> presult A) m :
  shrinks q -> shrinks (many m q).
Proof.
  intros Hq. induction m as [|m IH]; intros s l r; simpl; [discriminate|].
  destruct (q s) as [a r'| |] eqn:Ha; [|by intros [= _ <-]|discriminate].
  intros (l' & r'' & Hm & [= _ <-])%pbind_Parsed.
  apply Hq in Ha. apply IH in Hm. lia.
Qed.

Lemma many_fuel {A} (q : string -> presult A) L :
  (forall s a r, q s = Parsed a r -> String.length r < String.length s) ->
  (forall s, String.length s <= L -> q s <> OutOfFuel) ->
  forall m s, String.length s < m -> String.length s <= L -> many m q s <> OutOfFuel.
Proof.
  intros Hlt Hq. induction m as [|m IH]; intros s Hm HL; [lia|]. simpl.
  destruct (q s) as [a r'| |] eqn:Ha; [|discriminate|by apply Hq in Ha].
  apply Hlt in Ha.
  intros [Hr|(l & r & _ & [=])]%pbind_OutOfFuel. apply IH in Hr; [done|lia|lia].
Qed.

(** Inversion of a parser that matched, and the lengths it relates. *)
Ltac parsed_inv :=
  repeat match goal with
         | H : pbind _ _ = Parsed _ _ |- _ =>
             apply pbind_Parsed in H as (? & ? & ? & ?); cbv beta in *
         | H : orelse _ _ = Parsed _ _ |- _ => apply orelse_Parsed in H as [?|[_ ?]]
         | H : Parsed _ _ = Parsed _ _ |- _ => inversion H; subst; clear H
         end.

Ltac ws_lengths :=
  repeat match goal with
         | _ : context [ws ?x] |- _ =>
             lazymatch goal with
             | _ : String.length (ws x) <= String.length x |- _ => fail
             | _ => pose proof (ws_length x)
             end
         | |- context [ws ?x] =>
             lazymatch goal with
             | _ : String.length (ws x) <= String.length x |- _ => fail
             | _ => pose proof (ws_length x)
             end
         end.

Section Fuel.
Variable ty : string -> presult HailType.
Variable n : nat.
Hypothesis ty_shrinks : shrinks ty.

Ltac lengths :=
  ws_lengths;
  repeat match goal with
         | H : lit _ _ = Parsed _ _ |- _ => apply lit_length in H; simpl in H
         | H : kw _ _ = Parsed _ _ |- _ => apply kw_length in H
         | H : identifier _ = Parsed _ _ |- _ => apply identifier_length in H
         | H : ty _ = Parsed _ _ |- _ => apply ty_shrinks in H
         end.

Lemma field_length s ft r :
  type_grammar.field ty s = Parsed ft r -> String.length r < String.length s.
Proof. unfold type_grammar.field. intros Hf. parsed_inv. lengths. lia. Qed.

Lemma comma_type_length s t r :
  pbind (lit "," s) (fun _ r => ty r) = Parsed t r -> String.length r < String.length s.
Proof. intros Hf. parsed_inv. lengths. lia. Qed.

Lemma comma_field_length s ft r :
  pbind (lit "," s) (fun _ r => type_grammar.field ty r) = Parsed ft r ->
  String.length r < String.length s.
Proof.
  intros Hf. parsed_inv.
  match goal with H : type_grammar.field _ _ = _ |- _ => apply field_length in H end.
  lengths. lia.
Qed.

Lemma fields_length s fs r :
  type_grammar.fields ty n s = Parsed fs r -> String.length r <= String.length s.
Proof.
  unfold type_grammar.fields. intros Hf. parsed_inv.
  match goal with H : type_grammar.field _ _ = _ |- _ => apply field_length in H end.
  match goal with H : many _ _ _ = _ |- _ => apply many_length in H end.
  - lia.
  - intros s' a r' Hq. apply comma_field_length in Hq. lia.
Qed.

(** Every production gives back no more than it was given. *)
Lemma type_alternatives_shrinks : shrinks (type_grammar.type_alternatives ty n).
Proof.
  intros s t r. unfold type_grammar.type_alternatives, type_grammar.array,
    type_grammar.set_, type_grammar.interval, type_grammar.dict, type_grammar.ndarray,
    type_grammar.struct, type_grammar.union, type_grammar.record, type_grammar.tuple,
    type_grammar.locus, type_grammar.atom, type_grammar.one_type.
  intros Halt. parsed_inv;
    repeat match goal with
           | H : type_grammar.fields _ _ _ = _ |- _ => apply fields_length in H
           | H : many _ _ _ = _ |- _ =>
               apply many_length in H;
               [|intros ? ? ? Hq; apply comma_type_length in Hq; lia]
           end;
    lengths; lia.
Qed.

Hypothesis ty_fuel : forall s, String.length s < n -> ty s <> OutOfFuel.

Lemma field_fuel s : String.length s <= n -> type_grammar.field ty s <> OutOfFuel.
Proof.
  unfold type_grammar.field. intros Hs Hf.
  apply pbind_OutOfFuel in Hf as [Hf|(f & r & Hi & Hf)]; [by apply identifier_fuel in Hf|].
  apply pbind_OutOfFuel in Hf as [Hf|(u & r' & Hl & Hf)]; [by apply lit_fuel in Hf|].
  apply pbind_OutOfFuel in Hf as [Hf|(t & r'' & _ & [=])].
  lengths. apply ty_fuel in Hf; [done|lia].
Qed.

Lemma many_type_fuel s :
  String.length s < n ->
  many n (fun s => pbind (lit "," s) (fun _ r => ty r)) s <> OutOfFuel.
Proof.
  intros Hs. apply (many_fuel _ n); [apply comma_type_length| |done|lia].
  intros s' Hs' Hq.
  apply pbind_OutOfFuel in Hq as [Hq|(u & r & Hl & Hq)]; [by apply lit_fuel in Hq|].
  lengths. apply ty_fuel in Hq; [done|lia].
Qed.

Lemma fields_fuel s : String.length s <= n -> type_grammar.fields ty n s <> OutOfFuel.
Proof.
  unfold type_grammar.fields. intros Hs Hf.
  apply pbind_OutOfFuel in Hf as [Hf|(ft & r & Hft & Hf)]; [by apply field_fuel in Hf|].
  apply field_length in Hft.
  apply pbind_OutOfFuel in Hf as [Hf|(l & r' & _ & [=])].
  revert Hf. apply (many_fuel _ n); [apply comma_field_length| |lia|lia].
  intros s' Hs' Hq.
  apply pbind_OutOfFuel in Hq as [Hq|(u & r' & Hl & Hq)]; [by apply lit_fuel in Hq|].
  lengths. apply field_fuel in Hq; [done|lia].
Qed.
(** No production runs out of fuel on a text no longer than the fuel. *)
Lemma type_alternatives_fuel s :
  String.length s <= n -> type_grammar.type_alternatives ty n s <> OutOfFuel.
Proof.
  unfold type_grammar.type_alternatives, type_grammar.array,
    type_grammar.set_, type_grammar.interval, type_grammar.dict, type_grammar.ndarray,
    type_grammar.struct, type_grammar.union, type_grammar.record, type_grammar.tuple,
    type_grammar.locus, type_grammar.atom, type_grammar.one_type.
  intros Hs Halt.
  repeat match goal with
         | H : orelse _ _ = OutOfFuel |- _ => apply orelse_OutOfFuel in H as [?|[_ ?]]
         | H : pbind _ _ = OutOfFuel |- _ =>
             apply pbind_OutOfFuel in H as [?|(? & ? & ? & ?)]; cbv beta in *
         | H : lit _ _ = OutOfFuel |- _ => by apply lit_fuel in H
         | H : kw _ _ = OutOfFuel |- _ => by apply kw_fuel in H
         | H : identifier _ = OutOfFuel |- _ => by apply identifier_fuel in H
         | H : Parsed _ _ = OutOfFuel |- _ => discriminate H
         end;
    parsed_inv; lengths;
    match goal with
    | H : ty _ = OutOfFuel |- _ => apply ty_fuel in H; [done|lia]
    | H : type_grammar.fields _ _ _ = OutOfFuel |- _ => apply fields_fuel in H; [done|lia]
    | H : many _ _ _ = OutOfFuel |- _ => apply many_type_fuel in H; [done|lia]
    end.
Qed.
End Fuel.

Lemma parse_type_shrinks n : shrinks (parse_type n).
Proof.
  induction n as [|n IH]; intros s t r; cbn [parse_type]; [discriminate|].
  intros (t' & r' & Halt & Hr)%pbind_Parsed. inversion Hr; subst; clear Hr.
  apply type_alternatives_shrinks in Halt; [|done].
  pose proof (ws_length s). pose proof (ws_length r'). lia.
Qed.

Lemma parse_type_fuel n s : String.length s < n -> parse_type n s <> OutOfFuel.
Proof.
  revert s. induction n as [|n IH]; intros s Hs; [lia|]. cbn [parse_type].
  intros [Halt|(t & r & _ & [=])]%pbind_OutOfFuel. revert Halt.
  apply type_alternatives_fuel; [apply parse_type_shrinks|done|].
  pose proof (ws_length s). lia.
Qed.

(** [dtype] always returns a type node or raises [ParseError]: the length
    of the text is fuel enough. *)
Lemma dtype_total (type_str : string) :
  (exists t, dtype type_str = Ok t) \/ dtype type_str = Raise ParseError.
Proof.
  unfold dtype.
  destruct (parse_type (S (String.length type_str)) type_str) as [t [|c r]| |] eqn:Hp;
    [left; by exists t|by right|by right|].
  apply parse_type_fuel in Hp; [done|lia].
Qed.

(** * Further properties *)

(** ** Equality and structural identity *)

Lemma all2_Forall2 {A B} (f : A -> B -> bool) l m :
  length l = length m ->
  all2 f l m = true <-> Forall2 (fun a b => f a b = true) l m.
Proof.
  revert m. induction l as [|a l IH]; intros [|b m] Hlen; simpl in *; try lia.
  - split; [constructor|done].
  - rewrite andb_true_iff, IH by lia. split.
    + intros [? ?]. by constructor.
    + by inversion 1.
Qed.

Lemma Forall_Forall2_eq {A} (P : A -> Prop) (Q : A -> A -> Prop) xs ys :
  Forall P xs -> Forall2 Q xs ys -> (forall x y, P x -> Q x y -> x = y) -> xs = ys.
Proof.
  intros HP HQ Heq. revert HP. induction HQ as [|x y xs ys Hxy _ IH]; [done|].
  intros [Hx Hxs]%Forall_cons. f_equal; [by apply Heq|by apply IH].
Qed.

Lemma Forall2_diag_inv {A} (P : A -> A -> Prop) l :
  Forall2 P l l -> Forall (fun x => P x x) l.
Proof.
  induction l as [|x l IH]; [constructor|].
  intros [Hx Hl]%Forall2_cons. constructor; [done|by apply IH].
Qed.

Lemma fst_snd_eq {A B} (l m : list (A * B)) : l.*1 = m.*1 -> l.*2 = m.*2 -> l = m.
Proof.
  revert m. induction l as [|[a b] l IH]; intros [|[a' b'] m]; simpl; try done.
  intros [= -> H1] [= -> H2]. f_equal. by apply IH.
Qed.

(** The fields of a struct or of a union that is equal to another. *)
Lemma fields_eq_eq (fs gs : list (string * HailType)) :
  NoDup (fs.*1) ->
  Forall (fun ft : string * HailType =>
            forall u, hail_eqb ft.2 u = true -> ft.2 = u) fs ->
  bool_decide (fs.*1 = gs.*1)
  && forallb (fun ft : string * HailType =>
                match field_lookup ft.1 gs with
                | Some u => hail_eqb ft.2 u
                | None => false
                end) fs = true ->
  fs = gs.
Proof.
  intros Hnd IH [Hnames Hall]%fields_eq_spec; [|done].
  apply fst_snd_eq; [done|].
  eapply (Forall_Forall2_eq (fun t => forall u, hail_eqb t u = true -> t = u));
    [|exact Hall|by intros x y Hx ?; apply Hx].
  by apply Forall_fmap.
Qed.

(** X1: on type nodes without n-dimensional arrays, whose structs and
    unions have pairwise distinct names, [==] is structural identity: two
    equal type nodes are the same type node. *)
Theorem hail_eqb_structural (t u : HailType) :
  well_formed t = true -> rank_free t = true -> hail_eqb t u = true -> t = u.
Proof.
  unfold well_formed, rank_free. revert u.
  induction t as [| | | | | | |e k IH|e IH|e IH|k v IHk IHv|fs IH|fs IH|ts IH| |rg|e IH|]
    using HailType_nested_ind; intros u Hwf Hrf Heq;
    destruct u; simpl in Heq; try discriminate; try reflexivity;
    simpl in Hwf, Hrf; try discriminate.
  - f_equal. by apply IH.
  - f_equal. by apply IH.
  - apply andb_prop in Hwf as [Hwk Hwv]. apply andb_prop in Hrf as [Hrk Hrv].
    apply andb_prop in Heq as [Hk Hv]. f_equal; [by apply IHk|by apply IHv].
  - apply andb_prop in Hwf as [Hnd Hwf]. apply bool_decide_eq_true in Hnd.
    f_equal. apply fields_eq_eq; [done| |done].
    rewrite forallb_forall in Hwf, Hrf. rewrite Forall_forall in IH |- *.
    intros ft Hin u' Hu. apply IH; [done| | |done].
    + by apply Hwf, list_elem_of_In.
    + by apply Hrf, list_elem_of_In.
  - apply andb_prop in Hwf as [Hnd Hwf]. apply bool_decide_eq_true in Hnd.
    f_equal. apply fields_eq_eq; [done| |done].
    rewrite forallb_forall in Hwf, Hrf. rewrite Forall_forall in IH |- *.
    intros ft Hin u' Hu. apply IH; [done| | |done].
    + by apply Hwf, list_elem_of_In.
    + by apply Hrf, list_elem_of_In.
  - apply andb_prop in Heq as [Hlen Hall]. apply Nat.eqb_eq in Hlen.
    apply all2_Forall2 in Hall; [|done]. f_equal.
    eapply (Forall_Forall2_eq (fun t => forall u, hail_eqb t u = true -> t = u));
      [|exact Hall|by intros x y Hx ?; apply Hx].
    rewrite forallb_forall in Hwf, Hrf. rewrite Forall_forall in IH |- *.
    intros t Hin u' Hu. apply IH; [done| | |done].
    + by apply Hwf, list_elem_of_In.
    + by apply Hrf, list_elem_of_In.
  - f_equal. by apply String.eqb_eq.
  - f_equal. by apply IH.
Qed.

Lemma hail_eqb_structural_witness :
  well_formed (tstruct [("a", tarray tint32); ("b", tlocus "GRCh37")]) = true
  /\ rank_free (tstruct [("a", tarray tint32); ("b", tlocus "GRCh37")]) = true
  /\ hail_eqb (tstruct [("a", tarray tint32); ("b", tlocus "GRCh37")])
              (tstruct [("a", tarray tint32); ("b", tlocus "GRCh37")]) = true
  /\ tstruct [("a", tarray tint32); ("b", tlocus "GRCh37")]
     = tstruct [("a", tarray tint32); ("b", tlocus "GRCh37")].
Proof.
  assert (well_formed (tstruct [("a", tarray tint32); ("b", tlocus "GRCh37")]) = true)
    as Hwf by (vm_compute; reflexivity).
  assert (rank_free (tstruct [("a", tarray tint32); ("b", tlocus "GRCh37")]) = true)
    as Hrf by (vm_compute; reflexivity).
  assert (hail_eqb (tstruct [("a", tarray tint32); ("b", tlocus "GRCh37")])
                   (tstruct [("a", tarray tint32); ("b", tlocus "GRCh37")]) = true)
    as Heq by (vm_compute; reflexivity).
  split; [exact Hwf|]. split; [exact Hrf|]. split; [exact Heq|].
  exact (hail_eqb_structural _ _ Hwf Hrf Heq).
Defined.

Lemma hail_eqb_refl_spec (t : HailType) :
  well_formed t = true -> (hail_eqb t t = true <-> variable_free t = true).
Proof.
  unfold well_formed, variable_free.
  induction t as [| | | | | | |e k IH|e IH|e IH|k v IHk IHv|fs IH|fs IH|ts IH| |rg|e IH|]
    using HailType_nested_ind; intros Hwf; simpl in Hwf |- *; try done.
  - by apply IH.
  - by apply IH.
  - by apply IH.
  - apply andb_prop in Hwf as [Hwk Hwv].
    rewrite !andb_true_iff, (IHk Hwk), (IHv Hwv). done.
  - apply andb_prop in Hwf as [Hnd Hwf]. apply bool_decide_eq_true in Hnd.
    rewrite fields_eq_spec by done. rewrite forallb_forall in Hwf. rewrite forallb_forall.
    rewrite Forall_forall in IH. split.
    + intros [_ Hall] ft Hin. apply Forall2_diag_inv in Hall.
      rewrite Forall_fmap, Forall_forall in Hall.
      apply IH; [by apply list_elem_of_In|by apply Hwf|].
      by apply Hall, list_elem_of_In.
    + intros Hall. split; [done|].
      apply Forall_Forall2_diag, Forall_fmap, Forall_forall. intros ft Hin.
      apply IH; [done|by apply Hwf, list_elem_of_In|by apply Hall, list_elem_of_In].
  - apply andb_prop in Hwf as [Hnd Hwf]. apply bool_decide_eq_true in Hnd.
    rewrite fields_eq_spec by done. rewrite forallb_forall in Hwf. rewrite forallb_forall.
    rewrite Forall_forall in IH. split.
    + intros [_ Hall] ft Hin. apply Forall2_diag_inv in Hall.
      rewrite Forall_fmap, Forall_forall in Hall.
      apply IH; [by apply list_elem_of_In|by apply Hwf|].
      by apply Hall, list_elem_of_In.
    + intros Hall. split; [done|].
      apply Forall_Forall2_diag, Forall_fmap, Forall_forall. intros ft Hin.
      apply IH; [done|by apply Hwf, list_elem_of_In|by apply Hall, list_elem_of_In].
  - rewrite Nat.eqb_refl. simpl. rewrite all2_Forall2 by done.
    rewrite forallb_forall in Hwf. rewrite forallb_forall. rewrite Forall_forall in IH.
    split.
    + intros Hall%Forall2_diag_inv t Hin. rewrite Forall_forall in Hall.
      apply IH; [by apply list_elem_of_In|by apply Hwf|by apply Hall, list_elem_of_In].
    + intros Hall. apply Forall_Forall2_diag, Forall_forall. intros t Hin.
      apply IH; [done|by apply Hwf, list_elem_of_In|by apply Hall, list_elem_of_In].
  - split; [by intros _|intros _; apply String.eqb_refl].
  - by apply IH.
Qed.

(** X2: a type node whose structs and unions have pairwise distinct names
    is equal to itself exactly when no type variable occurs in it. *)
Theorem hail_eqb_refl_iff (t : HailType) :
  well_formed t = true -> hail_eqb t t = variable_free t.
Proof.
  intros Hwf. apply Bool.eq_iff_eq_true. by apply hail_eqb_refl_spec.
Qed.

Lemma hail_eqb_refl_iff_witness :
  well_formed (tarray (tvariable "x" None 0)) = true
  /\ hail_eqb (tarray (tvariable "x" None 0)) (tarray (tvariable "x" None 0)) = false.
Proof.
  split; [reflexivity|].
  exact (hail_eqb_refl_iff (tarray (tvariable "x" None 0)) eq_refl).
Defined.

(** ** The registry of boxes *)

Lemma Box_from_name_wf name σ : store_wf σ -> store_wf (Box_from_name name σ).2.
Proof.
  intros [Hlt Hinj]. unfold Box_from_name.
  destruct (named_boxes σ !! name) as [b|] eqn:Hb; [done|]. split; simpl.
  - intros name' b'. rewrite length_app. simpl.
    destruct (decide (name = name')) as [<-|Hne].
    + rewrite lookup_insert_eq. intros [= <-]. lia.
    + rewrite lookup_insert_ne by done. intros Hb'%Hlt. lia.
  - intros n1 n2 b'.
    destruct (decide (name = n1)) as [<-|Hne1], (decide (name = n2)) as [<-|Hne2];
      rewrite ?lookup_insert_eq, ?lookup_insert_ne by done; try done.
    + intros [= <-] Hb'%Hlt. lia.
    + intros Hb'%Hlt [= <-]. lia.
    + apply Hinj.
Qed.

Lemma Box_unify_wf b v σ : store_wf σ -> store_wf (Box_unify b v σ).2.
Proof.
  intros [Hlt Hinj]. unfold Box_unify.
  destruct (heap σ !! b) as [[value|]|]; split; simpl; try done;
    intros name b' Hb'; rewrite length_insert; by apply (Hlt name).
Qed.

Lemma Box_clear_wf b σ : store_wf σ -> store_wf (Box_clear b σ).
Proof.
  intros [Hlt Hinj]. unfold Box_clear.
  destruct (heap σ !! b) as [[value|]|]; split; simpl; try done.
  intros name b' Hb'. rewrite length_insert. by apply (Hlt name).
Qed.

Lemma empty_store_wf : store_wf empty_store.
Proof. split; simpl; intros *; by rewrite lookup_empty. Qed.

Lemma tvariable_init_wf name cond σ :
  store_wf σ -> store_wf (tvariable_init name cond σ).2.
Proof.
  intros Hwf. unfold tvariable_init, bind.
  pose proof (Box_from_name_wf name σ Hwf) as Hwf'.
  by destruct (Box_from_name name σ) as [[b|e] σ'].
Qed.

(** X3: the registry keeps its shape.  In the empty store, and after every
    call of [Box.from_name], [Box.unify], [Box.clear], of the constructor of
    a type variable and of its [unify], each registered name has a box of
    its own. *)
Theorem store_wf_invariant :
  store_wf empty_store
  /\ forall σ, store_wf σ ->
       (forall name, store_wf (Box_from_name name σ).2)
       /\ (forall b v, store_wf (Box_unify b v σ).2)
       /\ (forall b, store_wf (Box_clear b σ))
       /\ (forall name cond, store_wf (tvariable_init name cond σ).2)
       /\ (forall cond b t, store_wf (tvariable_unify cond b t σ).2).
Proof.
  split; [apply empty_store_wf|].
  intros σ Hwf. split; [intros; by apply Box_from_name_wf|].
  split; [intros; by apply Box_unify_wf|].
  split; [intros; by apply Box_clear_wf|]. split.
  - intros name cond. by apply tvariable_init_wf.
  - intros cond b t. unfold tvariable_unify.
    destruct (cond_rejects cond t); [done|]. by apply Box_unify_wf.
Qed.

Lemma store_wf_invariant_witness :
  store_wf empty_store /\ store_wf (tvariable_init "x" None empty_store).2.
Proof.
  split; [exact (proj1 store_wf_invariant)|].
  exact (proj1 (proj2 (proj2 (proj2
           (proj2 store_wf_invariant empty_store (proj1 store_wf_invariant)))))
           "x" None).
Defined.

(** X4: type variables of different names have different boxes, and what
    one of them binds or clears leaves the cell of the other as it is. *)
Theorem distinct_names_distinct_cells σ x y cx cy bx b_y σ1 σ2 :
  store_wf σ -> x <> y ->
  tvariable_init x cx σ = (Ok (tvariable x cx bx), σ1) ->
  tvariable_init y cy σ1 = (Ok (tvariable y cy b_y), σ2) ->
  bx <> b_y
  /\ (forall σ' t, heap (tvariable_unify cx bx t σ').2 !! b_y = heap σ' !! b_y)
  /\ (forall σ', heap (tvariable_clear bx σ') !! b_y = heap σ' !! b_y).
Proof.
  intros Hwf Hxy Hx Hy.
  assert (named_boxes σ1 !! x = Some bx /\ store_wf σ1) as [Hbx Hwf1].
  { destruct (tvariable_init_total x cx σ) as (b & σ' & Hi & Hr).
    rewrite Hx in Hi. injection Hi as -> ->. split; [done|].
    pose proof (tvariable_init_wf x cx σ Hwf) as Hw.
    by rewrite Hx in Hw. }
  assert (bx <> b_y) as Hne.
  { unfold tvariable_init, bind, Box_from_name in Hy.
    destruct (named_boxes σ1 !! y) as [b|] eqn:Hb; simpl in Hy.
    - injection Hy as -> _. intros <-. by apply Hxy, (proj2 Hwf1 x y bx).
    - injection Hy as <- _. apply (proj1 Hwf1) in Hbx. lia. }
  split; [done|]. split.
  - intros σ' t. unfold tvariable_unify.
    destruct (cond_rejects cx t); [done|]. unfold Box_unify.
    destruct (heap σ' !! bx) as [[value|]|]; simpl; try done;
      by rewrite list_lookup_insert_ne.
  - intros σ'. unfold tvariable_clear, Box_clear.
    destruct (heap σ' !! bx) as [[value|]|]; simpl; try done.
    by rewrite list_lookup_insert_ne.
Qed.

Lemma distinct_names_distinct_cells_witness :
  store_wf empty_store /\ "x" <> "y" /\ 0 <> 1.
Proof.
  split; [exact empty_store_wf|]. split; [discriminate|].
  exact (proj1 (distinct_names_distinct_cells empty_store "x" "y" None None 0 1
                  (tvariable_init "x" None empty_store).2
                  (tvariable_init "y" None (tvariable_init "x" None empty_store).2).2
                  empty_store_wf ltac:(discriminate) eq_refl eq_refl)).
Defined.

(** ** Unification, substitution and clearing *)

Lemma extends_refl σ : extends σ σ.
Proof. by repeat split. Qed.

Lemma extends_trans σ1 σ2 σ3 : extends σ1 σ2 -> extends σ2 σ3 -> extends σ1 σ3.
Proof.
  intros (Hn & Hl & Hv) (Hn' & Hl' & Hv'). repeat split; [congruence..|].
  intros l v Hlv. by apply Hv', Hv.
Qed.

Lemma Box_unify_extends b v σ : extends σ (Box_unify b v σ).2.
Proof.
  unfold Box_unify.
  destruct (heap σ !! b) as [[value|]|] eqn:Hb; simpl; try apply extends_refl;
    (split; [done|]; split; simpl; [by rewrite length_insert|]);
    intros l w Hl; (destruct (decide (b = l)) as [Heq|Hne];
                    [rewrite Heq in Hb; by pose proof (eq_trans (eq_sym Hb) Hl)|]);
    by rewrite list_lookup_insert_ne.
Qed.

Lemma unify_zip_extends {A} (u : A -> A -> M bool) xs ys σ r σ' :
  Forall (fun x => forall y σ r σ', u x y σ = (r, σ') -> extends σ σ') xs ->
  unify_zip u xs ys σ = (r, σ') -> extends σ σ'.
Proof.
  intros Hxs. revert ys σ.
  induction Hxs as [|x xs Hx _ IH]; intros [|y ys] σ; cbn [unify_zip];
    try (intros [= <- <-]; apply extends_refl).
  unfold bind. destruct (u x y σ) as [[[|]|e] σ1] eqn:Hu; cbn [negb].
  - intros Hz. eapply extends_trans; [by eapply Hx|by eapply IH].
  - intros [= <- <-]. by eapply Hx.
  - intros [= <- <-]. by eapply Hx.
Qed.

Lemma unify_zip_pure {A} (u : A -> A -> M bool) (f : A -> A -> bool) xs ys σ :
  Forall (fun x => forall y σ, u x y σ = (Ok (f x y), σ)) xs ->
  unify_zip u xs ys σ = (Ok (all2 f xs ys), σ).
Proof.
  intros Hxs. revert ys.
  induction Hxs as [|x xs Hx _ IH]; intros [|y ys]; cbn [unify_zip all2]; try done.
  unfold bind. rewrite Hx. destruct (f x y); cbn [negb andb]; [apply IH|done].
Qed.

Lemma fields_Forall2_split (fs gs : list (string * HailType)) :
  Forall2 (fun ft1 ft2 : string * HailType =>
             String.eqb ft1.1 ft2.1 && hail_eqb ft1.2 ft2.2 = true) fs gs
  <-> fs.*1 = gs.*1 /\ Forall2 (fun t u => hail_eqb t u = true) (fs.*2) (gs.*2).
Proof.
  revert gs. induction fs as [|[f t] fs IH]; intros [|[g u] gs];
    rewrite ?fmap_nil, ?fmap_cons.
  - split; [by split; [|constructor]|constructor].
  - split; [inversion 1|by intros [? _]].
  - split; [inversion 1|by intros [? _]].
  - rewrite !Forall2_cons, IH. cbn [fst snd].
    rewrite andb_true_iff, String.eqb_eq. split.
    + intros ([-> ?] & -> & ?). done.
    + intros ([= -> ?] & ? & ?). done.
Qed.

(** The loop of [tstruct.unify] over ground field types computes what
    [tstruct._eq] does. *)
Lemma fields_all2_eq (fs gs : list (string * HailType)) :
  NoDup (fs.*1) ->
  (if negb (length fs =? length gs)%nat then false
   else all2 (fun ft1 ft2 : string * HailType =>
                String.eqb ft1.1 ft2.1 && hail_eqb ft1.2 ft2.2) fs gs)
  = bool_decide (fs.*1 = gs.*1)
    && forallb (fun ft : string * HailType =>
                  match field_lookup ft.1 gs with
                  | Some u => hail_eqb ft.2 u
                  | None => false
                  end) fs.
Proof.
  intros Hnd. apply Bool.eq_iff_eq_true. rewrite fields_eq_spec by done.
  destruct (Nat.eqb_spec (length fs) (length gs)) as [Hlen|Hlen]; cbn [negb].
  - by rewrite all2_Forall2, fields_Forall2_split.
  - split; [done|]. intros [Hnames _]. destruct Hlen.
    by rewrite <- (length_fmap fst fs), Hnames, length_fmap.
Qed.

Lemma hail_eqb_leaf_sym (t u : HailType) :
  match t with
  | tvoid | tint32 | tint64 | tfloat32 | tfloat64 | tstr | tbool | tcall => true
  | _ => false
  end = true ->
  hail_eqb u t = hail_eqb t u.
Proof. destruct t; try discriminate; by destruct u. Qed.

Section UnifySubstClear.
Context `{NatOps} `{NatSubst}.

(** X5: against a pattern without type variables, n-dimensional arrays and
    unions, whose structs have pairwise distinct names, [unify] is [==]: it
    answers what [pattern == t] does and leaves the store as it is. *)
Theorem unify_ground (p t : HailType) (σ : store) :
  variable_free p = true -> rank_free p = true -> union_free p = true ->
  well_formed p = true ->
  unify p t σ = (Ok (hail_eqb p t), σ).
Proof.
  unfold variable_free, rank_free, union_free, well_formed. revert t σ.
  induction p as [| | | | | | |e k IH|e IH|e IH|k v IHk IHv|fs IH|fs IH|ts IH| |rg|e IH|]
    using HailType_nested_ind; intros t σ Hvf Hrf Huf Hwf;
    simpl in Hvf, Hrf, Huf, Hwf; try discriminate;
    try (simpl; unfold ret; by rewrite (hail_eqb_leaf_sym _ t)).
  - destruct t; simpl; try done. by apply IH.
  - destruct t; simpl; try done. by apply IH.
  - apply andb_prop in Hvf as [? ?]. apply andb_prop in Hrf as [? ?].
    apply andb_prop in Huf as [? ?]. apply andb_prop in Hwf as [? ?].
    destruct t; simpl; try done. unfold and_then, bind.
    rewrite IHk by done. destruct (hail_eqb k t1); simpl; [by apply IHv|done].
  - apply andb_prop in Hwf as [Hnd Hwf]. apply bool_decide_eq_true in Hnd.
    destruct t as [| | | | | | | | | | |gs| | | | | |]; simpl; try done.
    rewrite <- fields_all2_eq by done.
    destruct (negb (length fs =? length gs)%nat); [done|].
    apply unify_zip_pure.
    rewrite forallb_forall in Hvf, Hrf, Huf, Hwf. rewrite Forall_forall in IH |- *.
    intros ft Hin ft' σ'. destruct (String.eqb ft.1 ft'.1); [|done].
    apply IH; [done|..]; [apply Hvf|apply Hrf|apply Huf|apply Hwf];
      by apply list_elem_of_In.
  - destruct t as [| | | | | | | | | | | | |us| | | |]; simpl; try done.
    destruct (negb (length ts =? length us)%nat) eqn:Hlen.
    + apply negb_true_iff in Hlen. by rewrite Hlen.
    + apply negb_false_iff in Hlen. rewrite Hlen. cbn [andb].
      apply unify_zip_pure.
      rewrite forallb_forall in Hvf, Hrf, Huf, Hwf. rewrite Forall_forall in IH |- *.
      intros t Hin t' σ'.
      apply IH; [done|..]; [apply Hvf|apply Hrf|apply Huf|apply Hwf];
        by apply list_elem_of_In.
  - destruct t; simpl; done.
  - destruct t; simpl; try done. by apply IH.
Qed.

Lemma unify_extends (p t : HailType) (σ σ' : store) (r : result bool) :
  rank_free p = true -> unify p t σ = (r, σ') -> extends σ σ'.
Proof.
  unfold rank_free. revert t σ σ' r.
  induction p as [| | | | | | |e k IH|e IH|e IH|k v IHk IHv|fs IH|fs IH|ts IH| |rg|e IH|x cond box]
    using HailType_nested_ind; intros t σ σ' r Hrf;
    simpl in Hrf; try discriminate;
    try (simpl; unfold ret, raise; intros [= <- <-]; apply extends_refl).
  - destruct t; simpl; try (intros [= <- <-]; apply extends_refl). by apply IH.
  - destruct t; simpl; try (intros [= <- <-]; apply extends_refl). by apply IH.
  - apply andb_prop in Hrf as [? ?].
    destruct t; simpl; try (intros [= <- <-]; apply extends_refl).
    unfold and_then, bind. destruct (unify k t1 σ) as [[[|]|e] σ1] eqn:Hk.
    + intros Hv. eapply extends_trans; [by eapply IHk|by eapply IHv].
    + intros [= <- <-]. by eapply IHk.
    + intros [= <- <-]. by eapply IHk.
  - destruct t as [| | | | | | | | | | |gs| | | | | |]; simpl;
      try (intros [= <- <-]; apply extends_refl).
    destruct (negb (length fs =? length gs)%nat);
      [intros [= <- <-]; apply extends_refl|].
    apply unify_zip_extends.
    rewrite forallb_forall in Hrf. rewrite Forall_forall in IH |- *.
    intros ft Hin ft' σ1 r1 σ2. destruct (String.eqb ft.1 ft'.1).
    + apply IH; [done|]. by apply Hrf, list_elem_of_In.
    + intros [= <- <-]. apply extends_refl.
  - destruct t as [| | | | | | | | | | | | |us| | | |]; simpl;
      try (intros [= <- <-]; apply extends_refl).
    destruct (negb (length ts =? length us)%nat);
      [intros [= <- <-]; apply extends_refl|].
    apply unify_zip_extends.
    rewrite forallb_forall in Hrf. rewrite Forall_forall in IH |- *.
    intros t Hin t' σ1 r1 σ2. apply IH; [done|]. by apply Hrf, list_elem_of_In.
  - destruct t; simpl; intros [= <- <-]; apply extends_refl.
  - destruct t; simpl; try (intros [= <- <-]; apply extends_refl). by apply IH.
  - simpl. unfold tvariable_unify. destruct (cond_rejects cond t).
    + intros [= <- <-]. apply extends_refl.
    + intros Hu. pose proof (Box_unify_extends box t σ) as He.
      by rewrite Hu in He.
Qed.

End UnifySubstClear.

Lemma unify_ground_witness :
  unify (H := no_nat_ops) (tstruct [("a", tarray tint32); ("b", tlocus "GRCh37")])
        (tstruct [("a", tarray tint32); ("b", tlocus "GRCh38")]) empty_store
  = (Ok false, empty_store).
Proof.
  exact (unify_ground (H := no_nat_ops)
           (tstruct [("a", tarray tint32); ("b", tlocus "GRCh37")])
           (tstruct [("a", tarray tint32); ("b", tlocus "GRCh38")]) empty_store
           eq_refl eq_refl eq_refl eq_refl).
Defined.


(** *** Substitution *)

Lemma rmapM_impl {A B} (f g : A -> result B) l bs :
  Forall (fun a => forall b, f a = Ok b -> g a = Ok b) l ->
  rmapM f l = Ok bs -> rmapM g l = Ok bs.
Proof.
  intros Hl. revert bs. induction Hl as [|a l Ha _ IH]; intros bs; simpl; [done|].
  destruct (f a) as [b|e] eqn:Hfa; [|done]. rewrite (Ha b eq_refl). simpl.
  destruct (rmapM f l) as [bs'|e]; [|done]. by rewrite (IH bs' eq_refl).
Qed.

Lemma rmapM_id {A} (f : A -> result A) l :
  Forall (fun a => f a = Ok a) l -> rmapM f l = Ok l.
Proof. induction 1 as [|a l Ha _ IH]; simpl; [done|]. by rewrite Ha, IH. Qed.

Lemma rmapM_all {A B} (f : A -> result B) (g : A -> bool) l :
  Forall (fun a => match f a with
                   | Ok _ => g a = true
                   | Raise e => e = AssertionError /\ g a = false
                   end) l ->
  match rmapM f l with
  | Ok _ => forallb g l = true
  | Raise e => e = AssertionError /\ forallb g l = false
  end.
Proof.
  induction 1 as [|a l Ha _ IH]; simpl; [done|].
  destruct (f a) as [b|e]; simpl.
  - rewrite Ha. simpl. by destruct (rmapM f l).
  - destruct Ha as [-> ->]. done.
Qed.

Lemma forallb_flat_map {A B} (g : B -> bool) (f : A -> list B) l :
  forallb g (flat_map f l) = forallb (fun a => forallb g (f a)) l.
Proof.
  induction l as [|a l IH]; simpl; [done|]. by rewrite forallb_app, IH.
Qed.

Section SubstProperties.
Context `{NatSubst}.

(** [subst] gives the same type in a store that has the same values
    bound. *)
Lemma subst_extends (p u : HailType) (σ1 σ2 : store) :
  rank_free p = true -> extends σ1 σ2 -> subst p σ1 = Ok u -> subst p σ2 = Ok u.
Proof.
  unfold rank_free. intros Hrf Hext. revert u Hrf.
  induction p as [| | | | | | |e k IH|e IH|e IH|k v IHk IHv|fs IH|fs IH|ts IH| |rg|e IH|x cond box]
    using HailType_nested_ind; intros u Hrf; simpl in Hrf; try discriminate;
    try (simpl; done).
  - simpl. destruct (subst e σ1) as [e'|] eqn:He; [|done].
    by rewrite (IH e' Hrf eq_refl).
  - simpl. destruct (subst e σ1) as [e'|] eqn:He; [|done].
    by rewrite (IH e' Hrf eq_refl).
  - apply andb_prop in Hrf as [Hk Hv]. simpl.
    destruct (subst k σ1) as [k'|] eqn:Hsk; [|done]. rewrite (IHk k' Hk eq_refl).
    simpl. destruct (subst v σ1) as [v'|] eqn:Hsv; [|done].
    by rewrite (IHv v' Hv eq_refl).
  - simpl.
    destruct (rmapM _ fs) as [us|] eqn:Hus; [|done].
    erewrite rmapM_impl; [done| |exact Hus].
    rewrite forallb_forall in Hrf. rewrite Forall_forall in IH |- *.
    intros ft Hin b. destruct (subst ft.2 σ1) as [u'|] eqn:Hu'; [|done].
    rewrite (IH ft Hin u'); [done| |done]. by apply Hrf, list_elem_of_In.
  - simpl.
    destruct (rmapM _ fs) as [us|] eqn:Hus; [|done].
    erewrite rmapM_impl; [done| |exact Hus].
    rewrite forallb_forall in Hrf. rewrite Forall_forall in IH |- *.
    intros ft Hin b. destruct (subst ft.2 σ1) as [u'|] eqn:Hu'; [|done].
    rewrite (IH ft Hin u'); [done| |done]. by apply Hrf, list_elem_of_In.
  - simpl.
    destruct (rmapM _ ts) as [us|] eqn:Hus; [|done].
    erewrite rmapM_impl; [done| |exact Hus].
    rewrite forallb_forall in Hrf. rewrite Forall_forall in IH |- *.
    intros t Hin b Hb. apply IH; [done| |done]. by apply Hrf, list_elem_of_In.
  - simpl. destruct (subst e σ1) as [e'|] eqn:He; [|done].
    by rewrite (IH e' Hrf eq_refl).
  - simpl. unfold Box_get. destruct Hext as (_ & _ & Hv).
    destruct (heap σ1 !! box) as [[value|]|] eqn:Hb; try done.
    by rewrite (Hv box value Hb).
Qed.

(** X7: on a type without n-dimensional arrays, [subst] returns a type
    exactly when every box of a type variable in it has a value, and
    otherwise fails the assertion of [Box.get]. *)
Theorem subst_succeeds_iff_bound (p : HailType) (σ : store) :
  rank_free p = true ->
  match subst p σ with
  | Ok _ => forallb (fun b => Box_bound b σ) (boxes p) = true
  | Raise e => e = AssertionError /\ forallb (fun b => Box_bound b σ) (boxes p) = false
  end.
Proof.
  unfold rank_free.
  induction p as [| | | | | | |e k IH|e IH|e IH|k v IHk IHv|fs IH|fs IH|ts IH| |rg|e IH|x cond box]
    using HailType_nested_ind; intros Hrf; simpl in Hrf; try discriminate;
    try (simpl; done).
  - simpl. specialize (IH Hrf). by destruct (subst e σ).
  - simpl. specialize (IH Hrf). by destruct (subst e σ).
  - apply andb_prop in Hrf as [Hk Hv]. specialize (IHk Hk). specialize (IHv Hv).
    simpl. rewrite forallb_app.
    destruct (subst k σ); simpl.
    + rewrite IHk. simpl. by destruct (subst v σ).
    + destruct IHk as [-> ->]. done.
  - simpl. rewrite forallb_flat_map.
    rewrite forallb_forall in Hrf. rewrite Forall_forall in IH.
    match goal with
    | |- context [rmapM ?f fs] =>
        pose proof (rmapM_all f (fun ft => forallb (fun b => Box_bound b σ) (boxes ft.2)) fs) as Hall
    end.
    destruct (rmapM _ fs); simpl; apply Hall; apply Forall_forall; intros ft Hin;
      (specialize (IH ft Hin (Hrf ft (proj1 (list_elem_of_In _ _) Hin))));
      by destruct (subst ft.2 σ).
  - simpl. rewrite forallb_flat_map.
    rewrite forallb_forall in Hrf. rewrite Forall_forall in IH.
    match goal with
    | |- context [rmapM ?f fs] =>
        pose proof (rmapM_all f (fun ft => forallb (fun b => Box_bound b σ) (boxes ft.2)) fs) as Hall
    end.
    destruct (rmapM _ fs); simpl; apply Hall; apply Forall_forall; intros ft Hin;
      (specialize (IH ft Hin (Hrf ft (proj1 (list_elem_of_In _ _) Hin))));
      by destruct (subst ft.2 σ).
  - simpl. rewrite forallb_flat_map.
    rewrite forallb_forall in Hrf. rewrite Forall_forall in IH.
    match goal with
    | |- context [rmapM ?f ts] =>
        pose proof (rmapM_all f (fun t => forallb (fun b => Box_bound b σ) (boxes t)) ts) as Hall
    end.
    destruct (rmapM _ ts); simpl; apply Hall; apply Forall_forall; intros t Hin;
      exact (IH t Hin (Hrf t (proj1 (list_elem_of_In _ _) Hin))).
  - simpl. specialize (IH Hrf). by destruct (subst e σ).
  - simpl. unfold Box_get, Box_bound. by destruct (heap σ !! box) as [[value|]|].
Qed.

(** X8: [subst] leaves a type without type variables and n-dimensional
    arrays as it is, in every store. *)
Theorem subst_ground (p : HailType) (σ : store) :
  variable_free p = true -> rank_free p = true -> subst p σ = Ok p.
Proof.
  unfold variable_free, rank_free.
  induction p as [| | | | | | |e k IH|e IH|e IH|k v IHk IHv|fs IH|fs IH|ts IH| |rg|e IH|x cond box]
    using HailType_nested_ind; intros Hvf Hrf; simpl in Hvf, Hrf; try discriminate;
    try (simpl; done).
  - simpl. by rewrite IH.
  - simpl. by rewrite IH.
  - apply andb_prop in Hvf as [? ?]. apply andb_prop in Hrf as [? ?].
    simpl. by rewrite IHk, IHv.
  - simpl. rewrite rmapM_id; [done|].
    rewrite forallb_forall in Hvf, Hrf. rewrite Forall_forall in IH |- *.
    intros [f t] Hin. pose proof (IH (f, t) Hin) as IHt. simpl in IHt |- *.
    rewrite IHt; [done|..];
      [apply (Hvf (f, t))|apply (Hrf (f, t))]; by apply list_elem_of_In.
  - simpl. rewrite rmapM_id; [done|].
    rewrite forallb_forall in Hvf, Hrf. rewrite Forall_forall in IH |- *.
    intros [f t] Hin. pose proof (IH (f, t) Hin) as IHt. simpl in IHt |- *.
    rewrite IHt; [done|..];
      [apply (Hvf (f, t))|apply (Hrf (f, t))]; by apply list_elem_of_In.
  - simpl. rewrite rmapM_id; [done|].
    rewrite forallb_forall in Hvf, Hrf. rewrite Forall_forall in IH |- *.
    intros t Hin. apply IH; [done|..]; [apply Hvf|apply Hrf]; by apply list_elem_of_In.
  - simpl. by rewrite IH.
Qed.
End SubstProperties.

Lemma subst_succeeds_iff_bound_witness :
  subst (H := no_nat_subst) (tdict (tvariable "k" None 0) (tvariable "v" None 1))
        (Store ∅ [Some tstr; None]) = Raise AssertionError.
Proof.
  pose proof (subst_succeeds_iff_bound (H := no_nat_subst)
                (tdict (tvariable "k" None 0) (tvariable "v" None 1))
                (Store ∅ [Some tstr; None]) eq_refl) as Hs.
  destruct (subst _ _) as [u|e]; [discriminate Hs|].
  destruct Hs as [-> _]. reflexivity.
Defined.

Lemma subst_ground_witness :
  subst (H := no_nat_subst) (tstruct [("a", tarray tint32); ("b", tlocus "GRCh37")])
        empty_store
  = Ok (tstruct [("a", tarray tint32); ("b", tlocus "GRCh37")]).
Proof.
  exact (subst_ground (H := no_nat_subst)
           (tstruct [("a", tarray tint32); ("b", tlocus "GRCh37")]) empty_store
           eq_refl eq_refl).
Defined.

(** *** Unification followed by substitution *)

Lemma Forall_impl_elem_both {A} (P Q R : A -> Prop) l :
  Forall P l -> Forall Q l -> (forall x, P x -> Q x -> R x) -> Forall R l.
Proof.
  intros HP HQ Himpl. induction HP as [|x l Hx _ IH]; [constructor|].
  apply Forall_cons in HQ as [? ?]. constructor; [by apply Himpl|by apply IH].
Qed.

Lemma unify_zip_subst {A B} (pu : A -> A -> M bool) (ps : A -> store -> result B)
    (R : B -> A -> Prop) (good : A -> store -> Prop) (Q : A -> Prop) xs ys σ σ' :
  Forall (fun x =>
            (forall y σ r σ', pu x y σ = (r, σ') -> extends σ σ')
            /\ (forall σ1 σ2 b, extends σ1 σ2 -> ps x σ1 = Ok b -> ps x σ2 = Ok b)
            /\ (forall σ1 σ2, extends σ1 σ2 -> good x σ1 -> good x σ2)
            /\ (forall y σ σ', Q y -> good x σ -> pu x y σ = (Ok true, σ') ->
                  exists b, ps x σ' = Ok b /\ R b y)) xs ->
  Forall (fun x => good x σ) xs -> Forall Q ys -> length xs = length ys ->
  unify_zip pu xs ys σ = (Ok true, σ') ->
  exists bs, rmapM (fun x => ps x σ') xs = Ok bs /\ Forall2 R bs ys.
Proof.
  intros Hxs. revert ys σ.
  induction Hxs as [|x xs (Hext & Hmono & Hgood & Hx) Hxs IH];
    intros [|y ys] σ Hg HQ Hlen; simpl in Hlen; try lia.
  { intros _. exists []. by split; [|constructor]. }
  apply Forall_cons in Hg as [Hgx Hgxs]. apply Forall_cons in HQ as [HQy HQys].
  cbn [unify_zip]. unfold bind.
  destruct (pu x y σ) as [[[|]|e] σ1] eqn:Hu; cbn [negb]; try discriminate.
  intros Hz.
  destruct (Hx y σ σ1 HQy Hgx Hu) as (b & Hb & HR).
  assert (extends σ1 σ') as Hext1.
  { eapply unify_zip_extends; [|exact Hz].
    eapply Forall_impl; [exact Hxs|]. by intros x' (? & _). }
  destruct (IH ys σ1) as (bs & Hbs & HRs); [|done|lia|done|].
  { eapply Forall_impl_elem_both; [exact Hxs|exact Hgxs|].
    intros x' (_ & _ & Hgood' & _) Hg'. eapply Hgood'; [|exact Hg']. by eapply Hext. }
  exists (b :: bs). simpl. rewrite (Hmono σ1 σ' b Hext1 Hb), Hbs.
  split; [done|]. by constructor.
Qed.

Lemma allocated_extends (p : HailType) (σ1 σ2 : store) :
  extends σ1 σ2 -> allocated p σ1 = true -> allocated p σ2 = true.
Proof. intros (_ & Hlen & _). unfold allocated. by rewrite Hlen. Qed.

Section UnifyThenSubst.
Context `{NatOps} `{NatSubst}.

(** X9: when [unify] answers [True] for a candidate without type
    variables, [subst] on the pattern then returns a type equal to the
    candidate.  The pattern has no n-dimensional array and its boxes are
    objects of the store; the structs and unions of the candidate have
    pairwise distinct names. *)
Theorem unify_then_subst (p t : HailType) (σ σ' : store) :
  rank_free p = true -> allocated p σ = true ->
  variable_free t = true -> well_formed t = true ->
  unify p t σ = (Ok true, σ') ->
  exists u, subst p σ' = Ok u /\ hail_eqb u t = true.
Proof.
  revert t σ σ'.
  induction p as [| | | | | | |e k IH|e IH|e IH|k v IHk IHv|fs IH|fs IH|ts IH| |rg|e IH|x cond box]
    using HailType_nested_ind; intros t σ σ' Hrf Hal Hvf Hwf;
    try (by (unfold rank_free in Hrf; simpl in Hrf));
    try (simpl; unfold ret; intros [= Heq <-]; eexists; split; [reflexivity|];
         by rewrite <- hail_eqb_leaf_sym by reflexivity).
  - destruct t; simpl; try discriminate. intros Hu.
    destruct (IH t σ σ' Hrf Hal Hvf Hwf Hu) as (u & Hs & He).
    exists (tarray u). by rewrite Hs.
  - destruct t; simpl; try discriminate. intros Hu.
    destruct (IH t σ σ' Hrf Hal Hvf Hwf Hu) as (u & Hs & He).
    exists (tset u). by rewrite Hs.
  - destruct t as [| | | | | | | | | |k' v'| | | | | | |]; simpl; try discriminate.
    unfold rank_free, variable_free, well_formed in Hrf, Hvf, Hwf.
    simpl in Hrf, Hvf, Hwf.
    apply andb_prop in Hrf as [Hrk Hrv]. apply andb_prop in Hvf as [Hvk Hvv].
    apply andb_prop in Hwf as [Hwk Hwv].
    unfold allocated in Hal. simpl in Hal. rewrite forallb_app in Hal.
    apply andb_prop in Hal as [Hak Hav].
    unfold and_then, bind.
    destruct (unify k k' σ) as [[[|]|e] σ1] eqn:Hk; try discriminate. intros Hv.
    destruct (IHk k' σ σ1 Hrk Hak Hvk Hwk Hk) as (uk & Hsk & Hek).
    pose proof (unify_extends k k' σ σ1 _ Hrk Hk) as Hext.
    pose proof (unify_extends v v' σ1 σ' _ Hrv Hv) as Hext1.
    destruct (IHv v' σ1 σ' Hrv (allocated_extends v _ _ Hext Hav) Hvv Hwv Hv)
      as (uv & Hsv & Hev).
    exists (tdict uk uv). rewrite (subst_extends k uk σ1 σ' Hrk Hext1 Hsk), Hsv.
    simpl. by rewrite Hek, Hev.
  - destruct t as [| | | | | | | | | | |gs| | | | | |]; simpl; try discriminate.
    destruct (Nat.eqb_spec (length fs) (length gs)) as [Hlen|]; [|discriminate].
    cbn [negb]. intros Hz.
    unfold rank_free, variable_free, well_formed in Hrf, Hvf, Hwf.
    simpl in Hrf, Hvf, Hwf. apply andb_prop in Hwf as [Hnd Hwf].
    apply bool_decide_eq_true in Hnd.
    unfold allocated in Hal. simpl in Hal. rewrite forallb_flat_map in Hal.
    rewrite forallb_forall in Hrf, Hvf, Hwf, Hal.
    destruct (unify_zip_subst
                (fun ft1 ft2 : string * HailType =>
                   if String.eqb ft1.1 ft2.1 then unify ft1.2 ft2.2 else ret false)
                (fun (ft : string * HailType) σ =>
                   rbind (subst ft.2 σ) (fun u => Ok (ft.1, u)))
                (fun ft1 ft2 : string * HailType =>
                   String.eqb ft1.1 ft2.1 && hail_eqb ft1.2 ft2.2 = true)
                (fun ft σ => allocated ft.2 σ = true)
                (fun ft => variable_free ft.2 = true /\ well_formed ft.2 = true)
                fs gs σ σ') as (us & Hus & HR); [| | |done|exact Hz|].
    + rewrite Forall_forall in IH |- *. intros ft Hin.
      assert (rank_free ft.2 = true) as Hrft by by apply Hrf, list_elem_of_In.
      split; [|split; [|split]].
      * intros ft' σ1 r σ2. destruct (String.eqb ft.1 ft'.1).
        -- by apply unify_extends.
        -- intros [= <- <-]. apply extends_refl.
      * intros σ1 σ2 b Hext. destruct (subst ft.2 σ1) as [u|] eqn:Hu; [|done].
        by rewrite (subst_extends ft.2 u σ1 σ2 Hrft Hext Hu).
      * intros σ1 σ2 Hext. by apply allocated_extends.
      * intros ft' σ1 σ2 [Hvf' Hwf'] Hal'.
        destruct (String.eqb ft.1 ft'.1) eqn:Hname; [|discriminate].
        intros Hu. destruct (IH ft Hin ft'.2 σ1 σ2 Hrft Hal' Hvf' Hwf' Hu)
          as (u & Hs & He).
        exists (ft.1, u). rewrite Hs. simpl. by rewrite Hname, He.
    + apply Forall_forall. intros ft Hin. by apply Hal, list_elem_of_In.
    + apply Forall_forall. intros ft Hin.
      split; [apply Hvf|apply Hwf]; by apply list_elem_of_In.
    + exists (tstruct us). rewrite Hus. split; [done|]. simpl.
      apply fields_Forall2_split in HR as [Hnames Htypes].
      apply fields_eq_spec; [by rewrite Hnames|done].
  - destruct t as [| | | | | | | | | | | | |us| | | |]; simpl; try discriminate.
    destruct (Nat.eqb_spec (length ts) (length us)) as [Hlen|]; [|discriminate].
    cbn [negb]. intros Hz.
    unfold rank_free, variable_free, well_formed in Hrf, Hvf, Hwf.
    simpl in Hrf, Hvf, Hwf.
    unfold allocated in Hal. simpl in Hal. rewrite forallb_flat_map in Hal.
    rewrite forallb_forall in Hrf, Hvf, Hwf, Hal.
    destruct (unify_zip_subst unify subst
                (fun u t : HailType => hail_eqb u t = true)
                (fun t σ => allocated t σ = true)
                (fun t => variable_free t = true /\ well_formed t = true)
                ts us σ σ') as (vs & Hvs & HR); [| | |done|exact Hz|].
    + rewrite Forall_forall in IH |- *. intros t Hin.
      assert (rank_free t = true) as Hrft by by apply Hrf, list_elem_of_In.
      split; [|split; [|split]].
      * intros t' σ1 r σ2. by apply unify_extends.
      * intros σ1 σ2 b Hext. by apply subst_extends.
      * intros σ1 σ2 Hext. by apply allocated_extends.
      * intros t' σ1 σ2 [Hvf' Hwf'] Hal'. by apply IH.
    + apply Forall_forall. intros t Hin. by apply Hal, list_elem_of_In.
    + apply Forall_forall. intros t Hin.
      split; [apply Hvf|apply Hwf]; by apply list_elem_of_In.
    + exists (ttuple vs). rewrite Hvs. split; [done|]. simpl.
      pose proof (Forall2_length _ _ _ HR) as Hlen'. rewrite Hlen', Nat.eqb_refl.
      simpl. by apply all2_Forall2.
  - destruct t; simpl; try discriminate. unfold ret. intros [= Heq <-].
    eexists. split; [reflexivity|]. done.
  - destruct t; simpl; try discriminate. intros Hu.
    destruct (IH t σ σ' Hrf Hal Hvf Hwf Hu) as (u & Hs & He).
    exists (tinterval u). by rewrite Hs.
  - simpl. unfold tvariable_unify. destruct (cond_rejects cond t); [discriminate|].
    unfold Box_unify, Box_get. unfold allocated in Hal. simpl in Hal.
    rewrite andb_true_r in Hal. apply Nat.ltb_lt in Hal.
    destruct (heap σ !! box) as [[value|]|] eqn:Hb.
    + intros [= Heq <-]. rewrite Hb. by exists value.
    + intros [= <-]. simpl. rewrite list_lookup_insert_eq by done.
      exists t. split; [done|]. by apply hail_eqb_refl_spec.
    + apply lookup_ge_None in Hb.
      destruct (Nat.lt_irrefl box). by eapply Nat.lt_le_trans.
Qed.
End UnifyThenSubst.

Lemma unify_then_subst_witness :
  exists u,
    subst (H := no_nat_subst)
          (tdict (tvariable "k" None 0) (tarray (tvariable "v" (Some c_numeric) 1)))
          (Store ∅ [Some tstr; Some tint32]) = Ok u
    /\ hail_eqb u (tdict tstr (tarray tint32)) = true.
Proof.
  exact (unify_then_subst (H := no_nat_ops) (H0 := no_nat_subst)
           (tdict (tvariable "k" None 0) (tarray (tvariable "v" (Some c_numeric) 1)))
           (tdict tstr (tarray tint32))
           (Store ∅ [None; None]) (Store ∅ [Some tstr; Some tint32])
           eq_refl eq_refl eq_refl eq_refl eq_refl).
Defined.

(** *** Repeating a unification *)


Section UnifyIdempotent.
Context `{NatOps}.


End UnifyIdempotent.


(** *** Clearing *)

Lemma cleared_nil σ : cleared [] σ σ.
Proof. split; [done|]. intros l. by rewrite bool_decide_eq_false_2 by apply not_elem_of_nil. Qed.

Lemma cleared_app L1 L2 σ σ1 σ2 :
  cleared L1 σ σ1 -> cleared L2 σ1 σ2 -> cleared (L1 ++ L2) σ σ2.
Proof.
  intros [Hn1 Hh1] [Hn2 Hh2]. split; [congruence|]. intros l.
  rewrite Hh2, !Hh1.
  destruct (decide (l ∈ L1)) as [H1|H1], (decide (l ∈ L2)) as [H2|H2];
    rewrite ?(bool_decide_eq_true_2 _ H1), ?(bool_decide_eq_false_2 _ H1),
      ?(bool_decide_eq_true_2 _ H2), ?(bool_decide_eq_false_2 _ H2).
  - rewrite bool_decide_eq_true_2 by (apply elem_of_app; by left).
    by rewrite <- option_fmap_compose.
  - by rewrite bool_decide_eq_true_2 by (apply elem_of_app; by left).
  - by rewrite bool_decide_eq_true_2 by (apply elem_of_app; by right).
  - rewrite bool_decide_eq_false_2; [done|].
    rewrite elem_of_app. by intros [?|?].
Qed.

Lemma Box_clear_cleared b σ : cleared [b] σ (Box_clear b σ).
Proof.
  unfold Box_clear. split.
  { by destruct (heap σ !! b) as [[value|]|]. }
  intros l. destruct (decide (l = b)) as [->|Hne].
  - rewrite bool_decide_eq_true_2 by apply list_elem_of_here.
    destruct (heap σ !! b) as [[value|]|] eqn:Hb; simpl; rewrite ?Hb; try done.
    apply list_lookup_insert_eq. by eapply lookup_lt_Some.
  - rewrite bool_decide_eq_false_2 by by rewrite list_elem_of_singleton.
    destruct (heap σ !! b) as [[value|]|] eqn:Hb; simpl; try done.
    by rewrite list_lookup_insert_ne.
Qed.

Section ClearProperties.
Context `{NatOps}.

Lemma clear_cleared (p : HailType) (σ : store) :
  rank_free p = true -> cleared (boxes p) σ (clear p σ).
Proof.
  unfold rank_free. revert σ.
  induction p as [| | | | | | |e k IH|e IH|e IH|k v IHk IHv|fs IH|fs IH|ts IH| |rg|e IH|x cond box]
    using HailType_nested_ind; intros σ Hrf; simpl in Hrf; try discriminate;
    try (simpl; apply cleared_nil).
  - simpl. by apply IH.
  - simpl. by apply IH.
  - apply andb_prop in Hrf as [Hk Hv]. simpl.
    eapply cleared_app; [by apply IHk|by apply IHv].
  - simpl. rewrite forallb_forall in Hrf.
    assert (Forall (fun ft : string * HailType =>
                      forall σ, cleared (boxes ft.2) σ (clear ft.2 σ)) fs) as Hfs.
    { rewrite Forall_forall in IH |- *. intros ft Hin σ1.
      apply IH; [done|]. by apply Hrf, list_elem_of_In. }
    clear IH Hrf. revert σ.
    induction Hfs as [|[f t] fs Ht _ IHfs]; intros σ; simpl; [apply cleared_nil|].
    eapply cleared_app; [apply Ht|apply IHfs].
  - simpl. rewrite forallb_forall in Hrf.
    assert (Forall (fun ft : string * HailType =>
                      forall σ, cleared (boxes ft.2) σ (clear ft.2 σ)) fs) as Hfs.
    { rewrite Forall_forall in IH |- *. intros ft Hin σ1.
      apply IH; [done|]. by apply Hrf, list_elem_of_In. }
    clear IH Hrf. revert σ.
    induction Hfs as [|[f t] fs Ht _ IHfs]; intros σ; simpl; [apply cleared_nil|].
    eapply cleared_app; [apply Ht|apply IHfs].
  - simpl. rewrite forallb_forall in Hrf.
    assert (Forall (fun t => forall σ, cleared (boxes t) σ (clear t σ)) ts) as Hts.
    { rewrite Forall_forall in IH |- *. intros t Hin σ1.
      apply IH; [done|]. by apply Hrf, list_elem_of_In. }
    clear IH Hrf. revert σ.
    induction Hts as [|t ts Ht _ IHts]; intros σ; simpl; [apply cleared_nil|].
    eapply cleared_app; [apply Ht|apply IHts].
  - simpl. by apply IH.
  - simpl. apply Box_clear_cleared.
Qed.

(** X11: [clear] on a type without n-dimensional arrays takes the value
    from the box of every type variable in it, and changes nothing else:
    the registry and every other box are as before. *)
Theorem clear_unbinds (p : HailType) (σ : store) :
  rank_free p = true ->
  named_boxes (clear p σ) = named_boxes σ
  /\ (forall b, b ∈ boxes p -> Box_bound b (clear p σ) = false)
  /\ (forall l : loc, l ∉ boxes p -> heap (clear p σ) !! l = heap σ !! l).
Proof.
  intros Hrf. destruct (clear_cleared p σ Hrf) as [Hn Hh]. split; [done|]. split.
  - intros b Hb. unfold Box_bound. rewrite Hh, bool_decide_eq_true_2 by done.
    by destruct (heap σ !! b).
  - intros l Hl. by rewrite Hh, bool_decide_eq_false_2.
Qed.
End ClearProperties.

Lemma clear_unbinds_witness :
  Box_bound 1 (clear (H := no_nat_ops)
                 (tstruct [("a", tvariable "x" None 1); ("b", tint32)])
                 (Store ∅ [Some tstr; Some tint32])) = false.
Proof.
  exact (proj1 (proj2 (clear_unbinds (H := no_nat_ops)
                         (tstruct [("a", tvariable "x" None 1); ("b", tint32)])
                         (Store ∅ [Some tstr; Some tint32]) eq_refl))
               1 ltac:(apply list_elem_of_here)).
Defined.

(** ** The context of a type *)

Lemma rmapM_raise {A B} (f : A -> result B) (e : exn) l :
  Forall (fun a => (exists b, f a = Ok b) \/ f a = Raise e) l ->
  Exists (fun a => f a = Raise e) l ->
  rmapM f l = Raise e.
Proof.
  induction 1 as [|a l Ha Hl IH]; [by inversion 1|].
  intros Hex. simpl. destruct Ha as [[b Hb]|Ha]; [|by rewrite Ha].
  rewrite Hb. simpl. apply Exists_cons in Hex as [Hex|Hex]; [congruence|].
  by rewrite IH.
Qed.

(** The references of [HailTypeContext.union] are those of the contexts it
    is given. *)
Lemma HailTypeContext_union_spec {A} (gc : A -> result (gset string)) types all :
  rmapM gc types = Ok all ->
  exists X, HailTypeContext_union gc types = Ok X
            /\ forall rg, rg ∈ X <-> exists c, c ∈ all /\ rg ∈ c.
Proof.
  intros Hall. unfold HailTypeContext_union. rewrite Hall. simpl.
  set (ctxs := List.filter _ all).
  assert (forall rg, (exists c, c ∈ ctxs /\ rg ∈ c) <-> exists c, c ∈ all /\ rg ∈ c)
    as Hfilter.
  { intros rg. split; intros (c & Hc & Hrg); exists c; (split; [|done]).
    - apply list_elem_of_In in Hc. apply filter_In in Hc as [Hc _].
      by apply list_elem_of_In.
    - apply list_elem_of_In, filter_In. split; [by apply list_elem_of_In|].
      apply negb_true_iff, bool_decide_eq_false. intros ->.
      by apply not_elem_of_empty in Hrg. }
  assert (exists X, match ctxs with
                    | [] => Ok ∅
                    | [c] => Ok c
                    | c :: cs => Ok (c ∪ ⋃ cs)
                    end = Ok X
                    /\ forall rg, rg ∈ X <-> exists c, c ∈ ctxs /\ rg ∈ c)
    as (X & HX & Hspec).
  { destruct ctxs as [|c [|c' cs]].
    - exists ∅. split; [done|]. intros rg. split; [by intros ?%not_elem_of_empty|].
      by intros (c & ?%not_elem_of_nil & _).
    - exists c. split; [done|]. intros rg. split.
      + intros Hrg. exists c. split; [apply list_elem_of_here|done].
      + by intros (c' & ->%list_elem_of_singleton & Hrg).
    - exists (c ∪ ⋃ (c' :: cs)). split; [done|]. intros rg.
      rewrite elem_of_union, elem_of_union_list. split.
      + intros [Hrg|(c'' & Hc'' & Hrg)].
        * exists c. split; [apply list_elem_of_here|done].
        * exists c''. split; [by apply list_elem_of_further|done].
      + intros (c'' & Hc'' & Hrg). apply elem_of_cons in Hc'' as [->|Hc''].
        * by left.
        * right. by exists c''. }
  exists X. split; [done|]. intros rg. by rewrite Hspec, Hfilter.
Qed.

Lemma occurs_locus_inv rg t :
  occurs (tlocus rg) t <->
  match t with
  | tlocus rg' => rg = rg'
  | tndarray e _ | tarray e | tset e | tinterval e => occurs (tlocus rg) e
  | tdict k v => occurs (tlocus rg) k \/ occurs (tlocus rg) v
  | tstruct fs | tunion fs => exists ft, ft ∈ fs /\ occurs (tlocus rg) ft.2
  | ttuple ts => exists t, t ∈ ts /\ occurs (tlocus rg) t
  | _ => False
  end.
Proof.
  split.
  - inversion 1; subst; try done; try (by left); try (by right);
      try (by eexists (_, _)); by eexists.
  - destruct t; try done; try (by constructor).
    + intros [?|?]; [by apply occurs_dict_key|by apply occurs_dict_value].
    + intros ([f t] & ? & ?). by eapply occurs_struct.
    + intros ([f t] & ? & ?). by eapply occurs_union.
    + intros (t & ? & ?). by eapply occurs_tuple.
    + intros ->. constructor.
Qed.

(** What [get_context] gives on the types of a list, from what it gives on
    each. *)
Lemma get_context_list {A} (ty : A -> HailType) (l : list A) :
  Forall (fun a =>
            if variable_free (ty a)
            then exists X, get_context (ty a) = Ok X
                           /\ forall rg, rg ∈ X <-> occurs (tlocus rg) (ty a)
            else get_context (ty a) = Raise AttributeError) l ->
  if forallb (fun a => variable_free (ty a)) l
  then exists X, HailTypeContext_union (fun a => get_context (ty a)) l = Ok X
                 /\ forall rg, rg ∈ X <-> exists a, a ∈ l /\ occurs (tlocus rg) (ty a)
  else HailTypeContext_union (fun a => get_context (ty a)) l = Raise AttributeError.
Proof.
  intros Hl. destruct (forallb _ l) eqn:Hvf.
  - rewrite forallb_forall in Hvf.
    destruct (rmapM_Forall2 (fun a => get_context (ty a))
                (fun a X => forall rg, rg ∈ X <-> occurs (tlocus rg) (ty a)) l)
      as (all & Hall & Hspec).
    { rewrite Forall_forall in Hl |- *. intros a Hin. specialize (Hl a Hin).
      by rewrite (Hvf a) in Hl by by apply list_elem_of_In. }
    destruct (HailTypeContext_union_spec _ l all Hall) as (X & HX & HXspec).
    exists X. split; [done|]. intros rg. rewrite HXspec. split.
    + intros (c & Hc & Hrg).
      apply list_elem_of_lookup in Hc as [i Hi].
      destruct (Forall2_lookup_r _ _ _ _ _ Hspec Hi) as (a & Ha & Hac).
      exists a. split; [by eapply list_elem_of_lookup_2|]. by apply Hac.
    + intros (a & Ha & Hrg).
      apply list_elem_of_lookup in Ha as [i Hi].
      destruct (Forall2_lookup_l _ _ _ _ _ Hspec Hi) as (c & Hc & Hac).
      exists c. split; [by eapply list_elem_of_lookup_2|]. by apply Hac.
  - unfold HailTypeContext_union. rewrite (rmapM_raise _ AttributeError); [done| |].
    + eapply Forall_impl; [exact Hl|]. intros a Ha. simpl in Ha.
      destruct (variable_free (ty a)); [|by right].
      destruct Ha as (X & HX & _). left. by exists X.
    + apply not_true_iff_false in Hvf. rewrite forallb_forall in Hvf.
      apply Exists_exists.
      destruct (decide (Forall (fun a => variable_free (ty a) = true) l)) as [Hall|Hex].
      { destruct Hvf. intros a Ha. rewrite Forall_forall in Hall.
        by apply Hall, list_elem_of_In. }
      apply not_Forall_Exists in Hex; [|intros a; apply _].
      apply Exists_exists in Hex as (a & Ha & Hna).
      exists a. split; [done|]. rewrite Forall_forall in Hl. specialize (Hl a Ha).
      simpl in Hna. by destruct (variable_free (ty a)).
Qed.

(** X12: [get_context] collects the reference genomes of the locus types
    that occur in a type, and nothing else; on a type in which a type
    variable occurs it raises [AttributeError], since a type variable has no
    attribute [_context]. *)
Theorem get_context_spec (t : HailType) :
  if variable_free t
  then exists X, get_context t = Ok X
                 /\ forall rg, rg ∈ X <-> occurs (tlocus rg) t
  else get_context t = Raise AttributeError.
Proof.
  induction t as [| | | | | | |e k IH|e IH|e IH|k v IHk IHv|fs IH|fs IH|ts IH| |rg|e IH|x cond box]
    using HailType_nested_ind;
    try (simpl; exists ∅; split; [done|]; intros rg';
         rewrite occurs_locus_inv; by rewrite elem_of_empty).
  - change (variable_free (tndarray e k)) with (variable_free e). simpl.
    destruct (variable_free e); [|done]. destruct IH as (X & HX & Hspec).
    exists X. split; [done|]. intros rg. by rewrite occurs_locus_inv.
  - change (variable_free (tarray e)) with (variable_free e). simpl.
    destruct (variable_free e); [|done]. destruct IH as (X & HX & Hspec).
    exists X. split; [done|]. intros rg. by rewrite occurs_locus_inv.
  - change (variable_free (tset e)) with (variable_free e). simpl.
    destruct (variable_free e); [|done]. destruct IH as (X & HX & Hspec).
    exists X. split; [done|]. intros rg. by rewrite occurs_locus_inv.
  - pose proof (get_context_list id [k; v]) as Hl. simpl in Hl.
    change (variable_free (tdict k v)) with (variable_free k && variable_free v).
    rewrite andb_true_r in Hl.
    destruct (variable_free k && variable_free v).
    + destruct Hl as (X & HX & Hspec); [by repeat constructor|].
      exists X. split; [done|]. intros rg. rewrite Hspec, occurs_locus_inv. split.
      * intros (a & Ha & Hrg). apply elem_of_cons in Ha as [->|Ha]; [by left|].
        apply list_elem_of_singleton in Ha as ->. by right.
      * intros [Hrg|Hrg]; [exists k|exists v]; (split; [|done]).
        -- apply list_elem_of_here.
        -- apply list_elem_of_further, list_elem_of_here.
    + apply Hl. by repeat constructor.
  - pose proof (get_context_list snd fs IH) as Hl.
    change (variable_free (tstruct fs))
      with (forallb (fun ft : string * HailType => variable_free ft.2) fs).
    simpl. destruct (forallb _ fs); [|done].
    destruct Hl as (X & HX & Hspec). exists X. split; [done|].
    intros rg. by rewrite Hspec, occurs_locus_inv.
  - pose proof (get_context_list snd fs IH) as Hl.
    change (variable_free (tunion fs))
      with (forallb (fun ft : string * HailType => variable_free ft.2) fs).
    simpl. destruct (forallb _ fs); [|done].
    destruct Hl as (X & HX & Hspec). exists X. split; [done|].
    intros rg. by rewrite Hspec, occurs_locus_inv.
  - pose proof (get_context_list id ts IH) as Hl.
    change (variable_free (ttuple ts)) with (forallb variable_free ts).
    simpl. destruct (forallb _ ts); [|done].
    destruct Hl as (X & HX & Hspec). exists X. split; [done|].
    intros rg. by rewrite Hspec, occurs_locus_inv.
  - simpl. exists {[ rg ]}. split; [done|]. intros rg'.
    by rewrite occurs_locus_inv, elem_of_singleton.
  - change (variable_free (tinterval e)) with (variable_free e). simpl.
    destruct (variable_free e); [|done]. destruct IH as (X & HX & Hspec).
    exists X. split; [done|]. intros rg. by rewrite occurs_locus_inv.
  - done.
Qed.

(** ** Operations on the fields of a struct *)

Lemma field_lookup_setitem g d f t :
  field_lookup g (fields_setitem d f t) =
    if String.eqb g f then Some t else field_lookup g d.
Proof.
  induction d as [|[h u] d IH]; simpl.
  { by destruct (String.eqb g f). }
  destruct (String.eqb_spec h f) as [->|Hhf]; simpl.
  - by destruct (String.eqb g f).
  - destruct (String.eqb_spec g h) as [->|Hgh]; [|done].
    by destruct (String.eqb_spec h f).
Qed.

Lemma field_lookup_None f d : field_lookup f d = None <-> f ∉ d.*1.
Proof.
  induction d as [|[g u] d IH]; simpl.
  { split; [intros _; apply not_elem_of_nil|done]. }
  rewrite not_elem_of_cons. destruct (String.eqb_spec f g) as [->|Hne].
  - split; [done|]. by intros [? _].
  - rewrite IH. tauto.
Qed.

Lemma field_lookup_elem f t d : field_lookup f d = Some t -> (f, t) ∈ d.
Proof.
  induction d as [|[g u] d IH]; simpl; [done|].
  destruct (String.eqb_spec f g) as [->|Hne].
  - intros [= ->]. apply list_elem_of_here.
  - intros Hf. by apply list_elem_of_further, IH.
Qed.

Lemma names_setitem d f t :
  (fields_setitem d f t).*1 = if bool_decide (f ∈ d.*1) then d.*1 else d.*1 ++ [f].
Proof.
  induction d as [|[g u] d IH]; cbn [fields_setitem].
  { by rewrite bool_decide_eq_false_2 by apply not_elem_of_nil. }
  destruct (String.eqb_spec g f) as [->|Hne]; rewrite !fmap_cons; cbn [fst].
  - by rewrite bool_decide_eq_true_2 by apply list_elem_of_here.
  - rewrite IH. destruct (decide (f ∈ d.*1)) as [Hin|Hin].
    + rewrite !bool_decide_eq_true_2; [done|by apply list_elem_of_further|done].
    + rewrite !bool_decide_eq_false_2; [done| |done].
      rewrite not_elem_of_cons. by split; [congruence|].
Qed.

Lemma NoDup_setitem d f t : NoDup (d.*1) -> NoDup ((fields_setitem d f t).*1).
Proof.
  intros Hnd. rewrite names_setitem. case_bool_decide as Hin; [done|].
  apply NoDup_app. split; [done|]. split; [|apply NoDup_singleton].
  intros g Hg ->%list_elem_of_singleton. done.
Qed.

Lemma fields_update_cons d f t new :
  fields_update d ((f, t) :: new) = fields_update (fields_setitem d f t) new.
Proof. done. Qed.

Lemma NoDup_update d new : NoDup (d.*1) -> NoDup ((fields_update d new).*1).
Proof.
  revert d. induction new as [|[f t] new IH]; intros d Hnd; [done|].
  rewrite fields_update_cons. by apply IH, NoDup_setitem.
Qed.

Lemma names_update_prefix d new : exists k, (fields_update d new).*1 = d.*1 ++ k.
Proof.
  revert d. induction new as [|[f t] new IH]; intros d.
  { exists []. by rewrite app_nil_r. }
  rewrite fields_update_cons.
  destruct (IH (fields_setitem d f t)) as [k Hk].
  rewrite Hk, names_setitem. case_bool_decide; [by exists k|].
  exists ([f] ++ k). by rewrite app_assoc.
Qed.

Lemma field_lookup_update g d new :
  NoDup (new.*1) ->
  field_lookup g (fields_update d new) =
    match field_lookup g new with
    | Some t => Some t
    | None => field_lookup g d
    end.
Proof.
  revert d. induction new as [|[f t] new IH]; intros d Hnd; [done|].
  rewrite fmap_cons in Hnd. apply NoDup_cons in Hnd as [Hf Hnd].
  rewrite fields_update_cons, (IH (fields_setitem d f t) Hnd), field_lookup_setitem.
  cbn [field_lookup]. destruct (String.eqb_spec g f) as [->|Hne]; [|done].
  by rewrite (proj2 (field_lookup_None f new) Hf).
Qed.

Lemma fields_update_nil fs : NoDup (fs.*1) -> fields_update [] fs = fs.
Proof. apply dict_of_fields_NoDup. Qed.

(** X13: [_insert_fields] keeps the fields of a struct in their places and
    puts the new names after them; in the result the names are pairwise
    distinct, a name among the new fields has its new type, and every other
    name has the type it had. *)
Theorem _insert_fields_spec (self new_fields : list (string * HailType)) :
  NoDup (self.*1) -> NoDup (new_fields.*1) ->
  exists r, _insert_fields self new_fields = tstruct r
            /\ NoDup (r.*1)
            /\ (exists k, r.*1 = self.*1 ++ k)
            /\ forall f, field_lookup f r =
                         match field_lookup f new_fields with
                         | Some t => Some t
                         | None => field_lookup f self
                         end.
Proof.
  intros Hself Hnew. unfold _insert_fields. rewrite fields_update_nil by done.
  eexists. split; [reflexivity|]. split; [by apply NoDup_update|].
  split; [apply names_update_prefix|]. intros f. by apply field_lookup_update.
Qed.

Lemma _insert_fields_spec_witness :
  exists r, _insert_fields [("a", tint32); ("b", tstr)] [("c", tbool); ("a", tint64)]
            = tstruct r
            /\ NoDup (r.*1)
            /\ (exists k, r.*1 = ["a"; "b"] ++ k)
            /\ forall f, field_lookup f r =
                         match field_lookup f [("c", tbool); ("a", tint64)] with
                         | Some t => Some t
                         | None => field_lookup f [("a", tint32); ("b", tstr)]
                         end.
Proof.
  apply (_insert_fields_spec [("a", tint32); ("b", tstr)] [("c", tbool); ("a", tint64)]);
    simpl; solve_NoDup.
Defined.

(** X14: the type [_insert] puts at a path is the type [_index_path]
    finds at that path, whatever the struct had there; and a field whose
    name is not the first of the path keeps its type. *)
Theorem _insert_index_path (self : list (string * HailType)) (path : list string)
    (t : HailType) :
  _index_path (_insert self path t) path = Ok t
  /\ forall key path' f,
       path = key :: path' -> f <> key -> NoDup (self.*1) ->
       HailType_getitem (_insert self path t) f = HailType_getitem (tstruct self) f.
Proof.
  split.
  - revert self. induction path as [|key path IH]; intros self; simpl; [done|].
    rewrite field_lookup_setitem, String.eqb_refl. simpl. apply IH.
  - intros key path' f -> Hne Hnd. simpl.
    rewrite field_lookup_setitem. destruct (String.eqb_spec f key) as [|_]; [done|].
    fold (fields_update [] self). by rewrite fields_update_nil.
Qed.

Lemma _insert_index_path_witness :
  _index_path (_insert [("a", tstruct [("x", tint32)]); ("b", tstr)] ["a"; "y"] tbool)
              ["a"; "y"] = Ok tbool
  /\ HailType_getitem
       (_insert [("a", tstruct [("x", tint32)]); ("b", tstr)] ["a"; "y"] tbool) "b"
     = Ok tstr.
Proof.
  split.
  - exact (proj1 (_insert_index_path
                    [("a", tstruct [("x", tint32)]); ("b", tstr)] ["a"; "y"] tbool)).
  - apply (proj2 (_insert_index_path
                    [("a", tstruct [("x", tint32)]); ("b", tstr)] ["a"; "y"] tbool)
             "a" ["y"] "b" eq_refl); [discriminate|simpl; solve_NoDup].
Defined.

Lemma rename_loop_spec map items seen acc :
  (forall f, is_Some (seen !! f) <-> f ∈ acc.*1) ->
  NoDup (acc.*1) ->
  _rename_loop map items seen acc =
    if bool_decide (NoDup (acc.*1 ++ (renamed map <$> items).*1))
    then Ok (acc ++ (renamed map <$> items))
    else Raise ValueError.
Proof.
  revert seen acc. induction items as [|[f0 t] items IH]; intros seen acc Hseen Hnd.
  { simpl. rewrite !app_nil_r. by rewrite bool_decide_eq_true_2. }
  cbn [_rename_loop]. rewrite !fmap_cons. cbn [renamed fst snd].
  set (f := default f0 (map !! f0)).
  destruct (seen !! f) as [f1|] eqn:Hf.
  - rewrite bool_decide_eq_false_2; [done|].
    intros Hnd'. apply NoDup_app in Hnd' as (_ & Hdisj & _).
    apply (Hdisj f); [by apply Hseen|apply list_elem_of_here].
  - assert (f ∉ acc.*1) as Hfresh.
    { intros Hin. apply Hseen in Hin as [? ?]. congruence. }
    rewrite fields_setitem_fresh by done.
    rewrite IH.
    + rewrite fmap_app, <- !app_assoc. done.
    + intros g. rewrite fmap_app. change ([(f, t)].*1) with [f].
      rewrite elem_of_app, list_elem_of_singleton, <- Hseen.
      destruct (decide (g = f)) as [->|Hne].
      * rewrite lookup_insert_eq. split; [by right|by eexists].
      * rewrite lookup_insert_ne by done. split; [by left|]. by intros [?|?].
    + rewrite fmap_app. change ([(f, t)].*1) with [f].
      apply NoDup_app. split; [done|].
      split; [|apply NoDup_singleton]. by intros g Hg ->%list_elem_of_singleton.
Qed.

(** X15: [_rename] gives the struct of the renamed fields, with their
    types, in the order of the struct, when the new names are pairwise
    distinct; when two fields come to the same name it raises
    [ValueError]. *)
Theorem _rename_spec (self : list (string * HailType)) (map : gmap string string) :
  _rename self map =
    if bool_decide (NoDup ((renamed map <$> self).*1))
    then Ok (tstruct (renamed map <$> self))
    else Raise ValueError.
Proof.
  unfold _rename. rewrite (rename_loop_spec map self ∅ []).
  - simpl. by case_bool_decide.
  - intros f. rewrite lookup_empty. split; [by intros [? ?]|by intros ?%not_elem_of_nil].
  - constructor.
Qed.

Lemma field_lookup_Some_NoDup f t d :
  NoDup (d.*1) -> (f, t) ∈ d -> field_lookup f d = Some t.
Proof.
  intros Hnd [i Hi]%list_elem_of_lookup. by eapply field_lookup_NoDup.
Qed.

Lemma field_lookup_filter (q : string -> bool) f d :
  field_lookup f (List.filter (fun ft : string * HailType => q ft.1) d) =
    if q f then field_lookup f d else None.
Proof.
  induction d as [|[g u] d IH]; simpl.
  { by destruct (q f). }
  destruct (q g) eqn:Hg; simpl; rewrite ?IH.
  - destruct (String.eqb_spec f g) as [->|Hne]; [by rewrite Hg|done].
  - destruct (String.eqb_spec f g) as [->|Hne]; [by rewrite Hg|done].
Qed.

Lemma names_filter_NoDup (p : string * HailType -> bool) d :
  NoDup (d.*1) -> NoDup ((List.filter p d).*1).
Proof.
  induction d as [|[g u] d IH]; [done|].
  rewrite fmap_cons, NoDup_cons. intros [Hg Hnd]. cbn [List.filter].
  destruct (p (g, u)); [|by apply IH].
  rewrite fmap_cons. apply NoDup_cons. split; [|by apply IH].
  intros Hin. apply Hg. apply list_elem_of_fmap in Hin as ([g' u'] & -> & Hin).
  apply list_elem_of_In, filter_In in Hin as [Hin _].
  apply list_elem_of_fmap. exists (g', u'). split; [done|by apply list_elem_of_In].
Qed.

Lemma existsb_eqb_elem f (l : list string) :
  existsb (String.eqb f) l = bool_decide (f ∈ l).
Proof.
  induction l as [|g l IH]; cbn [existsb].
  { by rewrite bool_decide_eq_false_2 by apply not_elem_of_nil. }
  rewrite IH. destruct (String.eqb_spec f g) as [->|Hne]; cbn [orb].
  - by rewrite bool_decide_eq_true_2 by apply list_elem_of_here.
  - apply bool_decide_ext. rewrite elem_of_cons. tauto.
Qed.

Lemma rmapM_names (g : string -> result (string * HailType)) r :
  Forall (fun ft : string * HailType => g ft.1 = Ok ft) r -> rmapM g (r.*1) = Ok r.
Proof.
  induction 1 as [|ft r Hft _ IH]; [done|].
  rewrite fmap_cons. simpl. by rewrite Hft, IH.
Qed.

(** X16: [_select_fields] on pairwise distinct names returns the struct of
    these names, in the order asked for, each with the type it has in the
    struct, when all of them are fields; when one is not, it raises
    [KeyError]. *)
Theorem _select_fields_spec (self : list (string * HailType)) (fields : list string) :
  NoDup fields ->
  if forallb (fun f => bool_decide (f ∈ self.*1)) fields
  then exists r, _select_fields self fields = Ok (tstruct r)
                 /\ r.*1 = fields
                 /\ forall f, f ∈ fields -> field_lookup f r = field_lookup f self
  else _select_fields self fields = Raise KeyError.
Proof.
  intros Hnd. unfold _select_fields.
  set (g := fun f => match field_lookup f self with
                     | Some t => Ok (f, t)
                     | None => Raise KeyError
                     end).
  destruct (forallb _ fields) eqn:Hall.
  - rewrite forallb_forall in Hall.
    destruct (rmapM_Forall2 g
                (fun f (ft : string * HailType) =>
                   ft.1 = f /\ field_lookup f self = Some ft.2) fields)
      as (r & Hr & Hspec).
    { apply Forall_forall. intros f Hf.
      specialize (Hall f (proj1 (list_elem_of_In _ _) Hf)).
      apply bool_decide_eq_true in Hall. unfold g.
      destruct (field_lookup f self) as [t|] eqn:Ht.
      - by exists (f, t).
      - by apply field_lookup_None in Ht. }
    assert (r.*1 = fields) as Hnames.
    { clear -Hspec. induction Hspec as [|f ft fields r [Hf _] _ IH]; [done|].
      rewrite fmap_cons. by f_equal. }
    exists r. rewrite Hr. simpl. rewrite dict_of_fields_NoDup by by rewrite Hnames.
    split; [done|]. split; [done|]. intros f Hf.
    apply list_elem_of_lookup in Hf as [i Hi].
    destruct (Forall2_lookup_l _ _ _ _ _ Hspec Hi) as ([f' t] & Hri & <- & Hft).
    simpl in *. rewrite Hft. eapply field_lookup_NoDup; [by rewrite Hnames|done].
  - rewrite (rmapM_raise g KeyError); [done| |].
    + apply Forall_forall. intros f _. unfold g.
      destruct (field_lookup f self); [left; by eexists|by right].
    + apply not_true_iff_false in Hall. rewrite forallb_forall in Hall.
      apply Exists_exists.
      destruct (decide (Forall (fun f => f ∈ self.*1) fields)) as [Hin|Hex].
      { destruct Hall. intros f Hf. apply bool_decide_eq_true.
        rewrite Forall_forall in Hin. by apply Hin, list_elem_of_In. }
      apply not_Forall_Exists in Hex; [|intros f; apply _].
      apply Exists_exists in Hex as (f & Hf & Hnf).
      exists f. split; [done|]. unfold g.
      by rewrite (proj2 (field_lookup_None f self) Hnf).
Qed.

Lemma _select_fields_spec_witness :
  _select_fields [("a", tint32); ("b", tstr)] ["b"; "c"] = Raise KeyError.
Proof.
  apply (_select_fields_spec [("a", tint32); ("b", tstr)] ["b"; "c"]). solve_NoDup.
Defined.

(** X17: [_drop_fields] on a struct of pairwise distinct names takes away
    the names given and keeps every other field with its type; selecting
    the names that are left, with [_select_fields], gives the same
    struct. *)
Theorem _drop_fields_spec (self : list (string * HailType)) (fields : list string) :
  NoDup (self.*1) ->
  exists r, _drop_fields self fields = tstruct r
            /\ (forall f, field_lookup f r =
                          if bool_decide (f ∈ fields) then None else field_lookup f self)
            /\ _select_fields self (r.*1) = Ok (tstruct r).
Proof.
  intros Hnd. unfold _drop_fields.
  set (r := List.filter _ self).
  assert (NoDup (r.*1)) as Hr by by apply names_filter_NoDup.
  exists r. rewrite dict_of_fields_NoDup by done. split; [done|]. split.
  - intros f. unfold r.
    rewrite (field_lookup_filter (fun g => negb (existsb (String.eqb g) fields))).
    rewrite existsb_eqb_elem. by case_bool_decide.
  - unfold _select_fields. rewrite rmapM_names.
    + simpl. by rewrite dict_of_fields_NoDup.
    + apply Forall_forall. intros [g u] Hin. simpl.
      apply list_elem_of_In, filter_In in Hin as [Hin _].
      by rewrite (field_lookup_Some_NoDup g u self Hnd) by by apply list_elem_of_In.
Qed.

Lemma _drop_fields_spec_witness :
  exists r, _drop_fields [("a", tint32); ("b", tstr); ("c", tbool)] ["b"; "z"] = tstruct r
            /\ (forall f, field_lookup f r =
                          if bool_decide (f ∈ ["b"; "z"]) then None
                          else field_lookup f [("a", tint32); ("b", tstr); ("c", tbool)])
            /\ _select_fields [("a", tint32); ("b", tstr); ("c", tbool)] (r.*1)
               = Ok (tstruct r).
Proof.
  apply (_drop_fields_spec [("a", tint32); ("b", tstr); ("c", tbool)] ["b"; "z"]).
  simpl. solve_NoDup.
Defined.

Lemma all2_prefix_refl {A} (f : A -> A -> bool) l k :
  Forall (fun a => f a a = true) l -> all2 f l (l ++ k) = true.
Proof.
  induction 1 as [|a l Ha _ IH]; simpl; [by destruct k|]. by rewrite Ha, IH.
Qed.

Lemma fields_update_disjoint d new :
  NoDup ((d ++ new).*1) -> fields_update d new = d ++ new.
Proof. apply fold_fields_setitem. Qed.

(** X18: a struct is a prefix, for [_is_prefix_of], of what
    [_insert_fields] and [_concat] make of it with fields of other names;
    and it stays one when its own fields are renamed, since
    [_is_prefix_of] compares the types position by position and never the
    names.  The field types have no type variable, and their structs and
    unions have pairwise distinct names. *)
Theorem _is_prefix_of_insert_fields (self new_fields : list (string * HailType))
    (map : gmap string string) :
  NoDup (self.*1) -> NoDup (new_fields.*1) ->
  (forall f, f ∈ self.*1 -> f ∉ new_fields.*1) ->
  Forall (fun ft : string * HailType =>
            well_formed ft.2 = true /\ variable_free ft.2 = true) self ->
  _insert_fields self new_fields = tstruct (self ++ new_fields)
  /\ _is_prefix_of self (_insert_fields self new_fields) = true
  /\ _is_prefix_of (renamed map <$> self) (_concat self new_fields) = true.
Proof.
  intros Hself Hnew Hdisj Hty.
  assert (_insert_fields self new_fields = tstruct (self ++ new_fields)) as Hins.
  { unfold _insert_fields. rewrite fields_update_nil by done.
    rewrite fields_update_disjoint; [done|].
    rewrite fmap_app. apply NoDup_app. split; [done|]. by split. }
  assert (all2 hail_eqb (self.*2) ((self ++ new_fields).*2) = true) as Hall.
  { rewrite fmap_app. apply all2_prefix_refl, Forall_fmap.
    eapply Forall_impl; [exact Hty|]. intros ft [Hwf Hvf].
    by apply hail_eqb_refl_spec. }
  split; [done|]. change (_concat self new_fields) with (_insert_fields self new_fields).
  rewrite Hins. unfold _is_prefix_of.
  assert ((renamed map <$> self).*2 = self.*2) as ->.
  { rewrite <- list_fmap_compose. by apply list_fmap_ext. }
  rewrite length_fmap, length_app, Hall.
  split; (apply andb_true_intro; split; [apply Nat.leb_le; lia|done]).
Qed.

Lemma _is_prefix_of_insert_fields_witness :
  _is_prefix_of [("x", tint32); ("y", tstr)]
                (tstruct [("a", tint32); ("b", tstr); ("c", tbool)]) = true.
Proof.
  exact (proj2 (proj2 (_is_prefix_of_insert_fields
                         [("a", tint32); ("b", tstr)] [("c", tbool)]
                         {[ "a" := "x"; "b" := "y" ]}
                         ltac:(simpl; solve_NoDup) ltac:(simpl; solve_NoDup)
                         ltac:(simpl; intros f Hf ->%list_elem_of_singleton;
                               revert Hf; rewrite !elem_of_cons, elem_of_nil;
                               intuition discriminate)
                         ltac:(repeat constructor)))).
Defined.

(** *** Concatenation of structs *)

Lemma filter_iff_elem {A} (P Q : A -> Prop) `{!forall x, Decision (P x)}
    `{!forall x, Decision (Q x)} (l : list A) :
  (forall x, x ∈ l -> P x <-> Q x) -> filter P l = filter Q l.
Proof.
  induction l as [|x l IH]; intros HPQ; [done|].
  rewrite !filter_cons.
  rewrite IH by (intros y Hy; by apply HPQ, list_elem_of_further).
  pose proof (HPQ x (list_elem_of_here _ _)) as Hx.
  destruct (decide (P x)), (decide (Q x)); tauto.
Qed.

Lemma names_update d new :
  NoDup (new.*1) ->
  (fields_update d new).*1 = d.*1 ++ filter (fun f => f ∉ d.*1) (new.*1).
Proof.
  revert d. induction new as [|[f t] new IH]; intros d Hnd.
  { by rewrite app_nil_r. }
  rewrite fmap_cons in Hnd. apply NoDup_cons in Hnd as [Hf Hnd].
  rewrite fields_update_cons, (IH _ Hnd), names_setitem, fmap_cons. cbn [fst].
  case_bool_decide as Hin.
  - by rewrite filter_cons_False by by intros ?.
  - rewrite filter_cons_True by done. rewrite <- app_assoc. cbn [app]. do 2 f_equal.
    apply filter_iff_elem. intros g Hg. rewrite not_elem_of_app, list_elem_of_singleton.
    split; [by intros [? _]|]. intros Hgd. split; [done|]. by intros ->.
Qed.

Lemma fields_ext (l m : list (string * HailType)) :
  NoDup (l.*1) -> l.*1 = m.*1 ->
  (forall f, field_lookup f l = field_lookup f m) -> l = m.
Proof.
  revert m. induction l as [|[f t] l IH]; intros [|[g u] m] Hnd Hnames Hlook;
    try done.
  rewrite !fmap_cons in Hnames. injection Hnames as <- Hnames.
  rewrite fmap_cons in Hnd. apply NoDup_cons in Hnd as [Hf Hnd].
  pose proof (Hlook f) as Hft. simpl in Hft. rewrite String.eqb_refl in Hft.
  injection Hft as <-. f_equal. apply IH; [done|done|]. intros h.
  specialize (Hlook h). simpl in Hlook.
  destruct (String.eqb_spec h f) as [Heq|_]; [|done]. rewrite Heq.
  rewrite (proj2 (field_lookup_None f l) Hf).
  symmetry. apply field_lookup_None. by rewrite <- Hnames.
Qed.

(** X19: [_concat] is associative on structs of pairwise distinct names,
    and the struct without fields is its unit on both sides. *)
Theorem _concat_assoc (a b c : list (string * HailType)) :
  NoDup (a.*1) -> NoDup (b.*1) -> NoDup (c.*1) ->
  exists ab bc,
    _concat a b = tstruct ab /\ _concat b c = tstruct bc
    /\ _concat ab c = _concat a bc
    /\ _concat a [] = tstruct a /\ _concat [] a = tstruct a.
Proof.
  intros Ha Hb Hc. unfold _concat. rewrite !fields_update_nil by done.
  exists (fields_update a b), (fields_update b c).
  assert (NoDup ((fields_update a b).*1)) as Hab by by apply NoDup_update.
  assert (NoDup ((fields_update b c).*1)) as Hbc by by apply NoDup_update.
  rewrite (fields_update_nil (fields_update a b)) by done.
  split; [done|]. split; [done|]. split; [|done].
  f_equal. apply fields_ext.
  - by apply NoDup_update.
  - rewrite !names_update by done. rewrite filter_app, <- app_assoc. do 2 f_equal.
    rewrite list_filter_filter. apply list_filter_iff. intros f.
    rewrite not_elem_of_app, list_elem_of_filter. tauto.
  - intros f. rewrite !field_lookup_update by done.
    by destruct (field_lookup f c), (field_lookup f b).
Qed.

Lemma _concat_assoc_witness :
  exists ab bc,
    _concat [("a", tint32); ("b", tstr)] [("b", tbool); ("c", tint64)] = tstruct ab
    /\ _concat [("b", tbool); ("c", tint64)] [("a", tfloat64)] = tstruct bc
    /\ _concat ab [("a", tfloat64)] = _concat [("a", tint32); ("b", tstr)] bc.
Proof.
  destruct (_concat_assoc [("a", tint32); ("b", tstr)] [("b", tbool); ("c", tint64)]
              [("a", tfloat64)])
    as (ab & bc & Hab & Hbc & Hassoc & _); [simpl; solve_NoDup..|].
  exists ab, bc. split; [exact Hab|]. split; [exact Hbc|exact Hassoc].
Defined.

(** ** Type checking of values *)

Lemma rfor_ok {A} (g : A -> result unit) l :
  Forall (fun a => g a = Ok tt) l -> rfor g l = Ok tt.
Proof. induction 1 as [|a l Ha _ IH]; simpl; [done|]. by rewrite Ha. Qed.

Lemma existsb_not_a_field fs (names : list string) :
  Forall (fun name => name ∈ fs.*1) names ->
  existsb (not_a_field fs) (PyStr <$> names) = false.
Proof.
  induction 1 as [|name names Hname _ IH]; [done|].
  rewrite fmap_cons. cbn [existsb not_a_field]. rewrite IH, orb_false_r.
  apply negb_false_iff. by rewrite existsb_eqb_elem, bool_decide_eq_true.
Qed.

Section TypecheckFurther.
Context `{Externals}.

(** X20: what [typecheck] does with null.  At the scalar types, at a
    locus, a call, a union, a type variable and [tvoid] null passes; at an
    array, a set and a tuple the traversal iterates over the value and
    raises [TypeError], and at a dict, a struct and an interval it reads an
    attribute of the value and raises [AttributeError]. *)
Theorem typecheck_None (t : HailType) :
  typecheck t PyNone =
    match t with
    | tarray _ | tset _ | ttuple _ => Raise TypeError
    | tdict _ _ | tstruct _ | tinterval _ => Raise AttributeError
    | tndarray e _ => rbind (np_nditer_items PyNone) (rfor (typecheck e))
    | _ => Ok tt
    end.
Proof. by destruct t. Qed.

Lemma struct_getitem_traverse (f : HailType -> pyvalue -> result bool) fs name t v :
  field_lookup name fs = Some t ->
  (fix getitem (fs : list (string * HailType)) : result unit :=
     match fs with
     | [] => Raise KeyError
     | (g, t) :: fs' => if String.eqb name g then _traverse f t v else getitem fs'
     end) fs = _traverse f t v.
Proof.
  induction fs as [|[g u] fs IH]; simpl; [done|].
  destruct (String.eqb name g); [by intros [= ->]|done].
Qed.

Lemma tuple_zip_traverse (f : HailType -> pyvalue -> result bool) ts elts :
  Forall2 (fun t elt => _traverse f t elt = Ok tt) ts elts ->
  (fix zip (ts : list HailType) (elts : list pyvalue) : result unit :=
     match ts, elts with
     | t :: ts', elt :: elts' => rbind (_traverse f t elt) (fun _ => zip ts' elts')
     | _, _ => Ok tt
     end) ts elts = Ok tt.
Proof. induction 1 as [|t elt ts elts Ht _ IH]; [done|]. by rewrite Ht. Qed.

(** X21: [typecheck] accepts every value of the shape of the type. *)
Theorem typecheck_shaped (t : HailType) (v : pyvalue) :
  shaped t v = true -> typecheck t v = Ok tt.
Proof.
  unfold typecheck. revert v.
  induction t as [| | | | | | |e k IH|e IH|e IH|k e IHk IHe|fs IH|fs IH|ts IH| |rg|e IH|x cond box]
    using HailType_nested_ind; intros v Hv; try discriminate Hv.
  - destruct v; try discriminate Hv; [done|]. simpl in Hv |- *. unfold check. simpl.
    by rewrite Hv.
  - destruct v; try discriminate Hv; [done|]. simpl in Hv |- *. unfold check. simpl.
    by rewrite Hv.
  - by destruct v.
  - by destruct v.
  - destruct v; try discriminate Hv; [done|]. simpl. unfold check. simpl.
    by rewrite andb_false_r.
  - by destruct v.
  - destruct v as [| | | | |l| | | | | | |]; try discriminate Hv. simpl in Hv |- *.
    apply rfor_ok. rewrite forallb_forall in Hv. apply Forall_forall.
    intros a Ha. by apply IH, Hv, list_elem_of_In.
  - destruct v as [| | | | | | |l| | | | |]; try discriminate Hv. simpl in Hv |- *.
    apply rfor_ok. rewrite forallb_forall in Hv. apply Forall_forall.
    intros a Ha. by apply IH, Hv, list_elem_of_In.
  - destruct v as [| | | | | | | |items| | | |]; try discriminate Hv. simpl in Hv |- *.
    apply rfor_ok. rewrite forallb_forall in Hv. apply Forall_forall.
    intros [a b] Hab. apply list_elem_of_In, Hv, andb_prop in Hab as [Ha Hb].
    simpl in *. by rewrite (IHk a Ha), (IHe b Hb).
  - destruct v as [| | | | | | | | |vs| | |]; try discriminate Hv.
    cbn [shaped] in Hv. apply andb_prop in Hv as [Hv Hall].
    apply andb_prop in Hv as [Hnd Hnames].
    apply bool_decide_eq_true in Hnd. apply bool_decide_eq_true in Hnames.
    assert (length vs = length fs) as Hlen
      by by rewrite <- (length_fmap fst vs), Hnames, length_fmap.
    apply all2_Forall2 in Hall; [|done].
    cbn [_traverse]. unfold check at 1.
    assert (_typecheck_one_level (tstruct fs) (PyStruct vs) = Ok tt) as ->.
    { simpl. destruct (negb (length vs =? 0)%nat); [|done].
      rewrite existsb_not_a_field; [done|]. rewrite Hnames.
      apply Forall_forall. by intros name Hname. }
    simpl. apply rfor_ok. apply Forall_forall. intros [key v] Hkv.
    apply list_elem_of_fmap in Hkv as ([name v'] & [= -> ->] & Hin).
    apply list_elem_of_lookup in Hin as [i Hi]. simpl.
    destruct (Forall2_lookup_r _ _ _ _ _ Hall Hi) as ([name' t] & Hfi & Hshaped).
    assert (name' = name) as ->.
    { assert (fs.*1 !! i = Some name') as H1 by by rewrite list_lookup_fmap, Hfi.
      assert (vs.*1 !! i = Some name) as H2 by by rewrite list_lookup_fmap, Hi.
      rewrite Hnames in H2. congruence. }
    rewrite (struct_getitem_traverse check fs name t v').
    + rewrite Forall_forall in IH. apply (IH (name, t)); [|done].
      by eapply list_elem_of_lookup_2.
    + by eapply field_lookup_NoDup.
  - destruct v as [| | | | | |l| | | | | |]; try discriminate Hv.
    cbn [shaped] in Hv. apply andb_prop in Hv as [Hlen Hall].
    apply Nat.eqb_eq in Hlen. apply all2_Forall2 in Hall; [|done].
    cbn [_traverse]. unfold check at 1.
    assert (_typecheck_one_level (ttuple ts) (PyTuple l) = Ok tt) as ->.
    { simpl. destruct (negb (length l =? 0)%nat); [|done].
      by rewrite Hlen, Nat.eqb_refl. }
    simpl. apply tuple_zip_traverse.
    eapply Forall2_impl_elem; [exact Hall|]. intros t a Ht Hta.
    rewrite Forall_forall in IH. by apply IH.
Qed.
End TypecheckFurther.

Lemma typecheck_shaped_witness :
  typecheck (H := no_externals)
    (tstruct [("a", tarray tint32); ("b", ttuple [tstr; tfloat64])])
    (PyStruct [("a", PyList [PyInt 1; PyNone]);
               ("b", PyTuple [PyStr "x"; PyFloat S754_nan])]) = Ok tt.
Proof.
  exact (typecheck_shaped (H := no_externals)
           (tstruct [("a", tarray tint32); ("b", ttuple [tstr; tfloat64])])
           (PyStruct [("a", PyList [PyInt 1; PyNone]);
                      ("b", PyTuple [PyStr "x"; PyFloat S754_nan])]) eq_refl).
Defined.

(** ** The JSON codec *)

Lemma Forall2_exists_Forall3 {A B C} (P : A -> B -> C -> Prop) l m :
  Forall2 (fun a b => exists c, P a b c) l m -> exists cs, Forall3 P l m cs.
Proof.
  induction 1 as [|a b l m [c Hc] _ [cs Hcs]].
  - exists []. constructor.
  - exists (c :: cs). by constructor.
Qed.

Lemma rmapM_lookup {A B} (f : A -> result B) l m :
  length l = length m ->
  (forall i a b, l !! i = Some a -> m !! i = Some b -> f a = Ok b) ->
  rmapM f l = Ok m.
Proof.
  revert m. induction l as [|a l IH]; intros [|b m] Hlen Hf; simpl in Hlen; try lia.
  { done. }
  simpl. rewrite (Hf 0 a b eq_refl eq_refl). simpl.
  rewrite (IH m); [done|lia|]. intros i a' b' Ha' Hb'. by apply (Hf (S i)).
Qed.

Lemma seq_getitem_lookup {A} (l : list A) i v :
  l !! i = Some v -> seq_getitem l (Z.of_nat i) = Ok v.
Proof.
  intros Hi. unfold seq_getitem.
  destruct (Z.ltb_spec (Z.of_nat i) 0) as [|_]; [lia|].
  destruct (Z.ltb_spec (Z.of_nat i) 0) as [|_]; [lia|].
  by rewrite Nat2Z.id, Hi.
Qed.

Lemma struct_getitem_NoDup (vs : list (string * pyvalue)) i f v :
  NoDup (vs.*1) -> vs !! i = Some (f, v) -> struct_getitem vs f = Some v.
Proof.
  revert i. induction vs as [|[g u] vs IH]; intros i Hnd Hi; [done|].
  rewrite fmap_cons in Hnd. apply NoDup_cons in Hnd as [Hnotin Hnd].
  destruct i as [|i]; simpl in *.
  - injection Hi as -> ->. by rewrite String.eqb_refl.
  - destruct (String.eqb_spec f g) as [->|_]; [|by eapply IH].
    destruct Hnotin. apply list_elem_of_fmap.
    exists (g, v). split; [done|]. by eapply list_elem_of_lookup_2.
Qed.

Lemma dict_getitem_NoDup (items : list (pyvalue * pyvalue)) (names : list string) i f j :
  items.*1 = PyStr <$> names -> NoDup names ->
  items !! i = Some (PyStr f, j) ->
  dict_getitem items (PyStr f) = Some j.
Proof.
  revert names i. induction items as [|[k u] items IH]; intros names i Hkeys Hnd Hi;
    [done|].
  destruct names as [|g names]; [done|].
  rewrite !fmap_cons in Hkeys. injection Hkeys as Hk Hkeys. simpl in Hk. subst k.
  apply NoDup_cons in Hnd as [Hnotin Hnd].
  destruct i as [|i]; simpl in Hi.
  - injection Hi as -> ->. simpl. by rewrite String.eqb_refl.
  - simpl. destruct (String.eqb_spec g f) as [->|_]; [|by eapply IH].
    destruct Hnotin.
    assert (PyStr f ∈ items.*1) as Hin.
    { apply list_elem_of_fmap. exists (PyStr f, j).
      split; [done|]. by eapply list_elem_of_lookup_2. }
    rewrite Hkeys in Hin. apply list_elem_of_fmap in Hin as (f' & [= ->] & Hin). done.
Qed.

Section CodecLoops.
Context `{Externals}.

Lemma fields_to_json_loop (F : HailType -> pyvalue -> result pyvalue) x fs :
  (fix fields (fs : list (string * HailType)) : result (list (pyvalue * pyvalue)) :=
     match fs with
     | [] => Ok []
     | (f, t) :: fs' =>
         rbind (py_getitem_str x f) (fun xf =>
         rbind (F t xf) (fun j =>
         rbind (fields fs') (fun js => Ok ((PyStr f, j) :: js))))
     end) fs
  = rmapM (fun ft : string * HailType =>
             rbind (py_getitem_str x ft.1) (fun xf =>
             rbind (F ft.2 xf) (fun j => Ok (PyStr ft.1, j)))) fs.
Proof.
  induction fs as [|[f t] fs IH]; [done|]. cbn [rmapM fst snd].
  destruct (py_getitem_str x f) as [xf|]; [|done]. cbn [rbind].
  destruct (F t xf) as [j|]; [|done]. cbn [rbind]. by rewrite IH.
Qed.

Lemma fields_from_json_loop (F : HailType -> pyvalue -> result pyvalue) x fs :
  (fix fields (fs : list (string * HailType)) : result (list (string * pyvalue)) :=
     match fs with
     | [] => Ok []
     | (f, t) :: fs' =>
         rbind (py_get x f) (fun xf =>
         rbind (F t xf) (fun v =>
         rbind (fields fs') (fun vs => Ok ((f, v) :: vs))))
     end) fs
  = rmapM (fun ft : string * HailType =>
             rbind (py_get x ft.1) (fun xf =>
             rbind (F ft.2 xf) (fun v => Ok (ft.1, v)))) fs.
Proof.
  induction fs as [|[f t] fs IH]; [done|]. cbn [rmapM fst snd].
  destruct (py_get x f) as [xf|]; [|done]. cbn [rbind].
  destruct (F t xf) as [j|]; [|done]. cbn [rbind]. by rewrite IH.
Qed.

Lemma elems_loop (F : HailType -> pyvalue -> result pyvalue) x ts k :
  (fix elems (ts : list HailType) (i : Z) : result (list pyvalue) :=
     match ts with
     | [] => Ok []
     | t :: ts' =>
         rbind (py_getitem_int x i) (fun xi =>
         rbind (F t xi) (fun j =>
         rbind (elems ts' (i + 1)%Z) (fun js => Ok (j :: js))))
     end) ts (Z.of_nat k)
  = rmapM (fun it : nat * HailType =>
             rbind (py_getitem_int x (Z.of_nat it.1)) (F it.2))
          (imap (fun i t => (k + i, t)) ts).
Proof.
  revert k. induction ts as [|t ts IH]; intros k; [done|].
  rewrite imap_cons. cbn [rmapM fst snd]. rewrite Nat.add_0_r.
  destruct (py_getitem_int x (Z.of_nat k)) as [xi|]; [|done]. cbn [rbind].
  destruct (F t xi) as [j|]; [|done]. cbn [rbind].
  replace (Z.of_nat k + 1)%Z with (Z.of_nat (S k)) by lia. rewrite IH.
  erewrite imap_ext; [done|]. intros i t' _. simpl. f_equal. lia.
Qed.

(** The loop over the elements of a tuple type, on a sequence of as many
    members. *)
Lemma elems_loop_lookup (F : HailType -> pyvalue -> result pyvalue) x l ts js :
  (forall i, py_getitem_int x i = seq_getitem l i) ->
  Forall3 (fun t v j => F t v = Ok j) ts l js ->
  rmapM (fun it : nat * HailType =>
           rbind (py_getitem_int x (Z.of_nat it.1)) (F it.2))
        (imap (fun i t => (0 + i, t)) ts) = Ok js.
Proof.
  intros Hx Hall. apply rmapM_lookup.
  { rewrite length_imap. by eapply Forall3_length_lr. }
  intros i [i' t] j Hi Hj. rewrite list_lookup_imap in Hi.
  destruct (ts !! i) as [t'|] eqn:Ht; [|done]. injection Hi as <- <-.
  simpl. assert (is_Some (l !! i)) as [v Hv].
  { apply lookup_lt_is_Some. rewrite <- (Forall3_length_lm _ _ _ _ Hall).
    by eapply lookup_lt_Some. }
  rewrite Hx, (seq_getitem_lookup l i v Hv). simpl.
  by eapply (Forall3_lookup_lmr _ _ _ _ _ _ _ _ Hall).
Qed.
End CodecLoops.

(** *** The round trip of a value of the shape of a type *)

Lemma rmapM_roundtrip {A B} (E : A -> result B) (D : B -> result A) l :
  Forall (fun v => exists j, E v = Ok j /\ D j = Ok v) l ->
  exists js, rmapM E l = Ok js /\ rmapM D js = Ok l.
Proof.
  induction 1 as [|v l (j & He & Hd) _ (js & Hes & Hds)].
  - by exists [].
  - exists (j :: js). simpl. by rewrite He, Hes, Hd, Hds.
Qed.

Lemma Forall3_flip {A B C} (P : A -> B -> C -> Prop) l m n :
  Forall3 P l m n -> Forall3 (fun a c b => P a b c) l n m.
Proof. induction 1; by constructor. Qed.

Lemma names_lookup {A B} (fs : list (string * A)) (vs : list (string * B)) i ft fv :
  vs.*1 = fs.*1 -> fs !! i = Some ft -> vs !! i = Some fv -> fv.1 = ft.1.
Proof.
  intros Hnames Hf Hv.
  assert (fs.*1 !! i = Some ft.1) as H1 by by rewrite list_lookup_fmap, Hf.
  assert (vs.*1 !! i = Some fv.1) as H2 by by rewrite list_lookup_fmap, Hv.
  rewrite Hnames in H2. congruence.
Qed.

Lemma items_keys (fs : list (string * HailType)) (js : list pyvalue) :
  length js = length fs ->
  (zip_with (fun (ft : string * HailType) j => (PyStr ft.1, j)) fs js).*1
  = PyStr <$> fs.*1.
Proof.
  revert js. induction fs as [|ft fs IH]; intros [|j js] Hlen; simpl in Hlen; try lia.
  { done. }
  simpl. f_equal. apply IH. lia.
Qed.

Section CodecRoundTrip.
Context `{Externals}.

(** X22: on a type without sets and dicts, encoding a value of the shape
    of the type to JSON succeeds, and decoding what was encoded gives the
    value back. *)
Theorem codec_roundtrip (t : HailType) (v : pyvalue) :
  shaped t v = true -> sequence_type t = true ->
  exists j, _convert_to_json_na t v = Ok j /\ _convert_from_json_na t j = Ok v.
Proof.
  unfold sequence_type, _convert_to_json_na, _convert_from_json_na.
  unfold HailType_convert_to_json_na, HailType_convert_from_json_na. revert v.
  induction t as [| | | | | | |e k IH|e IH|e IH|k e IHk IHe|fs IH|fs IH|ts IH| |rg|e IH|x cond box]
    using HailType_nested_ind; intros v Hv Hseq; try discriminate Hv;
    try (simpl in Hseq; discriminate Hseq).
  - destruct v; try discriminate Hv; eexists; by split.
  - destruct v; try discriminate Hv; eexists; by split.
  - destruct v as [| | |f| | | | | | | | |]; try discriminate Hv; [by exists PyNone|].
    exists (float_json f). destruct (float_roundtrip f) as [He Hd].
    replace (is_None (float_json f)) with false
      by (unfold float_json; by destruct (float_isfinite f)).
    by split.
  - destruct v as [| | |f| | | | | | | | |]; try discriminate Hv; [by exists PyNone|].
    exists (float_json f). destruct (float_roundtrip f) as [He Hd].
    replace (is_None (float_json f)) with false
      by (unfold float_json; by destruct (float_isfinite f)).
    by split.
  - destruct v; try discriminate Hv; eexists; by split.
  - destruct v; try discriminate Hv; eexists; by split.
  - destruct v as [| | | | |l| | | | | | |]; try discriminate Hv.
    simpl in Hv, Hseq. rewrite forallb_forall in Hv.
    destruct (rmapM_roundtrip
                (fun x => if is_None x then Ok x else _convert_to_json e x)
                (fun x => if is_None x then Ok x else _convert_from_json e x) l)
      as (js & Hjs & Hl).
    { apply Forall_forall. intros a Ha. apply IH; [|done]. by apply Hv, list_elem_of_In. }
    exists (PyList js). split.
    + cbn. unfold HailType_convert_to_json_na. by rewrite Hjs.
    + cbn. unfold HailType_convert_from_json_na. by rewrite Hl.
  - destruct v as [| | | | | | | | |vs| | |]; try discriminate Hv.
    cbn [shaped] in Hv. apply andb_prop in Hv as [Hv Hall].
    apply andb_prop in Hv as [Hnd Hnames].
    apply bool_decide_eq_true in Hnd. apply bool_decide_eq_true in Hnames.
    assert (length vs = length fs) as Hlen
      by by rewrite <- (length_fmap fst vs), Hnames, length_fmap.
    apply all2_Forall2 in Hall; [|done].
    simpl in Hseq. rewrite forallb_forall in Hseq.
    destruct (Forall2_exists_Forall3
                (fun (ft : string * HailType) (fv : string * pyvalue) j =>
                   (if is_None fv.2 then Ok fv.2 else _convert_to_json ft.2 fv.2) = Ok j
                   /\ (if is_None j then Ok j else _convert_from_json ft.2 j) = Ok fv.2)
                fs vs) as (js & Hjs).
    { eapply Forall2_impl_elem; [exact Hall|]. intros ft fv Hin Hshaped.
      rewrite Forall_forall in IH. apply IH; [done|done|].
      by apply Hseq, list_elem_of_In. }
    pose proof (Forall3_length_lr _ _ _ _ Hjs) as Hlenj.
    set (items := zip_with (fun (ft : string * HailType) j => (PyStr ft.1, j)) fs js).
    exists (PyDict items). split.
    + cbn [is_None _convert_to_json].
      pose proof (fields_to_json_loop
                    (fun t => HailType_convert_to_json_na (_convert_to_json t))
                    (PyStruct vs) fs) as Hloop.
      cbv beta in Hloop. rewrite Hloop. clear Hloop.
      rewrite (rmapM_lookup _ fs items); [done| |].
      { unfold items. rewrite length_zip_with. lia. }
      intros i ft item Hft Hitem. unfold items in Hitem.
      apply lookup_zip_with_Some in Hitem as (ft' & j & -> & Hft' & Hj).
      rewrite Hft in Hft'. injection Hft' as <-.
      assert (is_Some (vs !! i)) as [fv Hfv].
      { apply lookup_lt_is_Some. rewrite Hlen. by eapply lookup_lt_Some. }
      pose proof (names_lookup fs vs i ft fv Hnames Hft Hfv) as Hname.
      destruct (Forall3_lookup_lmr _ _ _ _ _ _ _ _ Hjs Hft Hfv Hj) as [He _].
      simpl. destruct fv as [g u]. simpl in Hname, He. subst g.
      rewrite (struct_getitem_NoDup vs i ft.1 u); [|by rewrite Hnames|done].
      simpl. unfold HailType_convert_to_json_na. by rewrite He.
    + cbn [is_None _convert_from_json].
      pose proof (fields_from_json_loop
                    (fun t => HailType_convert_from_json_na (_convert_from_json t))
                    (PyDict items) fs) as Hloop.
      cbv beta in Hloop. rewrite Hloop. clear Hloop.
      rewrite (rmapM_lookup _ fs vs); [done|lia|].
      intros i ft fv Hft Hfv.
      assert (is_Some (js !! i)) as [j Hj].
      { apply lookup_lt_is_Some. rewrite <- Hlenj. by eapply lookup_lt_Some. }
      pose proof (names_lookup fs vs i ft fv Hnames Hft Hfv) as Hname.
      destruct (Forall3_lookup_lmr _ _ _ _ _ _ _ _ Hjs Hft Hfv Hj) as [_ Hd].
      assert (items !! i = Some (PyStr ft.1, j)) as Hitem.
      { unfold items. apply lookup_zip_with_Some. by exists ft, j. }
      simpl.
      rewrite (dict_getitem_NoDup items (fs.*1) i ft.1 j);
        [|by apply items_keys|done|done].
      simpl. unfold HailType_convert_from_json_na. rewrite Hd. simpl.
      destruct fv as [g u]. simpl in *. by subst g.
  - destruct v as [| | | | | |l| | | | | |]; try discriminate Hv.
    cbn [shaped] in Hv. apply andb_prop in Hv as [Hlen Hall].
    apply Nat.eqb_eq in Hlen. apply all2_Forall2 in Hall; [|done].
    simpl in Hseq. rewrite forallb_forall in Hseq.
    destruct (Forall2_exists_Forall3
                (fun (t : HailType) (a j : pyvalue) =>
                   (if is_None a then Ok a else _convert_to_json t a) = Ok j
                   /\ (if is_None j then Ok j else _convert_from_json t j) = Ok a)
                ts l) as (js & Hjs).
    { eapply Forall2_impl_elem; [exact Hall|]. intros t a Hin Hshaped.
      rewrite Forall_forall in IH. apply IH; [done|done|].
      by apply Hseq, list_elem_of_In. }
    exists (PyList js). split.
    + cbn [is_None _convert_to_json].
      pose proof (elems_loop
                    (fun t => HailType_convert_to_json_na (_convert_to_json t))
                    (PyTuple l) ts 0) as Hloop.
      cbv beta in Hloop. change (Z.of_nat 0) with 0%Z in Hloop.
      rewrite Hloop. clear Hloop.
      pose proof (elems_loop_lookup
                    (fun t => HailType_convert_to_json_na (_convert_to_json t))
                    (PyTuple l) l ts js) as Hl.
      cbv beta in Hl. rewrite Hl; [done|done|].
      eapply Forall3_impl; [exact Hjs|]. by intros t a j [He _].
    + cbn [is_None _convert_from_json].
      pose proof (elems_loop
                    (fun t => HailType_convert_from_json_na (_convert_from_json t))
                    (PyList js) ts 0) as Hloop.
      cbv beta in Hloop. change (Z.of_nat 0) with 0%Z in Hloop.
      rewrite Hloop. clear Hloop.
      pose proof (elems_loop_lookup
                    (fun t => HailType_convert_from_json_na (_convert_from_json t))
                    (PyList js) js ts l) as Hl.
      cbv beta in Hl. rewrite Hl; [done|done|].
      apply Forall3_flip. eapply Forall3_impl; [exact Hjs|]. by intros t a j [_ Hd].
Qed.
End CodecRoundTrip.

Lemma codec_roundtrip_witness :
  exists j,
    _convert_to_json_na (H := no_externals)
      (tstruct [("a", tarray tint32); ("b", ttuple [tstr; tfloat64])])
      (PyStruct [("a", PyList [PyInt 1; PyNone]);
                 ("b", PyTuple [PyStr "x"; PyFloat S754_nan])]) = Ok j
    /\ _convert_from_json_na (H := no_externals)
         (tstruct [("a", tarray tint32); ("b", ttuple [tstr; tfloat64])]) j
       = Ok (PyStruct [("a", PyList [PyInt 1; PyNone]);
                       ("b", PyTuple [PyStr "x"; PyFloat S754_nan])]).
Proof.
  exact (codec_roundtrip (H := no_externals)
           (tstruct [("a", tarray tint32); ("b", ttuple [tstr; tfloat64])])
           (PyStruct [("a", PyList [PyInt 1; PyNone]);
                      ("b", PyTuple [PyStr "x"; PyFloat S754_nan])])
           eq_refl eq_refl).
Defined.

(** *** Members the codec does not read, and members that are missing *)

Lemma rmapM_ext_elem {A B} (f g : A -> result B) l :
  (forall a, a ∈ l -> f a = g a) -> rmapM f l = rmapM g l.
Proof.
  induction l as [|a l IH]; intros Hfg; [done|]. simpl.
  rewrite (Hfg a) by apply list_elem_of_here.
  rewrite IH; [done|]. intros a' Ha'. by apply Hfg, list_elem_of_further.
Qed.

Lemma rmapM_Ok_Forall2 {A B} (f : A -> result B) l bs :
  rmapM f l = Ok bs -> Forall2 (fun a b => f a = Ok b) l bs.
Proof.
  revert bs. induction l as [|a l IH]; intros bs; simpl.
  { intros [= <-]. constructor. }
  destruct (f a) as [b|] eqn:Hb; [|done]. simpl.
  destruct (rmapM f l) as [bs'|]; [|done]. intros [= <-]. constructor; [done|by apply IH].
Qed.

Lemma seq_getitem_app_l {A} (l extra : list A) i :
  i < length l -> seq_getitem (l ++ extra) (Z.of_nat i) = seq_getitem l (Z.of_nat i).
Proof.
  intros Hi. destruct (lookup_lt_is_Some_2 l i Hi) as [v Hv].
  rewrite (seq_getitem_lookup l i v Hv). apply seq_getitem_lookup.
  by rewrite lookup_app_l.
Qed.

Lemma seq_getitem_short {A} (l : list A) i :
  length l <= i -> seq_getitem l (Z.of_nat i) = Raise IndexError.
Proof.
  intros Hi. unfold seq_getitem.
  destruct (Z.ltb_spec (Z.of_nat i) 0) as [|_]; [lia|].
  destruct (Z.ltb_spec (Z.of_nat i) 0) as [|_]; [lia|].
  by rewrite Nat2Z.id, (lookup_ge_None_2 l i Hi).
Qed.

Lemma py_eqb_str k f : py_eqb k (PyStr f) = true -> k = PyStr f.
Proof. destruct k; simpl; try discriminate. by intros ->%String.eqb_eq. Qed.

Section CodecEdges.
Context `{Externals}.

Lemma elems_loop_ext (F : HailType -> pyvalue -> result pyvalue) x y ts :
  (forall i, i < length ts ->
             py_getitem_int x (Z.of_nat i) = py_getitem_int y (Z.of_nat i)) ->
  rmapM (fun it : nat * HailType =>
           rbind (py_getitem_int x (Z.of_nat it.1)) (F it.2))
        (imap (fun i t => (0 + i, t)) ts)
  = rmapM (fun it : nat * HailType =>
             rbind (py_getitem_int y (Z.of_nat it.1)) (F it.2))
          (imap (fun i t => (0 + i, t)) ts).
Proof.
  intros Hxy. apply rmapM_ext_elem. intros [i t] Hin.
  apply list_elem_of_lookup in Hin as [k Hk]. rewrite list_lookup_imap in Hk.
  destruct (ts !! k) as [t'|] eqn:Ht; [|done]. injection Hk as <- <-.
  simpl. rewrite Hxy; [done|]. by eapply lookup_lt_Some.
Qed.

Lemma elems_loop_short (F : HailType -> pyvalue -> result pyvalue) x l ts bs :
  (forall i, py_getitem_int x i = seq_getitem l i) ->
  length l < length ts ->
  rmapM (fun it : nat * HailType =>
           rbind (py_getitem_int x (Z.of_nat it.1)) (F it.2))
        (imap (fun i t => (0 + i, t)) ts) <> Ok bs.
Proof.
  intros Hx Hlen Hbs. apply rmapM_Ok_Forall2 in Hbs.
  destruct (lookup_lt_is_Some_2 ts (length l) Hlen) as [t Ht].
  assert (imap (fun i t => (0 + i, t)) ts !! length l = Some (length l, t)) as Hi
    by by rewrite list_lookup_imap, Ht.
  destruct (Forall2_lookup_l _ _ _ _ _ Hbs Hi) as (b & _ & Hb).
  simpl in Hb. by rewrite Hx, seq_getitem_short in Hb.
Qed.

(** X23: the codec of a tuple type reads as many members as the type has
    elements, by index.  What a value or a JSON array has beyond them is
    ignored, in both directions; a value or a JSON array of fewer members
    is never converted. *)
Theorem tuple_codec_length (ts : list HailType) (l extra : list pyvalue) :
  length l = length ts ->
  _convert_to_json (ttuple ts) (PyTuple (l ++ extra))
  = _convert_to_json (ttuple ts) (PyTuple l)
  /\ _convert_from_json (ttuple ts) (PyList (l ++ extra))
     = _convert_from_json (ttuple ts) (PyList l)
  /\ forall short v,
       length short < length ts ->
       _convert_to_json (ttuple ts) (PyTuple short) <> Ok v
       /\ _convert_from_json (ttuple ts) (PyList short) <> Ok v.
Proof.
  intros Hlen.
  pose proof (fun x => elems_loop
                (fun t => HailType_convert_to_json_na (_convert_to_json t)) x ts 0)
    as Hto.
  pose proof (fun x => elems_loop
                (fun t => HailType_convert_from_json_na (_convert_from_json t)) x ts 0)
    as Hfrom.
  cbv beta in Hto, Hfrom.
  change (Z.of_nat 0) with 0%Z in Hto, Hfrom.
  cbn [_convert_to_json _convert_from_json]. rewrite !Hto, !Hfrom.
  split; [|split].
  - f_equal.
    apply (elems_loop_ext (fun t => HailType_convert_to_json_na (_convert_to_json t))).
    intros i Hi. simpl. apply seq_getitem_app_l. lia.
  - f_equal.
    apply (elems_loop_ext
             (fun t => HailType_convert_from_json_na (_convert_from_json t))).
    intros i Hi. simpl. apply seq_getitem_app_l. lia.
  - intros short v Hshort. rewrite Hto, Hfrom. split.
    + destruct (rmapM _ _) as [bs|] eqn:Hbs; [|done].
      by apply (elems_loop_short
                  (fun t => HailType_convert_to_json_na (_convert_to_json t))
                  (PyTuple short) short) in Hbs.
    + destruct (rmapM _ _) as [bs|] eqn:Hbs; [|done].
      by apply (elems_loop_short
                  (fun t => HailType_convert_from_json_na (_convert_from_json t))
                  (PyList short) short) in Hbs.
Qed.

(** X24: decoding a JSON object at a struct type gives, when it succeeds,
    a [Struct] of exactly the fields of the type, in their order: a field
    the object has no key for is null, and a key of the object that is no
    field of the type is ignored. *)
Theorem struct_decode_fields (fs : list (string * HailType))
    (items : list (pyvalue * pyvalue)) (v : pyvalue) :
  _convert_from_json (tstruct fs) (PyDict items) = Ok v ->
  exists vs, v = PyStruct vs
             /\ vs.*1 = fs.*1
             /\ (forall i f t, fs !! i = Some (f, t) ->
                               dict_getitem items (PyStr f) = None ->
                               vs !! i = Some (f, PyNone))
             /\ (forall k x, (forall f, f ∈ fs.*1 -> k <> PyStr f) ->
                             _convert_from_json (tstruct fs) (PyDict (items ++ [(k, x)]))
                             = Ok v).
Proof.
  pose proof (fun x => fields_from_json_loop
                (fun t => HailType_convert_from_json_na (_convert_from_json t)) x fs)
    as Hloop.
  cbv beta in Hloop. cbn [_convert_from_json]. rewrite !Hloop.
  destruct (rmapM _ fs) as [vs|] eqn:Hvs; [|done]. cbn [rbind]. intros [= <-].
  exists vs. split; [done|].
  pose proof (rmapM_Ok_Forall2 _ _ _ Hvs) as Hall.
  assert (Forall2 (fun (ft : string * HailType) (fv : string * pyvalue) =>
                     fv.1 = ft.1
                     /\ HailType_convert_from_json_na (_convert_from_json ft.2)
                          (default PyNone (dict_getitem items (PyStr ft.1)))
                        = Ok fv.2) fs vs) as Hspec.
  { eapply Forall2_impl; [exact Hall|]. intros [f t] [g u]. simpl.
    destruct (HailType_convert_from_json_na _ _) as [u'|]; [|done].
    simpl. by intros [= -> ->]. }
  split; [|split].
  - clear -Hspec. induction Hspec as [|ft fv fs vs [Hname _] _ IH]; [done|].
    rewrite !fmap_cons. by f_equal.
  - intros i f t Hft Hnone.
    destruct (Forall2_lookup_l _ _ _ _ _ Hspec Hft) as ([g u] & Hvi & Hname & Hu).
    simpl in Hname, Hu. rewrite Hnone in Hu. simpl in Hu. injection Hu as <-.
    by subst g.
  - intros k x Hk. rewrite Hloop.
    erewrite rmapM_ext_elem; [by rewrite Hvs|].
    intros [f t] Hin. simpl.
    assert (dict_getitem (items ++ [(k, x)]) (PyStr f) = dict_getitem items (PyStr f))
      as ->; [|done].
    assert (py_eqb k (PyStr f) = false) as Hkf.
    { destruct (py_eqb k (PyStr f)) eqn:Heq; [|done].
      apply py_eqb_str in Heq. destruct (Hk f); [|done].
      apply list_elem_of_fmap. by exists (f, t). }
    clear -Hkf. induction items as [|[k' x'] items IH]; simpl.
    + by rewrite Hkf.
    + by destruct (py_eqb k' (PyStr f)).
Qed.

(** X25: a [Struct] that lacks a field of the struct type is never
    encoded, and the empty [Struct] passes [typecheck] at every struct
    type: at a struct type with a field, a value that [typecheck] accepts
    makes the encoder raise [KeyError]. *)
Theorem struct_missing_field (fs : list (string * HailType))
    (vs : list (string * pyvalue)) (f : string) :
  f ∈ fs.*1 -> f ∉ vs.*1 ->
  (forall j, _convert_to_json_na (tstruct fs) (PyStruct vs) <> Ok j)
  /\ typecheck (tstruct fs) (PyStruct []) = Ok tt
  /\ _convert_to_json_na (tstruct fs) (PyStruct []) = Raise KeyError.
Proof.
  intros Hf Hnf.
  pose proof (fun x => fields_to_json_loop
                (fun t => HailType_convert_to_json_na (_convert_to_json t)) x fs)
    as Hloop.
  cbv beta in Hloop.
  unfold _convert_to_json_na, HailType_convert_to_json_na.
  cbn [is_None _convert_to_json]. rewrite !Hloop. split; [|split].
  - intros j. destruct (rmapM _ fs) as [items|] eqn:Hitems; [|done].
    apply rmapM_Ok_Forall2 in Hitems.
    apply list_elem_of_fmap in Hf as ([f' t] & -> & Hin).
    apply list_elem_of_lookup in Hin as [i Hi].
    destruct (Forall2_lookup_l _ _ _ _ _ Hitems Hi) as (item & _ & Hitem).
    simpl in Hitem.
    assert (struct_getitem vs f' = None) as Hnone.
    { clear -Hnf. induction vs as [|[g u] vs IH]; [done|]. simpl.
      rewrite fmap_cons in Hnf. apply not_elem_of_cons in Hnf as [Hne Hnf].
      destruct (String.eqb_spec f' g) as [->|_]; [done|by apply IH]. }
    by rewrite Hnone in Hitem.
  - done.
  - destruct fs as [|[g t] fs]; [by apply not_elem_of_nil in Hf|]. done.
Qed.
End CodecEdges.

Lemma tuple_codec_length_witness :
  _convert_to_json (H := no_externals) (ttuple [tint32; tstr])
                   (PyTuple [PyInt 1; PyStr "a"; PyBool true])
  = _convert_to_json (H := no_externals) (ttuple [tint32; tstr])
                     (PyTuple [PyInt 1; PyStr "a"]).
Proof.
  exact (proj1 (tuple_codec_length (H := no_externals) [tint32; tstr]
                  [PyInt 1; PyStr "a"] [PyBool true] eq_refl)).
Defined.

Lemma struct_decode_fields_witness :
  exists vs, PyStruct [("a", PyInt 1); ("b", PyNone)] = PyStruct vs
             /\ vs.*1 = ["a"; "b"].
Proof.
  destruct (struct_decode_fields (H := no_externals)
              [("a", tint32); ("b", tstr)]
              [(PyStr "z", PyInt 0); (PyStr "a", PyInt 1)]
              (PyStruct [("a", PyInt 1); ("b", PyNone)]) eq_refl)
    as (vs & Hv & Hnames & _).
  exists vs. split; [exact Hv|exact Hnames].
Defined.

Lemma struct_missing_field_witness :
  _convert_to_json_na (H := no_externals) (tstruct [("a", tint32); ("b", tstr)])
                      (PyStruct []) = Raise KeyError.
Proof.
  exact (proj2 (proj2 (struct_missing_field (H := no_externals)
                         [("a", tint32); ("b", tstr)] [] "b"
                         ltac:(simpl; apply list_elem_of_further, list_elem_of_here)
                         ltac:(apply not_elem_of_nil)))).
Defined.

(** ** Pretty printing and summaries *)

Lemma __str___flat_raises (t : HailType) (x : exn) :
  flat t = true -> __str__ t = Raise x -> x = AssertionError.
Proof.
  unfold flat.
  induction t as [| | | | | | |e k IH|e IH|e IH|k v IHk IHv|fs IH|fs IH|ts IH| |rg|e IH|y cond box]
    using HailType_nested_ind; intros Hflat; simpl in Hflat; try discriminate;
    try (simpl; discriminate).
  - simpl. destruct k; [|by intros [= <-]].
    destruct (__str__ e); [done|]. simpl. intros [= <-]. by apply IH.
  - simpl. destruct (__str__ e); [done|]. simpl. intros [= <-]. by apply IH.
  - simpl. destruct (__str__ e); [done|]. simpl. intros [= <-]. by apply IH.
  - apply andb_prop in Hflat as [Hk Hv]. simpl.
    destruct (__str__ k); simpl; [|intros [= <-]; by apply IHk].
    destruct (__str__ v); simpl; [done|intros [= <-]; by apply IHv].
  - simpl. destruct (__str__ e); [done|]. simpl. intros [= <-]. by apply IH.
Qed.

(** X26: on a type in which no struct, union or tuple occurs, [pretty]
    gives the indentation followed by [str(t)], whatever the increment is,
    and [summary_type] gives [str(t)]. *)
Theorem pretty_flat (t : HailType) (indent increment : Z) :
  flat t = true ->
  pretty t indent increment = rbind (__str__ t) (fun s => Ok (spaces indent +:+ s))
  /\ summary_type t = __str__ t.
Proof.
  intros Hflat.
  assert (_pretty t indent increment = __str__ t /\ summary_type t = __str__ t)
    as [Hp Hs]; [|by unfold pretty; rewrite Hp].
  revert Hflat. unfold flat.
  induction t as [| | | | | | |e k IH|e IH|e IH|k v IHk IHv|fs IH|fs IH|ts IH| |rg|e IH|y cond box]
    using HailType_nested_ind; intros Hflat; simpl in Hflat; try discriminate;
    try (by split).
  - destruct (IH Hflat) as [Hp Hs]. split; [|done]. simpl. rewrite Hp.
    destruct k as [k|]; [done|].
    destruct (__str__ e) as [se|x] eqn:He; [done|]. simpl.
    by rewrite (__str___flat_raises e x Hflat He).
  - destruct (IH Hflat) as [Hp Hs]. simpl. by rewrite Hp, Hs.
  - destruct (IH Hflat) as [Hp Hs]. simpl. by rewrite Hp, Hs.
  - apply andb_prop in Hflat as [Hk Hv].
    destruct (IHk Hk) as [Hpk Hsk]. destruct (IHv Hv) as [Hpv Hsv].
    simpl. by rewrite Hpk, Hsk, Hpv, Hsv.
  - destruct (IH Hflat) as [Hp Hs]. simpl. by rewrite Hp, Hs.
Qed.

Lemma pretty_flat_witness :
  pretty (tdict tstr (tarray (tlocus "GRCh37"))) 2 4
  = Ok ("  dict<str, array<locus<GRCh37>>>").
Proof.
  exact (proj1 (pretty_flat (tdict tstr (tarray (tlocus "GRCh37"))) 2 4 eq_refl)).
Defined.
